(** * Adversarial game-tree search: alpha-beta pruning and minimax with a
      pluggable adversary

    Shallow embedding of [alpha_beta_prunning.py] and [minimax_adversary.py].

    - Python floats are the type [value]: the two sentinels [float('-inf')],
      [float('inf')] and the finite scores, which are integers here (the
      search only ever compares scores, and the demonstration game only
      produces 1 and -1).
    - A Python call either returns, raises, or recurses for ever; the last
      case is cut by a fuel argument that counts nested [max_value] /
      [min_value] frames: [outcome].
    - [random.choice] reads the hidden generator state of the [random]
      module; that state is threaded explicitly in the monad [M] of the
      module [Minimax].

    The grid searches of [pathfinder_pacman.py] and the graph traversals of
    [traverse.py] come after the games, in the modules [Pathfinder] and
    [Traverse]. *)

From Stdlib Require Import ZArith List String Bool Lia PeanoNat Sorted Permutation.
Import ListNotations.
Open Scope string_scope.
Open Scope list_scope.
Open Scope Z_scope.

(* ------------------------------------------------------------------ *)
(** ** Scores *)

Inductive value : Type :=
| NegInf
| Fin (z : Z)
| PosInf.

(** [a < b] on floats (no NaN). *)
Definition vltb (a b : value) : bool :=
  match a, b with
  | NegInf, NegInf => false
  | NegInf, _ => true
  | Fin _, NegInf => false
  | Fin x, Fin y => x <? y
  | Fin _, PosInf => true
  | PosInf, _ => false
  end.

(** [a > b], [a >= b], [a <= b]. *)
Definition vgtb (a b : value) : bool := vltb b a.
Definition vgeb (a b : value) : bool := negb (vltb a b).
Definition vleb (a b : value) : bool := negb (vltb b a).

(** Python's [max(a, b)] and [min(a, b)]: the first argument unless the
    second is strictly better. *)
Definition py_max (a b : value) : value := if vgtb b a then b else a.
Definition py_min (a b : value) : value := if vltb b a then b else a.

(** Unary minus. *)
Definition vneg (a : value) : value :=
  match a with
  | NegInf => PosInf
  | Fin z => Fin (- z)
  | PosInf => NegInf
  end.

(** Propositional order, for statements. *)
Definition vlt (a b : value) : Prop := vltb a b = true.
Definition vle (a b : value) : Prop := vltb b a = false.

(* ------------------------------------------------------------------ *)
(** ** Outcomes of a call *)

Inductive exn : Type :=
| ValueError
| IndexError
| TypeError.

Inductive outcome (A : Type) : Type :=
| Ok (a : A)
| Raise (e : exn)
| OutOfFuel.

Arguments Ok {A} a.
Arguments Raise {A} e.
Arguments OutOfFuel {A}.

Definition obind {A B : Type} (c : outcome A) (k : A -> outcome B) : outcome B :=
  match c with
  | Ok a => k a
  | Raise e => Raise e
  | OutOfFuel => OutOfFuel
  end.

Declare Scope outcome_scope.
Delimit Scope outcome_scope with outcome.
Notation "x <- c ;; k" := (obind c (fun x => k))
  (at level 61, c at next level, right associativity) : outcome_scope.

(* ------------------------------------------------------------------ *)
(** ** The game interface (class [Game])

    [actions], [result], [is_terminal] ([terminal_test] in
    [minimax_adversary.py]), [utility] and [to_move].  [utility] may raise.
    [result] is a function on actions; what the game does when it is handed
    Python's [None] in place of an action is [result_None]. *)

Record Game (State Action Player : Type) : Type := {
  actions : State -> list Action;
  result : State -> Action -> State;
  result_None : State -> outcome State;
  is_terminal : State -> bool;
  utility : State -> Player -> outcome value;
  to_move : State -> Player
}.

Arguments actions {State Action Player} g _.
Arguments result {State Action Player} g _ _.
Arguments result_None {State Action Player} g _.
Arguments is_terminal {State Action Player} g _.
Arguments utility {State Action Player} g _ _.
Arguments to_move {State Action Player} g _.

(** [game.result(state, a)] where [a] is a Python value: an action or [None]. *)
Definition py_result {State Action Player : Type} (game : Game State Action Player)
  (state : State) (a : option Action) : outcome State :=
  match a with
  | Some a => Ok (result game state a)
  | None => result_None game state
  end.

(* ------------------------------------------------------------------ *)
(** ** [alpha_beta_prunning.py] *)

Module AlphaBeta.
Section Search.
Context {State Action Player : Type}.
Variable game : Game State Action Player.

Local Open Scope outcome_scope.

(** The [for a in game.actions(state)] loop of [max_value]; [child] is the
    recursive call to [min_value]. *)
Fixpoint max_loop (child : State -> value -> value -> outcome (value * option Action))
  (state : State) (beta : value) (acts : list Action)
  (v : value) (best_move : option Action) (alpha : value)
  : outcome (value * option Action) :=
  match acts with
  | [] => Ok (v, best_move)
  | a :: rest =>
      r <- child (result game state a) alpha beta ;;
      let v2 := fst r in
      let '(v, best_move) := if vgtb v2 v then (v2, Some a) else (v, best_move) in
      if vgeb v beta then Ok (v, best_move)
      else max_loop child state beta rest v best_move (py_max alpha v)
  end.

(** The loop of [min_value]; [child] is the recursive call to [max_value]. *)
Fixpoint min_loop (child : State -> value -> value -> outcome (value * option Action))
  (state : State) (alpha : value) (acts : list Action)
  (v : value) (best_move : option Action) (beta : value)
  : outcome (value * option Action) :=
  match acts with
  | [] => Ok (v, best_move)
  | a :: rest =>
      r <- child (result game state a) alpha beta ;;
      let v2 := fst r in
      let '(v, best_move) := if vltb v2 v then (v2, Some a) else (v, best_move) in
      if vleb v alpha then Ok (v, best_move)
      else min_loop child state alpha rest v best_move (py_min beta v)
  end.

Fixpoint max_value (fuel : nat) (state : State) (player : Player)
  (alpha beta : value) {struct fuel} : outcome (value * option Action) :=
  match fuel with
  | O => OutOfFuel
  | S fuel' =>
      if is_terminal game state then
        u <- utility game state player ;; Ok (u, None)
      else
        max_loop (fun st a b => min_value fuel' st player a b)
                 state beta (actions game state) NegInf None alpha
  end
with min_value (fuel : nat) (state : State) (player : Player)
  (alpha beta : value) {struct fuel} : outcome (value * option Action) :=
  match fuel with
  | O => OutOfFuel
  | S fuel' =>
      if is_terminal game state then
        u <- utility game state player ;; Ok (u, None)
      else
        min_loop (fun st a b => max_value fuel' st player a b)
                 state alpha (actions game state) PosInf None beta
  end.

Definition alpha_beta_search (fuel : nat) (state : State) : outcome (option Action) :=
  let player := to_move game state in
  r <- max_value fuel state player NegInf PosInf ;;
  Ok (snd r).

End Search.
End AlphaBeta.

(* ------------------------------------------------------------------ *)
(** ** The demonstration game: [NimGame]

    The two files define the same class, up to the name of the terminal test
    and [1] / [-1] against [1.0] / [-1.0].  A state is [(tokens, to_move)]. *)

(** [range(lo, hi)]. *)
Definition py_range (lo hi : Z) : list Z :=
  map (fun i => lo + Z.of_nat i) (seq 0 (Z.to_nat (hi - lo))).

Definition nim_state : Type := Z * string.

Definition nim_actions (max_take : Z) (state : nim_state) : list Z :=
  let '(tokens, _) := state in
  py_range 1 (Z.min max_take tokens + 1).

Definition nim_result (state : nim_state) (action : Z) : nim_state :=
  let '(tokens, to_move) := state in
  let next_player := if String.eqb to_move "A" then "B" else "A" in
  (tokens - action, next_player).

(** [tokens - None] raises [TypeError]. *)
Definition nim_result_None (state : nim_state) : outcome nim_state :=
  Raise TypeError.

Definition nim_is_terminal (state : nim_state) : bool :=
  let '(tokens, _) := state in
  tokens =? 0.

Definition nim_utility (state : nim_state) (player : string) : outcome value :=
  let '(tokens, to_move) := state in
  if negb (tokens =? 0) then Raise ValueError
  else
    let loser := to_move in
    let winner := if String.eqb loser "A" then "B" else "A" in
    Ok (if String.eqb winner player then Fin 1 else Fin (-1)).

Definition nim_to_move (state : nim_state) : string := snd state.

Definition NimGame (max_take : Z) : Game nim_state Z string := {|
  actions := nim_actions max_take;
  result := nim_result;
  result_None := nim_result_None;
  is_terminal := nim_is_terminal;
  utility := nim_utility;
  to_move := nim_to_move
|}.

(* ------------------------------------------------------------------ *)
(** ** [minimax_adversary.py] *)

Module Minimax.

(** State of the [random] module: the raw draws still to come. *)
Definition rng : Type := nat -> nat.

(** A computation that may read the generator, and may raise. *)
Definition M (A : Type) : Type := rng -> outcome (A * rng).

Definition mret {A : Type} (a : A) : M A := fun g => Ok (a, g).

Definition mbind {A B : Type} (c : M A) (k : A -> M B) : M B :=
  fun g =>
    match c g with
    | Ok (a, g') => k a g'
    | Raise e => Raise e
    | OutOfFuel => OutOfFuel
    end.

Definition lift {A : Type} (c : outcome A) : M A :=
  fun g =>
    match c with
    | Ok a => Ok (a, g)
    | Raise e => Raise e
    | OutOfFuel => OutOfFuel
    end.

Definition out_of_fuel {A : Type} : M A := fun _ => OutOfFuel.

Declare Scope monad_scope.
Delimit Scope monad_scope with monad.
Notation "x <- c ;; k" := (mbind c (fun x => k))
  (at level 61, c at next level, right associativity) : monad_scope.

(** [random.choice(seq)]: [IndexError] on an empty sequence, otherwise the
    element at an index below [len(seq)] taken from the next draw. *)
Definition random_choice {A : Type} (seq : list A) : M A :=
  fun g =>
    match seq with
    | [] => Raise IndexError
    | d :: _ => Ok (List.nth (Nat.modulo (g O) (List.length seq)) seq d, fun i => g (S i))
    end.

Abbreviation terminal_test := is_terminal (only parsing).

Section Search.
Context {State Action Player : Type}.

Local Open Scope monad_scope.

(** Class [Adversary]: [choose_action(state, actions, game, evaluator,
    opponent)].  The returned Python value is an action or [None]. *)
Record Adversary : Type := {
  choose_action :
    State -> list Action -> Game State Action Player ->
    (State -> M value) -> Player -> M (option Action)
}.

(** The loop that [OptimalAdversary] and [HeuristicAdversary] both spell out:
    [best_action = None], [best_value = float('inf')], then the first action
    with the lowest score wins; [score] is [evaluator] for the former and
    [self.heuristic] for the latter. *)
Fixpoint lowest_loop (score : State -> M value) (game : Game State Action Player)
  (state : State) (acts : list Action)
  (best_action : option Action) (best_value : value) : M (option Action) :=
  match acts with
  | [] => mret best_action
  | a :: rest =>
      val <- score (result game state a) ;;
      if vltb val best_value
      then lowest_loop score game state rest (Some a) val
      else lowest_loop score game state rest best_action best_value
  end.

Definition OptimalAdversary : Adversary := {|
  choose_action := fun state acts game evaluator opponent =>
    lowest_loop evaluator game state acts None PosInf
|}.

Definition RandomAdversary : Adversary := {|
  choose_action := fun state acts game evaluator opponent =>
    a <- random_choice acts ;; mret (Some a)
|}.

(** [HeuristicAdversary(heuristic)]; the heuristic is a function that scores
    every state. *)
Definition HeuristicAdversary (heuristic : State -> value) : Adversary := {|
  choose_action := fun state acts game evaluator opponent =>
    lowest_loop (fun st => mret (heuristic st)) game state acts None PosInf
|}.

Variable game : Game State Action Player.
Variable player : Player.
Variable adversary : option Adversary.

(** Loop of the inner [max_value]: [v = max(v, min_value(result(s, a)))]. *)
Fixpoint max_loop (child : State -> M value) (s : State)
  (acts : list Action) (v : value) : M value :=
  match acts with
  | [] => mret v
  | a :: rest =>
      x <- child (result game s a) ;;
      max_loop child s rest (py_max v x)
  end.

(** Loop of the inner [min_value] when [adversary is None]. *)
Fixpoint min_loop (child : State -> M value) (s : State)
  (acts : list Action) (v : value) : M value :=
  match acts with
  | [] => mret v
  | a :: rest =>
      x <- child (result game s a) ;;
      min_loop child s rest (py_min v x)
  end.

Fixpoint max_value (fuel : nat) (s : State) {struct fuel} : M value :=
  match fuel with
  | O => out_of_fuel
  | S fuel' =>
      if terminal_test game s then lift (utility game s player)
      else max_loop (fun st => min_value fuel' st) s (actions game s) NegInf
  end
with min_value (fuel : nat) (s : State) {struct fuel} : M value :=
  match fuel with
  | O => out_of_fuel
  | S fuel' =>
      if terminal_test game s then lift (utility game s player)
      else
        let acts := actions game s in
        match adversary with
        | None => min_loop (fun st => max_value fuel' st) s acts PosInf
        | Some adv =>
            chosen <- choose_action adv s acts game
                        (fun st => max_value fuel' st) (to_move game s) ;;
            s' <- lift (py_result game s chosen) ;;
            max_value fuel' s'
        end
  end.

(** The root loop of [minimax_decision], with both of its variables. *)
Fixpoint decision_loop (child : State -> M value) (state : State)
  (acts : list Action) (best_action : option Action) (best_value : value)
  : M (value * option Action) :=
  match acts with
  | [] => mret (best_value, best_action)
  | a :: rest =>
      val <- child (result game state a) ;;
      if vgtb val best_value
      then decision_loop child state rest (Some a) val
      else decision_loop child state rest best_action best_value
  end.

(** [(best_value, best_action)] when the root loop ends. *)
Definition minimax_root (fuel : nat) (state : State) : M (value * option Action) :=
  decision_loop (fun st => min_value fuel st) state (actions game state) None NegInf.

Definition minimax_decision (fuel : nat) (state : State) : M (option Action) :=
  r <- minimax_root fuel state ;; mret (snd r).

End Search.

Arguments Adversary : clear implicits.
Arguments OptimalAdversary {State Action Player}.
Arguments RandomAdversary {State Action Player}.
Arguments HeuristicAdversary {State Action Player} heuristic.

End Minimax.

(* ------------------------------------------------------------------ *)
(** ** Specification vocabulary *)

(** The part of the contract that makes the search return: on the states
    [valid] that play can reach, moves lead to valid states and strictly
    decrease [rank] (a finite tree, no cycles), and a terminal state has a
    utility for every player and enumerates no move. *)
Record finite_tree {State Action Player : Type} (game : Game State Action Player)
  (valid : State -> Prop) (rank : State -> nat) : Prop := {
  ft_closed : forall s a,
    valid s -> is_terminal game s = false -> In a (actions game s) ->
    valid (result game s a);
  ft_rank : forall s a,
    valid s -> is_terminal game s = false -> In a (actions game s) ->
    (rank (result game s a) < rank s)%nat;
  ft_utility : forall s p,
    valid s -> is_terminal game s = true -> exists u, utility game s p = Ok u;
  ft_terminal : forall s,
    valid s -> is_terminal game s = true -> actions game s = []
}.

(** The whole Game Model contract: a finite tree as above, where moreover the
    utility of a terminal state is a finite score and a non-terminal state
    has at least one move. *)
Record conforming {State Action Player : Type} (game : Game State Action Player)
  (valid : State -> Prop) (rank : State -> nat) : Prop := {
  conf_closed : forall s a,
    valid s -> is_terminal game s = false -> In a (actions game s) ->
    valid (result game s a);
  conf_rank : forall s a,
    valid s -> is_terminal game s = false -> In a (actions game s) ->
    (rank (result game s a) < rank s)%nat;
  conf_utility : forall s p,
    valid s -> is_terminal game s = true -> exists z, utility game s p = Ok (Fin z);
  conf_terminal : forall s,
    valid s -> is_terminal game s = true -> actions game s = [];
  conf_moves : forall s,
    valid s -> is_terminal game s = false -> actions game s <> []
}.

(** How the score [r] returned by a pruned evaluation with window
    [(alpha, beta)] relates to the unpruned score [t] of the same node: exact
    inside the window, a bound on the right side outside of it. *)
Definition bracket (alpha beta r t : value) : Prop :=
  (vle r alpha -> vle t r) /\
  (vlt alpha r -> vlt r beta -> t = r) /\
  (vle beta r -> vle r t).

(** [fAB] is a pruned evaluation of the node that [fMM] evaluates in full:
    whenever the full evaluation returns [t], the pruned one returns, for any
    window, a score related to [t] by [bracket]. *)
Definition prunes {State Action : Type}
  (fAB : State -> value -> value -> outcome (value * option Action))
  (fMM : State -> Minimax.M value) : Prop :=
  forall st alpha beta g t g',
    vlt alpha beta -> fMM st g = Ok (t, g') ->
    exists r m, fAB st alpha beta = Ok (r, m) /\ bracket alpha beta r t.

(** [a] is the first action of [state], in enumeration order, whose successor
    has the best unpruned score for [player]: every earlier action scores
    strictly less, no later action scores more. *)
Definition first_best {State Action Player : Type} (game : Game State Action Player)
  (player : Player) (fuel : nat) (state : State) (g : Minimax.rng) (a : Action) : Prop :=
  exists l1 l2 V,
    actions game state = l1 ++ a :: l2 /\
    Minimax.min_value game player None fuel (result game state a) g = Ok (V, g) /\
    (forall b, In b l1 -> exists x,
        Minimax.min_value game player None fuel (result game state b) g = Ok (x, g) /\
        vlt x V) /\
    (forall b, In b l2 -> exists x,
        Minimax.min_value game player None fuel (result game state b) g = Ok (x, g) /\
        vle x V).

(** A score that is a number, not one of the two sentinels. *)
Definition finite (v : value) : Prop := exists z, v = Fin z.

(** The contract of [choose_action]: handed at least one legal action, and an
    evaluator that scores every candidate successor with a finite score, the
    adversary returns one of the actions it was handed. *)
Definition honours {State Action Player : Type}
  (adv : Minimax.Adversary State Action Player) : Prop :=
  forall state acts game evaluator opponent g,
    acts <> [] ->
    (forall a g0, In a acts ->
       exists z g1, evaluator (result game state a) g0 = Ok (Fin z, g1)) ->
    exists a g', In a acts /\
      Minimax.choose_action adv state acts game evaluator opponent g = Ok (Some a, g').

Definition honours_opt {State Action Player : Type}
  (adversary : option (Minimax.Adversary State Action Player)) : Prop :=
  match adversary with
  | None => True
  | Some adv => honours adv
  end.

(** A Python value returned by [choose_action] that is [None] or one of the
    actions handed in. *)
Definition none_or_member {Action : Type} (acts : list Action) (c : option Action) : Prop :=
  c = None \/ exists a, c = Some a /\ In a acts.

(** An adversary that never recurses for ever when its evaluator does not,
    and that returns, when it returns, [None] or one of the actions. *)
Definition halts {State Action Player : Type}
  (adv : Minimax.Adversary State Action Player) : Prop :=
  forall state acts game evaluator opponent g,
    (forall a g0, In a acts -> evaluator (result game state a) g0 <> OutOfFuel) ->
    match Minimax.choose_action adv state acts game evaluator opponent g with
    | Ok (c, _) => none_or_member acts c
    | Raise _ => True
    | OutOfFuel => False
    end.

(** States of the demonstration game that play reaches from a pile that is
    not negative, and the number of plies that can still be played. *)
Definition nim_valid (state : nim_state) : Prop := 0 <= fst state.
Definition nim_rank (state : nim_state) : nat := Z.to_nat (fst state).

(** A small game that breaks the contract in three places: [Mute] and
    [Idle] are non-terminal states without moves, and the terminal state
    [Over] still enumerates a move. *)
Inductive edge_state : Type :=
| Fork      (* two moves: to [Mute] and to [Over] *)
| Mute      (* not terminal, no move *)
| Over      (* terminal, utility 1, one move back to itself *)
| Twin      (* two moves, both to [Pass] *)
| Pass      (* one move, to [Idle] *)
| Idle.     (* not terminal, no move *)

Definition EdgeGame : Game edge_state nat string := {|
  actions := fun s =>
    match s with
    | Fork => [0%nat; 1%nat]
    | Over => [0%nat]
    | Twin => [0%nat; 1%nat]
    | Pass => [0%nat]
    | Mute | Idle => []
    end;
  result := fun s a =>
    match s, a with
    | Fork, O => Mute
    | Fork, _ => Over
    | Twin, _ => Pass
    | Pass, _ => Idle
    | s, _ => s
    end;
  result_None := fun _ => Raise TypeError;
  is_terminal := fun s => match s with Over => true | _ => false end;
  utility := fun s _ => match s with Over => Ok (Fin 1) | _ => Raise ValueError end;
  to_move := fun _ => "A"
|}.

(** A fixed generator state for the examples. *)
Definition rng0 : Minimax.rng := fun _ => O.

(* ------------------------------------------------------------------ *)
(** ** Closed forms for the demonstration game

    What the searches compute on [NimGame], written without search. *)

(** The score, for the player who is to move, of a pile of [tokens] when
    both sides play best: lost exactly on the multiples of [max_take + 1]. *)
Definition nim_score (max_take tokens : Z) : value :=
  if tokens mod (max_take + 1) =? 0 then Fin (-1) else Fin 1.

(** The move that theory prescribes: down to the next multiple of
    [max_take + 1], and a single token when the position is lost. *)
Definition nim_best_take (max_take tokens : Z) : Z :=
  if tokens mod (max_take + 1) =? 0 then 1 else tokens mod (max_take + 1).

(** The opponent of a player of the demonstration game, as [result] computes
    it. *)
Definition other (p : string) : string := if String.eqb p "A" then "B" else "A".

(* ------------------------------------------------------------------ *)
(** ** [heapq]

    The priority queue of the standard library, through its contract: a
    heap holds the items pushed and not yet popped, [heappop] returns a
    smallest one, and [heappush] adds one.  How the items lie in the
    underlying list ([heap_items], which [ucs] and [astar] copy into the
    states they yield) is left to the implementation. *)
Record heapq (item : Type) (le : item -> item -> Prop) : Type := {
  heap : Type;
  heap_items : heap -> list item;
  heap_empty : heap;
  heappush : heap -> item -> heap;
  heappop : heap -> option (item * heap);
  heap_empty_items : heap_items heap_empty = [];
  heappush_items : forall h x, Permutation (heap_items (heappush h x)) (x :: heap_items h);
  heappop_none : forall h, heappop h = None <-> heap_items h = [];
  heappop_some : forall h x h',
    heappop h = Some (x, h') ->
    Permutation (heap_items h) (x :: heap_items h') /\ Forall (le x) (heap_items h')
}.

Arguments heap {item le} _.
Arguments heap_items {item le} _ _.
Arguments heap_empty {item le} _.
Arguments heappush {item le} _ _ _.
Arguments heappop {item le} _ _.

(** The first smallest item of [l], and the others. *)
Fixpoint select_min {item : Type} (leb : item -> item -> bool) (l : list item)
  : option (item * list item) :=
  match l with
  | [] => None
  | x :: rest =>
      match select_min leb rest with
      | None => Some (x, [])
      | Some (m, others) =>
          if leb x m then Some (x, m :: others) else Some (m, x :: others)
      end
  end.

(** One implementation of the contract: the heap is an unordered list, from
    which [heappop] selects the first smallest item. *)
Definition list_heapq {item : Type} (leb : item -> item -> bool)
  (leb_total : forall a b, leb a b = false -> leb b a = true)
  (leb_trans : forall a b c, leb a b = true -> leb b c = true -> leb a c = true)
  : heapq item (fun a b => leb a b = true).
Proof.
  refine {| heap := list item;
            heap_items := fun l => l;
            heap_empty := [];
            heappush := fun l x => x :: l;
            heappop := select_min leb |}.
  - reflexivity.
  - intros l x. reflexivity.
  - intros l. destruct l as [|x l]; simpl; [tauto|].
    split; [|discriminate].
    destruct (select_min leb l) as [[m others]|]; [|discriminate].
    destruct (leb x m); discriminate.
  - induction h as [|a l IH]; intros x rest E; [discriminate E|].
    simpl in E. destruct (select_min leb l) as [[m others]|] eqn:El.
    + destruct (IH m others eq_refl) as [Hperm Hall].
      destruct (leb a m) eqn:Eam; inversion E; subst.
      * split; [constructor; exact Hperm|].
        constructor; [exact Eam|].
        rewrite Forall_forall in *. intros y Hy. eapply leb_trans; [exact Eam | auto].
      * split.
        -- etransitivity; [apply perm_skip; exact Hperm | apply perm_swap].
        -- constructor; [apply leb_total; exact Eam | exact Hall].
    + destruct l as [|b l].
      * inversion E; subst. split; [reflexivity | constructor].
      * simpl in El. destruct (select_min leb l) as [[m others]|]; [|discriminate El].
        destruct (leb b m); discriminate El.
Defined.

(* ------------------------------------------------------------------ *)
(** ** [pathfinder_pacman.py]: the grid, its helpers and its searches

    A cell is a pair [(c, r)] of integers.  The [came_from] dict is the
    list of its assignments; the [explored] and [walls] sets are lists, used
    through membership only.  A generator is the list of what it yields
    until it returns.  The heaps of [ucs] and [astar] are those of [heapq]
    above, in any implementation [H]. *)

Module Pathfinder.

Definition CELL_SIZE : Z := 24.
Definition GRID_COLS : Z := 28.
Definition GRID_ROWS : Z := 20.
Definition MARGIN : Z := 20.

(** A grid cell [(c, r)]; a pixel [(x, y)]. *)
Definition cell : Type := (Z * Z)%type.

Definition cell_eqb (a b : cell) : bool := (fst a =? fst b) && (snd a =? snd b).

Definition cell_to_pixel (c r : Z) : Z * Z :=
  let x := MARGIN + c * CELL_SIZE in
  let y := MARGIN + r * CELL_SIZE in
  (x, y).

(** [//] is floor division, as [Z.div] is for a positive divisor. *)
Definition pixel_to_cell (x y : Z) : option cell :=
  let cx := (x - MARGIN) / CELL_SIZE in
  let cy := (y - MARGIN) / CELL_SIZE in
  if (0 <=? cx) && (cx <? GRID_COLS) && (0 <=? cy) && (cy <? GRID_ROWS)
  then Some (cx, cy)
  else None.

(** The generator [neighbors], as the list of what it yields, in order. *)
Definition neighbors (node : cell) : list cell :=
  let '(c, r) := node in
  flat_map
    (fun d : Z * Z =>
       let '(dc, dr) := d in
       let nc := c + dc in
       let nr := r + dr in
       if (0 <=? nc) && (nc <? GRID_COLS) && (0 <=? nr) && (nr <? GRID_ROWS)
       then [(nc, nr)] else [])
    [(1, 0); (-1, 0); (0, 1); (0, -1)].

Definition manhattan (a b : cell) : Z :=
  Z.abs (fst a - fst b) + Z.abs (snd a - snd b).

(** A dict keyed by cells, as the list of its assignments, newest first:
    [d[k] = v] is [dict_set], [k in d] and [d[k]] are [dict_get]. *)
Definition dict (V : Type) : Type := list (cell * V).

Fixpoint dict_get {V : Type} (d : dict V) (k : cell) : option V :=
  match d with
  | [] => None
  | (k', v) :: rest => if cell_eqb k k' then Some v else dict_get rest k
  end.

Definition dict_set {V : Type} (d : dict V) (k : cell) (v : V) : dict V := (k, v) :: d.

(** A set of cells, as a list; [x in s] is [set_mem]. *)
Definition set_mem (x : cell) (s : list cell) : bool := existsb (cell_eqb x) s.

(** The [while current in came_from] loop of [reconstruct_path]; the fuel
    bounds its iterations. *)
Fixpoint reconstruct_loop (fuel : nat) (came_from : dict cell) (current : cell)
  (path : list cell) : outcome (list cell) :=
  match fuel with
  | O => OutOfFuel
  | S fuel' =>
      match dict_get came_from current with
      | Some prev => reconstruct_loop fuel' came_from prev (path ++ [prev])
      | None => Ok path
      end
  end.

Definition reconstruct_path (fuel : nat) (came_from : dict cell) (current : cell)
  : outcome (list cell) :=
  obind (reconstruct_loop fuel came_from current [current]) (fun path => Ok (rev path)).

(** What the search generators yield: the dict with status ['searching']
    (its [current], [frontier] and [explored] entries), the one with status
    ['found'] (its [path]) and the one with status ['no_path'].  A generator
    is the list of what it yields until it returns. *)
Inductive event : Type :=
| Searching (current : cell) (frontier : list cell) (explored : list cell)
| Found (path : list cell)
| NoPath.

(** The [for n in neighbors(current)] loop shared, word for word, by [bfs]
    and [dfs]: a neighbour that is neither explored nor a wall gets its
    [came_from] entry, joins [explored] and is appended to [frontier]. *)
Fixpoint expand (current : cell) (walls : list cell) (nbrs : list cell)
  (frontier : list cell) (came_from : dict cell) (explored : list cell)
  : list cell * dict cell * list cell :=
  match nbrs with
  | [] => (frontier, came_from, explored)
  | n :: rest =>
      if set_mem n explored || set_mem n walls
      then expand current walls rest frontier came_from explored
      else expand current walls rest
             (frontier ++ [n]) (dict_set came_from n current) (n :: explored)
  end.

(** [while frontier:] of [bfs], with [frontier.popleft()].  [fuel] bounds the
    iterations of this loop, [fuel0] those of the loop of
    [reconstruct_path]. *)
Fixpoint bfs_loop (fuel0 fuel : nat) (goal : cell) (walls : list cell)
  (frontier : list cell) (came_from : dict cell) (explored : list cell)
  : outcome (list event) :=
  match fuel with
  | O => OutOfFuel
  | S fuel' =>
      match frontier with
      | [] => Ok [NoPath]
      | current :: frontier =>
          let ev := Searching current frontier explored in
          if cell_eqb current goal then
            obind (reconstruct_path fuel0 came_from current)
                  (fun path => Ok [ev; Found path])
          else
            let '(frontier, came_from, explored) :=
              expand current walls (neighbors current) frontier came_from explored in
            obind (bfs_loop fuel0 fuel' goal walls frontier came_from explored)
                  (fun rest => Ok (ev :: rest))
      end
  end.

Definition bfs (fuel : nat) (start goal : cell) (walls : list cell)
  : outcome (list event) :=
  bfs_loop fuel fuel goal walls [start] [] [start].

(** [frontier.pop()]: the last element and what precedes it. *)
Fixpoint pop {A : Type} (l : list A) : option (list A * A) :=
  match l with
  | [] => None
  | [x] => Some ([], x)
  | x :: rest =>
      match pop rest with
      | Some (init, last) => Some (x :: init, last)
      | None => None
      end
  end.

(** [while frontier:] of [dfs], with [frontier.pop()]. *)
Fixpoint dfs_loop (fuel0 fuel : nat) (goal : cell) (walls : list cell)
  (frontier : list cell) (came_from : dict cell) (explored : list cell)
  : outcome (list event) :=
  match fuel with
  | O => OutOfFuel
  | S fuel' =>
      match pop frontier with
      | None => Ok [NoPath]
      | Some (frontier, current) =>
          let ev := Searching current frontier explored in
          if cell_eqb current goal then
            obind (reconstruct_path fuel0 came_from current)
                  (fun path => Ok [ev; Found path])
          else
            let '(frontier, came_from, explored) :=
              expand current walls (neighbors current) frontier came_from explored in
            obind (dfs_loop fuel0 fuel' goal walls frontier came_from explored)
                  (fun rest => Ok (ev :: rest))
      end
  end.

Definition dfs (fuel : nat) (start goal : cell) (walls : list cell)
  : outcome (list event) :=
  dfs_loop fuel fuel goal walls [start] [] [start].

(** Python's order on tuples, on cells and on the items of the two heaps:
    [(cost, node)] for [ucs], [(f, g, node)] for [astar]. *)
Definition cell_leb (a b : cell) : bool :=
  (fst a <? fst b) || ((fst a =? fst b) && (snd a <=? snd b)).

Definition ucs_item : Type := (Z * cell)%type.

Definition ucs_leb (a b : ucs_item) : bool :=
  (fst a <? fst b) || ((fst a =? fst b) && cell_leb (snd a) (snd b)).

Definition ucs_le (a b : ucs_item) : Prop := ucs_leb a b = true.

Definition astar_item : Type := (Z * Z * cell)%type.

Definition astar_leb (a b : astar_item) : bool :=
  let '(fa, ga, na) := a in
  let '(fb, gb, nb) := b in
  (fa <? fb) || ((fa =? fb) && ((ga <? gb) || ((ga =? gb) && cell_leb na nb))).

Definition astar_le (a b : astar_item) : Prop := astar_leb a b = true.

(** How a run of [ucs] or [astar] ends: the generator is exhausted, having
    yielded [a]; a dict lookup raises [KeyError]; or the fuel runs out. *)
Inductive attempt (A : Type) : Type :=
| Yields (a : A)
| KeyError (key : cell)
| Unfinished.

Arguments Yields {A} a.
Arguments KeyError {A} key.
Arguments Unfinished {A}.

Definition abind {A B : Type} (c : attempt A) (k : A -> attempt B) : attempt B :=
  match c with
  | Yields a => k a
  | KeyError key => KeyError key
  | Unfinished => Unfinished
  end.

(** What [ucs] and [astar] yield: the ['searching'] dict with its [current],
    [frontier] and [explored] entries and the dict of costs (['costs'] in
    [ucs], ['g'] in [astar]); the ['found'] dict with its [path] and [cost];
    the ['no_path'] dict. *)
Inductive cost_event : Type :=
| CostSearching (current : cell) (frontier : list cell) (explored : list cell)
    (costs : dict Z)
| CostFound (path : list cell) (cost : Z)
| CostNoPath.

(** [cost_fn=None] stands for [lambda a, b: 1]. *)
Definition default_cost (cost_fn : option (cell -> cell -> Z)) : cell -> cell -> Z :=
  match cost_fn with
  | Some f => f
  | None => fun _ _ => 1
  end.

(** [n not in costs or new_cost < costs[n]]. *)
Definition improves (costs : dict Z) (n : cell) (new_cost : Z) : bool :=
  match dict_get costs n with
  | None => true
  | Some old => new_cost <? old
  end.

Section Ucs.
Variable H : heapq ucs_item ucs_le.

(** The [for n in neighbors(current)] loop of [ucs]. *)
Fixpoint ucs_expand (cost_fn : cell -> cell -> Z) (current : cell)
  (walls : list cell) (nbrs : list cell)
  (frontier : heap H) (came_from : dict cell) (cost_so_far : dict Z)
  : attempt (heap H * dict cell * dict Z) :=
  match nbrs with
  | [] => Yields (frontier, came_from, cost_so_far)
  | n :: rest =>
      if set_mem n walls
      then ucs_expand cost_fn current walls rest frontier came_from cost_so_far
      else
        match dict_get cost_so_far current with
        | None => KeyError current
        | Some cost =>
            let new_cost := cost + cost_fn current n in
            if improves cost_so_far n new_cost
            then ucs_expand cost_fn current walls rest
                   (heappush H frontier (new_cost, n))
                   (dict_set came_from n current)
                   (dict_set cost_so_far n new_cost)
            else ucs_expand cost_fn current walls rest frontier came_from cost_so_far
        end
  end.

(** [while frontier:] of [ucs]. *)
Fixpoint ucs_loop (fuel0 fuel : nat) (cost_fn : cell -> cell -> Z)
  (goal : cell) (walls : list cell)
  (frontier : heap H) (came_from : dict cell) (cost_so_far : dict Z)
  (explored : list cell) : attempt (list cost_event) :=
  match fuel with
  | O => Unfinished
  | S fuel' =>
      match heappop H frontier with
      | None => Yields [CostNoPath]
      | Some ((current_cost, current), frontier) =>
          let explored := current :: explored in
          let frontier_list := map snd (heap_items H frontier) in
          let ev := CostSearching current frontier_list explored cost_so_far in
          if cell_eqb current goal then
            match reconstruct_path fuel0 came_from current with
            | Ok path => Yields [ev; CostFound path current_cost]
            | _ => Unfinished
            end
          else
            abind (ucs_expand cost_fn current walls (neighbors current)
                     frontier came_from cost_so_far)
              (fun '(frontier, came_from, cost_so_far) =>
                 abind (ucs_loop fuel0 fuel' cost_fn goal walls
                          frontier came_from cost_so_far explored)
                   (fun rest => Yields (ev :: rest)))
      end
  end.

Definition ucs (fuel : nat) (start goal : cell) (walls : list cell)
  (cost_fn : option (cell -> cell -> Z)) : attempt (list cost_event) :=
  ucs_loop fuel fuel (default_cost cost_fn) goal walls
    (heappush H (heap_empty H) (0, start)) [] [(start, 0)] [].

End Ucs.

Section Astar.
Variable H : heapq astar_item astar_le.

(** The [for n in neighbors(current)] loop of [astar]. *)
Fixpoint astar_expand (heuristic : cell -> cell -> Z) (cost_fn : cell -> cell -> Z)
  (current goal : cell) (walls : list cell) (nbrs : list cell)
  (frontier : heap H) (came_from : dict cell) (g_score : dict Z)
  : attempt (heap H * dict cell * dict Z) :=
  match nbrs with
  | [] => Yields (frontier, came_from, g_score)
  | n :: rest =>
      if set_mem n walls
      then astar_expand heuristic cost_fn current goal walls rest frontier came_from g_score
      else
        match dict_get g_score current with
        | None => KeyError current
        | Some g =>
            let tentative_g := g + cost_fn current n in
            if improves g_score n tentative_g
            then
              let fscore := tentative_g + heuristic n goal in
              astar_expand heuristic cost_fn current goal walls rest
                (heappush H frontier (fscore, tentative_g, n))
                (dict_set came_from n current)
                (dict_set g_score n tentative_g)
            else
              astar_expand heuristic cost_fn current goal walls rest
                frontier came_from g_score
        end
  end.

(** [while frontier:] of [astar]. *)
Fixpoint astar_loop (fuel0 fuel : nat) (heuristic : cell -> cell -> Z)
  (cost_fn : cell -> cell -> Z) (goal : cell) (walls : list cell)
  (frontier : heap H) (came_from : dict cell) (g_score : dict Z)
  (explored : list cell) : attempt (list cost_event) :=
  match fuel with
  | O => Unfinished
  | S fuel' =>
      match heappop H frontier with
      | None => Yields [CostNoPath]
      | Some ((f, g, current), frontier) =>
          let explored := current :: explored in
          let frontier_list := map snd (heap_items H frontier) in
          let ev := CostSearching current frontier_list explored g_score in
          if cell_eqb current goal then
            match reconstruct_path fuel0 came_from current with
            | Ok path =>
                match dict_get g_score current with
                | Some cost => Yields [ev; CostFound path cost]
                | None => KeyError current
                end
            | _ => Unfinished
            end
          else
            abind (astar_expand heuristic cost_fn current goal walls (neighbors current)
                     frontier came_from g_score)
              (fun '(frontier, came_from, g_score) =>
                 abind (astar_loop fuel0 fuel' heuristic cost_fn goal walls
                          frontier came_from g_score explored)
                   (fun rest => Yields (ev :: rest)))
      end
  end.

Definition astar (fuel : nat) (start goal : cell) (walls : list cell)
  (heuristic : cell -> cell -> Z) (cost_fn : option (cell -> cell -> Z))
  : attempt (list cost_event) :=
  astar_loop fuel fuel heuristic (default_cost cost_fn) goal walls
    (heappush H (heap_empty H) (0 + heuristic start goal, 0, start)) [] [(start, 0)] [].

End Astar.

End Pathfinder.

(* ------------------------------------------------------------------ *)
(** ** Vocabulary for the grid searches *)

Section GridVocabulary.
Import Pathfinder.

(** A cell of the grid. *)
Definition in_grid (n : cell) : Prop :=
  0 <= fst n < GRID_COLS /\ 0 <= snd n < GRID_ROWS.

(** Every two consecutive cells of [path] satisfy [R]. *)
Fixpoint chain {A : Type} (R : A -> A -> Prop) (path : list A) : Prop :=
  match path with
  | a :: ((b :: _) as rest) => R a b /\ chain R rest
  | _ => True
  end.

(** One legal move on the grid: to a 4-neighbour that is not a wall. *)
Definition grid_step (walls : list cell) (a b : cell) : Prop :=
  In b (neighbors a) /\ set_mem b walls = false.

(** The cells that moves can reach from [start]. *)
Inductive reachable (start : cell) (walls : list cell) : cell -> Prop :=
| reach_start : reachable start walls start
| reach_step x n : reachable start walls x -> grid_step walls x n -> reachable start walls n.

(** A path from [start] to [goal] made of legal moves. *)
Definition valid_path (start goal : cell) (walls : list cell) (path : list cell) : Prop :=
  (exists rest, path = start :: rest) /\
  last path start = goal /\
  chain (grid_step walls) path.

(** The entries of [came_from] as the searches build them: each key is
    entered once, is not [start], and points to [start] or to an older key,
    of which it is a neighbour. *)
Fixpoint wf_came_from (start : cell) (walls : list cell) (cf : dict cell) : Prop :=
  match cf with
  | [] => True
  | (n, p) :: rest =>
      wf_came_from start walls rest /\
      dict_get rest n = None /\ n <> start /\
      (p = start \/ dict_get rest p <> None) /\
      grid_step walls p n
  end.

(** All the cells of the grid. *)
Definition all_cells : list cell :=
  flat_map (fun c => map (fun r => (c, r)) (py_range 0 GRID_ROWS)) (py_range 0 GRID_COLS).

(** The searches work on: the frontier, [came_from] and [explored]. *)
Record search_inv (start goal : cell) (walls : list cell)
  (frontier : list cell) (cf : dict cell) (explored : list cell) : Prop := {
  inv_cf : wf_came_from start walls cf;
  inv_explored : forall x,
    set_mem x explored = true <-> (x = start \/ dict_get cf x <> None);
  inv_frontier : forall x, In x frontier -> set_mem x explored = true;
  inv_nodup : NoDup frontier;
  inv_done : forall x,
    set_mem x explored = true -> ~ In x frontier ->
    x <> goal /\ forall n, grid_step walls x n -> set_mem n explored = true
}.

(** Grid cells not yet explored, plus the frontier: what is left to do. *)
Definition todo (frontier explored : list cell) : nat :=
  (List.length (filter (fun c => negb (set_mem c explored)) all_cells)
   + List.length frontier)%nat.

(** Position of the entry of [x] in [cf], counted from the oldest; 0 when
    [x] has none. *)
Fixpoint depth_in (cf : dict cell) (x : cell) : nat :=
  match cf with
  | [] => O
  | (n, _) :: rest => if cell_eqb x n then S (List.length rest) else depth_in rest x
  end.

(** Grid cells that are not in [explored]. *)
Definition unexplored (explored : list cell) : nat :=
  List.length (filter (fun c => negb (set_mem c explored)) all_cells).

(** What the loop over the neighbours of [current] relies on and keeps. *)
Record expand_inv (start : cell) (walls : list cell) (current : cell)
  (frontier : list cell) (cf : dict cell) (explored : list cell) : Prop := {
  ei_cf : wf_came_from start walls cf;
  ei_explored : forall x,
    set_mem x explored = true <-> (x = start \/ dict_get cf x <> None);
  ei_frontier : forall x, In x frontier -> set_mem x explored = true;
  ei_nodup : NoDup frontier;
  ei_current : set_mem current explored = true
}.

Definition is_searching (ev : event) : Prop :=
  match ev with
  | Searching _ _ _ => True
  | _ => False
  end.

(** What a search generator yields on the whole: ['searching'] events, then
    either ['found'] with a path of legal moves from [start] to [goal], or
    ['no_path'] when no such path exists. *)
Definition search_result (start goal : cell) (walls : list cell) (evs : list event) : Prop :=
  exists pre fin,
    evs = pre ++ [fin] /\ Forall is_searching pre /\
    ((exists path, fin = Found path /\ valid_path start goal walls path) \/
     (fin = NoPath /\ ~ reachable start walls goal)).

(** Number of [came_from] links from [x] back to a cell without an entry. *)
Fixpoint hops (cf : dict cell) (x : cell) : nat :=
  match cf with
  | [] => O
  | (n, p) :: rest => if cell_eqb x n then S (hops rest p) else hops rest x
  end.

(** What [bfs] keeps while it expands [current], [k] links from the start:
    the queue is in order of distance and holds distances [k] and [k + 1]
    only; cells that left the queue are at most [k] away, and a move from
    one of them leads to an explored cell at most one link further. *)
Record level_inv (walls : list cell) (current : cell) (k : nat)
  (frontier : list cell) (cf : dict cell) (explored : list cell) : Prop := {
  li_current : hops cf current = k;
  li_sorted : StronglySorted (fun a b => (hops cf a <= hops cf b)%nat) frontier;
  li_low : forall x, In x frontier -> (k <= hops cf x)%nat;
  li_high : forall x, set_mem x explored = true -> (hops cf x <= k + 1)%nat;
  li_done : forall x, set_mem x explored = true -> ~ In x frontier -> (hops cf x <= k)%nat;
  li_near : forall x, set_mem x explored = true -> ~ In x frontier -> x <> current ->
    forall n, grid_step walls x n ->
      set_mem n explored = true /\ (hops cf n <= hops cf x + 1)%nat
}.

(** What [bfs] keeps from one iteration of [while frontier:] to the next. *)
Record bfs_inv (walls : list cell)
  (frontier : list cell) (cf : dict cell) (explored : list cell) : Prop := {
  bi_sorted : StronglySorted (fun a b => (hops cf a <= hops cf b)%nat) frontier;
  bi_window : forall x y, In x frontier -> In y frontier -> (hops cf y <= hops cf x + 1)%nat;
  bi_done : forall x y, set_mem x explored = true -> ~ In x frontier -> In y frontier ->
    (hops cf x <= hops cf y)%nat;
  bi_near : forall x, set_mem x explored = true -> ~ In x frontier ->
    forall n, grid_step walls x n ->
      set_mem n explored = true /\ (hops cf n <= hops cf x + 1)%nat
}.

(** The list heaps of [ucs] and [astar]. *)
Definition ucs_list_heap : heapq ucs_item ucs_le.
Proof.
  apply (list_heapq ucs_leb).
  - intros [a1 [a2 a3]] [b1 [b2 b3]]. unfold ucs_leb, cell_leb. cbn [fst snd].
    rewrite !orb_false_iff, !andb_false_iff, !orb_false_iff, !andb_false_iff.
    rewrite !orb_true_iff, !andb_true_iff, !orb_true_iff, !andb_true_iff.
    rewrite !Z.ltb_ge, !Z.ltb_lt, !Z.eqb_eq, !Z.eqb_neq, !Z.leb_le, !Z.leb_gt. lia.
  - intros [a1 [a2 a3]] [b1 [b2 b3]] [c1 [c2 c3]]. unfold ucs_leb, cell_leb. cbn [fst snd].
    rewrite !orb_true_iff, !andb_true_iff, !orb_true_iff, !andb_true_iff.
    rewrite !Z.ltb_lt, !Z.eqb_eq, !Z.leb_le. lia.
Defined.

Definition astar_list_heap : heapq astar_item astar_le.
Proof.
  apply (list_heapq astar_leb).
  - intros [[a0 a1] [a2 a3]] [[b0 b1] [b2 b3]]. unfold astar_leb, cell_leb. cbn [fst snd].
    rewrite !orb_false_iff, !andb_false_iff, !orb_false_iff, !andb_false_iff,
      !orb_false_iff, !andb_false_iff.
    rewrite !orb_true_iff, !andb_true_iff, !orb_true_iff, !andb_true_iff,
      !orb_true_iff, !andb_true_iff.
    rewrite !Z.ltb_ge, !Z.ltb_lt, !Z.eqb_eq, !Z.eqb_neq, !Z.leb_le, !Z.leb_gt. lia.
  - intros [[a0 a1] [a2 a3]] [[b0 b1] [b2 b3]] [[c0 c1] [c2 c3]].
    unfold astar_leb, cell_leb. cbn [fst snd].
    rewrite !orb_true_iff, !andb_true_iff, !orb_true_iff, !andb_true_iff,
      !orb_true_iff, !andb_true_iff.
    rewrite !Z.ltb_lt, !Z.eqb_eq, !Z.leb_le. lia.
Defined.

(** An item of either heap, read as [(f, g, node)]: the priority, the cost
    of the node when it was pushed, the node. *)
Definition view : Type := (Z * Z * cell)%type.

(** Every legal move from [x] leads to a cell whose recorded cost is at most
    one more than [gx]. *)
Definition relaxed (walls : list cell) (G : dict Z) (x : cell) (gx : Z) : Prop :=
  forall y, grid_step walls x y -> exists gy, dict_get G y = Some gy /\ gy <= gx + 1.

(** Cells of the grid without a recorded cost. *)
Definition undiscovered (G : dict Z) : nat :=
  List.length
    (filter (fun c => match dict_get G c with None => true | Some _ => false end) all_cells).

(** What the recorded costs can still lose: their sum over the grid, a cell
    without cost counting for 561. *)
Definition potential (G : dict Z) : nat :=
  list_sum
    (map (fun c => match dict_get G c with Some g => Z.to_nat g | None => 561%nat end)
       all_cells).

(** What [ucs] and [astar] keep from one iteration of [while frontier:] to
    the next.  [Q] are the items of the heap, [G] the recorded costs
    ([cost_so_far], [g_score]), [CF] is [came_from], [h] the heuristic
    towards the goal. *)
Record best_inv (h : cell -> Z) (start goal : cell) (walls : list cell)
  (Q : list view) (G : dict Z) (CF : dict cell) (explored : list cell) : Prop := {
  bf_start : dict_get G start = Some 0 /\ dict_get CF start = None;
  bf_link : forall n p, dict_get CF n = Some p ->
    grid_step walls p n /\
    exists gn gp, dict_get G n = Some gn /\ dict_get G p = Some gp /\ gp < gn;
  bf_dom : forall n gn, dict_get G n = Some gn ->
    0 <= gn /\ (n = start \/ dict_get CF n <> None);
  bf_bound : forall n gn, dict_get G n = Some gn -> gn + Z.of_nat (undiscovered G) <= 560;
  bf_heap : forall f g n, In (f, g, n) Q ->
    f = g + h n /\ exists gn, dict_get G n = Some gn /\ gn <= g;
  bf_settled : forall x gx, dict_get G x = Some gx ->
    In (gx + h x, gx, x) Q \/ (set_mem x explored = true /\ relaxed walls G x gx);
  bf_goal : set_mem goal explored = false
}.

(** The same while the neighbours of [current] are gone through, [seen]
    being those already handled. *)
Record relax_inv (h : cell -> Z) (start goal : cell) (walls : list cell)
  (current : cell) (gc : Z) (seen : list cell)
  (Q : list view) (G : dict Z) (CF : dict cell) (explored : list cell) : Prop := {
  rx_start : dict_get G start = Some 0 /\ dict_get CF start = None;
  rx_link : forall n p, dict_get CF n = Some p ->
    grid_step walls p n /\
    exists gn gp, dict_get G n = Some gn /\ dict_get G p = Some gp /\ gp < gn;
  rx_dom : forall n gn, dict_get G n = Some gn ->
    0 <= gn /\ (n = start \/ dict_get CF n <> None);
  rx_bound : forall n gn, dict_get G n = Some gn -> gn + Z.of_nat (undiscovered G) <= 560;
  rx_heap : forall f g n, In (f, g, n) Q ->
    f = g + h n /\ exists gn, dict_get G n = Some gn /\ gn <= g;
  rx_settled : forall x gx, x <> current -> dict_get G x = Some gx ->
    In (gx + h x, gx, x) Q \/ (set_mem x explored = true /\ relaxed walls G x gx);
  rx_goal : set_mem goal explored = false;
  rx_current : dict_get G current = Some gc /\ set_mem current explored = true;
  rx_seen : forall y, In y seen -> set_mem y walls = false ->
    exists gy, dict_get G y = Some gy /\ gy <= gc + 1
}.

Definition is_cost_searching (ev : cost_event) : Prop :=
  match ev with
  | CostSearching _ _ _ _ => True
  | _ => False
  end.

(** What [ucs] and [astar] yield on the whole: ['searching'] states, then
    either ['found'] with a path of legal moves from [start] to [goal] that
    no other such path undercuts, and with the number of its moves as
    [cost]; or ['no_path'], when no such path exists. *)
Definition cost_result (start goal : cell) (walls : list cell) (evs : list cost_event)
  : Prop :=
  exists pre fin,
    evs = pre ++ [fin] /\ Forall is_cost_searching pre /\
    ((exists path cost,
        fin = CostFound path cost /\
        valid_path start goal walls path /\
        cost = Z.of_nat (List.length path) - 1 /\
        forall other, valid_path start goal walls other ->
          (List.length path <= List.length other)%nat) \/
     (fin = CostNoPath /\ ~ reachable start walls goal)).

(** The items of the two heaps as [(f, g, node)]. *)
Definition ucs_view (it : ucs_item) : view := (fst it, fst it, snd it).

End GridVocabulary.

(* ------------------------------------------------------------------ *)
(** ** [traverse.py]

    The adjacency dict is the list of its entries, [graph[node]] the first
    entry with that key ([KeyError] when there is none).  The [visited] set
    is a list, used through membership only.  [print] appends a line to the
    output, which outlives a raised exception: a call is modelled by how it
    ends, the [visited] set it leaves and what has been printed. *)

Module Traverse.

Definition adjacency : Type := list (string * list string).

Fixpoint lookup (graph : adjacency) (node : string) : option (list string) :=
  match graph with
  | [] => None
  | (k, nbrs) :: rest => if String.eqb node k then Some nbrs else lookup rest node
  end.

Definition graph : adjacency :=
  [("A", ["B"; "C"]);
   ("B", ["D"; "E"]);
   ("C", ["F"]);
   ("D", []);
   ("E", ["F"]);
   ("F", [])].

Definition mem (x : string) (s : list string) : bool := existsb (String.eqb x) s.

(** How a call ends: it returns, raises [KeyError], or is cut for lack of
    fuel (nested calls of [dfs], iterations of the loop of [bfs]). *)
Inductive status : Type :=
| Returned
| KeyError (key : string)
| NoFuel.

Definition run : Type := (status * list string * list string)%type.

(** The [for neighbor in graph[node]] loop of [dfs]; [call] is the
    recursive call, on the shared [visited] set. *)
Fixpoint dfs_for (call : string -> list string -> list string -> run)
  (nbrs : list string) (visited out : list string) : run :=
  match nbrs with
  | [] => (Returned, visited, out)
  | neighbor :: rest =>
      if mem neighbor visited then dfs_for call rest visited out
      else
        match call neighbor visited out with
        | (Returned, visited, out) => dfs_for call rest visited out
        | stopped => stopped
        end
  end.

Fixpoint dfs (fuel : nat) (graph : adjacency) (node : string)
  (visited : option (list string)) (out : list string) : run :=
  match fuel with
  | O => (NoFuel, match visited with Some v => v | None => [] end, out)
  | S fuel' =>
      let visited := match visited with Some v => v | None => [] end in
      let visited := node :: visited in
      let out := out ++ [node] in
      match lookup graph node with
      | None => (KeyError node, visited, out)
      | Some nbrs =>
          dfs_for (fun n v o => dfs fuel' graph n (Some v) o) nbrs visited out
      end
  end.

(** The [while queue:] loop of [bfs]. *)
Fixpoint bfs_loop (fuel : nat) (graph : adjacency)
  (queue visited out : list string) : run :=
  match fuel with
  | O => (NoFuel, visited, out)
  | S fuel' =>
      match queue with
      | [] => (Returned, visited, out)
      | node :: queue =>
          if mem node visited then bfs_loop fuel' graph queue visited out
          else
            let visited := node :: visited in
            let out := out ++ [node] in
            match lookup graph node with
            | None => (KeyError node, visited, out)
            | Some nbrs =>
                bfs_loop fuel' graph
                  (queue ++ filter (fun neighbor => negb (mem neighbor visited)) nbrs)
                  visited out
            end
      end
  end.

Definition bfs (fuel : nat) (graph : adjacency) (start : string) (out : list string) : run :=
  bfs_loop fuel graph [start] [] out.

(** The statements at the end of the file: what running it prints. *)
Definition newline : string := String (Ascii.ascii_of_nat 10) EmptyString.

Definition script (fuel : nat) : status * list string :=
  let out := ["DFS:"] in
  match dfs fuel graph "A" None out with
  | (Returned, _, out) =>
      let out := out ++ [String.append newline "BFS:"] in
      let '(st, _, out) := bfs fuel graph "A" out in
      (st, out)
  | (stopped, _, out) => (stopped, out)
  end.

End Traverse.

(* ------------------------------------------------------------------ *)
(** ** Vocabulary for the traversals *)

Section TraverseVocabulary.
Import Traverse.

(** An edge of the adjacency dict, and what edges reach. *)
Definition edge (graph : adjacency) (a b : string) : Prop :=
  exists nbrs, lookup graph a = Some nbrs /\ In b nbrs.

Inductive reaches (graph : adjacency) (a : string) : string -> Prop :=
| reaches_refl : reaches graph a a
| reaches_step x y : reaches graph a x -> edge graph x y -> reaches graph a y.

(** Entries of the dict whose key is not in [visited]. *)
Definition pending (graph : adjacency) (visited : list string) : nat :=
  List.length (filter (fun e => negb (mem (fst e) visited)) graph).

(** What a call [dfs(graph, node, visited)] with [node] not yet visited
    does: it prints the cells [added], which it also adds to [visited];
    they are new, distinct and reachable from [node]; when it returns, they
    start with [node], all have an entry, and all their neighbours are
    visited; when it raises, the key is the last one printed. *)
Definition dfs_post (graph : adjacency) (limit : nat) (roots : list string)
  (visited out : list string) (r : run) (added : list string) : Prop :=
  let '(st, visited', out') := r in
  out' = out ++ added /\
  visited' = rev added ++ visited /\
  NoDup added /\
  (forall x, In x added -> ~ In x visited) /\
  (forall x, In x added -> exists n, In n roots /\ reaches graph n x) /\
  match st with
  | Returned =>
      (forall n, In n roots -> In n visited') /\
      (forall x, In x added ->
         exists nbrs, lookup graph x = Some nbrs /\ forall y, In y nbrs -> In y visited')
  | KeyError k => lookup graph k = None /\ exists pre, added = pre ++ [k]
  | NoFuel => (limit <= pending graph visited)%nat
  end.

(** Number of neighbours listed in the entries of [graph] whose key
    satisfies [keep]. *)
Fixpoint degree_sum (keep : string -> bool) (graph : adjacency) : nat :=
  match graph with
  | [] => O
  | (k, nbrs) :: rest =>
      ((if keep k then List.length nbrs else O) + degree_sum keep rest)%nat
  end.

(** What the loop of [bfs] still has to do: the queue, and the neighbours of
    the keys not yet visited. *)
Definition backlog (graph : adjacency) (queue visited : list string) : nat :=
  (List.length queue + degree_sum (fun k => negb (mem k visited)) graph)%nat.

(** Number of neighbours listed in [graph], over all its entries. *)
Definition edge_count (graph : adjacency) : nat := degree_sum (fun _ => true) graph.

(** What the loop of [bfs] relies on and keeps, with [printed] what it has
    printed so far. *)
Record bfs_state (graph : adjacency) (start : string)
  (queue visited printed : list string) : Prop := {
  bs_visited : visited = rev printed;
  bs_nodup : NoDup printed;
  bs_start : In start printed \/ In start queue;
  bs_printed : forall x, In x printed -> reaches graph start x;
  bs_queue : forall x, In x queue -> reaches graph start x;
  bs_closed : forall x, In x printed ->
    exists nbrs, lookup graph x = Some nbrs /\
      forall y, In y nbrs -> In y printed \/ In y queue
}.

Definition bfs_post (graph : adjacency) (start : string) (fuel : nat)
  (queue visited out0 before : list string) (r : run) : Prop :=
  let '(st, visited', out') := r in
  exists printed,
    (exists more, printed = before ++ more) /\
    out' = out0 ++ printed /\
    visited' = rev printed /\
    NoDup printed /\
    (forall x, In x printed -> reaches graph start x) /\
    match st with
    | Returned =>
        In start printed /\
        forall x, In x printed ->
          exists nbrs, lookup graph x = Some nbrs /\ forall y, In y nbrs -> In y printed
    | KeyError key => lookup graph key = None /\ exists pre, printed = pre ++ [key]
    | NoFuel => (fuel <= backlog graph queue visited)%nat
    end.

(** A walk of [n] edges. *)
Inductive walk (graph : adjacency) (a : string) : string -> nat -> Prop :=
| walk_here : walk graph a a O
| walk_step x y n : walk graph a x n -> edge graph x y -> walk graph a y (S n).

Definition by_level (a b : string * nat) : Prop := (snd a <= snd b)%nat.

(** The queue and the printed nodes of [bfs], each node with the length of
    the walk that brought it there. *)
Record bfs_levels (graph : adjacency) (start : string)
  (tq tp : list (string * nat)) : Prop := {
  bl_queue_sorted : StronglySorted by_level tq;
  bl_window : forall a b, In a tq -> In b tq -> (snd b <= snd a + 1)%nat;
  bl_printed_sorted : StronglySorted by_level tp;
  bl_printed_low : forall a b, In a tp -> In b tq -> (snd a <= snd b)%nat;
  bl_walk_queue : forall x d, In (x, d) tq -> walk graph start x d;
  bl_walk_printed : forall x d, In (x, d) tp -> walk graph start x d;
  bl_least : forall x d, In (x, d) tp -> forall n, walk graph start x n -> (d <= n)%nat;
  bl_closed : forall x d, In (x, d) tp -> forall z, edge graph x z ->
    exists d', (d' <= d + 1)%nat /\ (In (z, d') tp \/ In (z, d') tq);
  bl_start : In (start, O) tp \/ In (start, O) tq
}.

End TraverseVocabulary.

(* ------------------------------------------------------------------ *)
(** * Properties *)

(** ** The order on scores *)

Ltac vfin :=
  repeat match goal with
    | H : Fin _ = Fin _ |- _ => injection H as H
    end;
  try congruence; try lia; try (f_equal; lia).

Ltac vorder :=
  unfold bracket, vlt, vle, vgeb, vleb, vgtb, py_max, py_min in *;
  repeat (match goal with v : value |- _ => destruct v end;
          simpl in *; try discriminate);
  repeat match goal with
    | H : context [Z.ltb ?a ?b] |- _ => destruct (Z.ltb_spec a b); simpl in H
    | |- context [Z.ltb ?a ?b] => destruct (Z.ltb_spec a b); simpl
    end;
  try solve [ vfin | intuition vfin ].

Lemma vltb_irrefl (a : value) : vltb a a = false.
Proof. vorder. Qed.

Lemma py_max_NegInf_r (a : value) : py_max a NegInf = a.
Proof. vorder. Qed.

Lemma py_max_NegInf_l (a : value) : py_max NegInf a = a.
Proof. vorder. Qed.

Lemma vltb_PosInf_l (a : value) : vltb PosInf a = false.
Proof. reflexivity. Qed.

Lemma vltb_NegInf_r (a : value) : vltb a NegInf = false.
Proof. vorder. Qed.

(** ** The demonstration game *)

Lemma py_range_In (lo hi x : Z) : In x (py_range lo hi) <-> lo <= x < hi.
Proof.
  unfold py_range. rewrite in_map_iff. split.
  - intros [i [<- Hi]]. apply in_seq in Hi. lia.
  - intros H. exists (Z.to_nat (x - lo)). split; [lia|].
    apply in_seq. lia.
Qed.

Lemma nim_actions_In (max_take : Z) (tokens : Z) (p : string) (a : Z) :
  In a (actions (NimGame max_take) (tokens, p)) <-> 1 <= a <= Z.min max_take tokens.
Proof. simpl. rewrite py_range_In. lia. Qed.

Lemma nim_conforming (max_take : Z) :
  1 <= max_take -> conforming (NimGame max_take) nim_valid nim_rank.
Proof.
  intros Hmt. split.
  - intros [t p] a Hv Ht Ha. apply nim_actions_In in Ha.
    unfold nim_valid in *. simpl in *. lia.
  - intros [t p] a Hv Ht Ha. apply nim_actions_In in Ha.
    unfold nim_valid, nim_rank in *. simpl in *. lia.
  - intros [t p] q Hv Ht. simpl in *. rewrite Ht. simpl.
    destruct (String.eqb _ q); eauto.
  - intros [t p] Hv Ht. simpl in *. apply Z.eqb_eq in Ht. subst t.
    replace (Z.min max_take 0 + 1) with 1 by lia. reflexivity.
  - intros [t p] Hv Ht Hnil. simpl in Ht. apply Z.eqb_neq in Ht.
    assert (Hin : In 1 (actions (NimGame max_take) (t, p))).
    { apply nim_actions_In. unfold nim_valid in Hv. simpl in Hv. lia. }
    rewrite Hnil in Hin. destruct Hin.
Qed.

Lemma nim_finite_tree (max_take : Z) : finite_tree (NimGame max_take) nim_valid nim_rank.
Proof.
  split.
  - intros [t p] a Hv Ht Ha. apply nim_actions_In in Ha.
    unfold nim_valid in *. simpl in *. lia.
  - intros [t p] a Hv Ht Ha. apply nim_actions_In in Ha.
    unfold nim_valid, nim_rank in *. simpl in *. lia.
  - intros [t p] q Hv Ht. simpl in *. rewrite Ht. simpl. eauto.
  - intros [t p] Hv Ht. simpl in *. apply Z.eqb_eq in Ht. subst t.
    destruct (Z.min_spec max_take 0) as [[Hlt ->] | [_ ->]].
    + unfold py_range.
      replace (Z.to_nat (max_take + 1 - 1)) with O by lia. reflexivity.
    + reflexivity.
Qed.

Lemma nim_no_moves (max_take : Z) (s : nim_state) :
  max_take < 1 -> nim_valid s -> actions (NimGame max_take) s = [].
Proof.
  destruct s as [t p]. unfold nim_valid. simpl. intros Hmt Hv.
  unfold py_range. replace (Z.to_nat (Z.min max_take t + 1 - 1)) with O by lia.
  reflexivity.
Qed.

(** C4.  In the demonstration game [utility] raises the invalid-state error
    ([ValueError]) on every state whose token count is not zero, whoever the
    player is, and returns a score on every state whose token count is zero. *)
Theorem nim_utility_terminal_only (max_take tokens : Z) (to_move player : string) :
  (tokens <> 0 ->
     is_terminal (NimGame max_take) (tokens, to_move) = false /\
     utility (NimGame max_take) (tokens, to_move) player = Raise ValueError) /\
  (tokens = 0 ->
     is_terminal (NimGame max_take) (tokens, to_move) = true /\
     exists u, utility (NimGame max_take) (tokens, to_move) player = Ok u).
Proof.
  simpl. split; intros H.
  - apply Z.eqb_neq in H. rewrite H. auto.
  - subst tokens. simpl. eauto.
Qed.

Lemma nim_utility_terminal_only_witness :
  (is_terminal (NimGame 3) (7, "A") = false /\
   utility (NimGame 3) (7, "A") "A" = Raise ValueError) /\
  (is_terminal (NimGame 3) (0, "B") = true /\
   exists u, utility (NimGame 3) (0, "B") "A" = Ok u).
Proof.
  split.
  - apply (nim_utility_terminal_only 3 7 "A" "A"). lia.
  - apply (nim_utility_terminal_only 3 0 "B" "A"). reflexivity.
Defined.

(** C9.  On a terminal state of the demonstration game the utilities of the
    players A and B are each other's negation, and every utility is 1 or -1. *)
Theorem nim_zero_sum (max_take : Z) (s : nim_state) :
  is_terminal (NimGame max_take) s = true ->
  (exists u,
      utility (NimGame max_take) s "A" = Ok u /\
      utility (NimGame max_take) s "B" = Ok (vneg u)) /\
  (forall player,
      utility (NimGame max_take) s player = Ok (Fin 1) \/
      utility (NimGame max_take) s player = Ok (Fin (-1))).
Proof.
  destruct s as [t p]. simpl. intros Ht. rewrite Ht. simpl. split.
  - destruct (String.eqb p "A"); simpl; eexists; split; reflexivity.
  - intros q. destruct (String.eqb _ q); auto.
Qed.

Lemma nim_zero_sum_witness :
  (exists u,
      utility (NimGame 3) (0, "B") "A" = Ok u /\
      utility (NimGame 3) (0, "B") "B" = Ok (vneg u)) /\
  (forall player,
      utility (NimGame 3) (0, "B") player = Ok (Fin 1) \/
      utility (NimGame 3) (0, "B") player = Ok (Fin (-1))).
Proof. apply (nim_zero_sum 3 (0, "B")). reflexivity. Defined.

(* ------------------------------------------------------------------ *)
(** ** Fuel

    A call that returns with some fuel returns the same with more: the fuel
    only cuts recursion that is too deep. *)

Section Fuel.
Context {State Action Player : Type}.
Variable game : Game State Action Player.
Variable player : Player.

Lemma ab_max_value_S n s alpha beta :
  AlphaBeta.max_value game (S n) s player alpha beta =
  if is_terminal game s then obind (utility game s player) (fun u => Ok (u, None))
  else AlphaBeta.max_loop game (fun st a b => AlphaBeta.min_value game n st player a b)
         s beta (actions game s) NegInf None alpha.
Proof. reflexivity. Qed.

Lemma ab_min_value_S n s alpha beta :
  AlphaBeta.min_value game (S n) s player alpha beta =
  if is_terminal game s then obind (utility game s player) (fun u => Ok (u, None))
  else AlphaBeta.min_loop game (fun st a b => AlphaBeta.max_value game n st player a b)
         s alpha (actions game s) PosInf None beta.
Proof. reflexivity. Qed.

Lemma ab_max_loop_mono f f' :
  (forall st a b r, f st a b = Ok r -> f' st a b = Ok r) ->
  forall s beta acts v bm alpha r,
    AlphaBeta.max_loop game f s beta acts v bm alpha = Ok r ->
    AlphaBeta.max_loop game f' s beta acts v bm alpha = Ok r.
Proof.
  intros Hf s beta acts. induction acts as [|a rest IH]; simpl; intros v bm alpha r H.
  - exact H.
  - destruct (f (result game s a) alpha beta) as [x| |] eqn:E; simpl in H; try discriminate.
    rewrite (Hf _ _ _ _ E). simpl.
    destruct (vgtb (fst x) v); destruct (vgeb _ beta); auto.
Qed.

Lemma ab_min_loop_mono f f' :
  (forall st a b r, f st a b = Ok r -> f' st a b = Ok r) ->
  forall s alpha acts v bm beta r,
    AlphaBeta.min_loop game f s alpha acts v bm beta = Ok r ->
    AlphaBeta.min_loop game f' s alpha acts v bm beta = Ok r.
Proof.
  intros Hf s alpha acts. induction acts as [|a rest IH]; simpl; intros v bm beta r H.
  - exact H.
  - destruct (f (result game s a) alpha beta) as [x| |] eqn:E; simpl in H; try discriminate.
    rewrite (Hf _ _ _ _ E). simpl.
    destruct (vltb (fst x) v); destruct (vleb _ alpha); auto.
Qed.

Lemma ab_fuel_S n :
  forall s alpha beta r,
    (AlphaBeta.max_value game n s player alpha beta = Ok r ->
     AlphaBeta.max_value game (S n) s player alpha beta = Ok r) /\
    (AlphaBeta.min_value game n s player alpha beta = Ok r ->
     AlphaBeta.min_value game (S n) s player alpha beta = Ok r).
Proof.
  induction n as [|n IH]; intros s alpha beta r.
  - split; intros H; discriminate H.
  - split; intros H.
    + rewrite ab_max_value_S in *. destruct (is_terminal game s); [exact H|].
      revert H. apply ab_max_loop_mono. intros st a b r0. apply IH.
    + rewrite ab_min_value_S in *. destruct (is_terminal game s); [exact H|].
      revert H. apply ab_min_loop_mono. intros st a b r0. apply IH.
Qed.

Lemma ab_max_fuel_le n m s alpha beta r :
  (n <= m)%nat ->
  AlphaBeta.max_value game n s player alpha beta = Ok r ->
  AlphaBeta.max_value game m s player alpha beta = Ok r.
Proof.
  induction 1 as [|m Hle IH]; intros H; [exact H|].
  apply ab_fuel_S. auto.
Qed.

(** The unpruned search, without an adversary. *)

Lemma mm_max_value_S adv n s :
  Minimax.max_value game player adv (S n) s =
  if is_terminal game s then Minimax.lift (utility game s player)
  else Minimax.max_loop game (fun st => Minimax.min_value game player adv n st)
         s (actions game s) NegInf.
Proof. reflexivity. Qed.

Lemma mm_min_value_S_None n s :
  Minimax.min_value game player None (S n) s =
  if is_terminal game s then Minimax.lift (utility game s player)
  else Minimax.min_loop game (fun st => Minimax.max_value game player None n st)
         s (actions game s) PosInf.
Proof. reflexivity. Qed.

Lemma mm_min_value_S_Some adv n s :
  Minimax.min_value game player (Some adv) (S n) s =
  if is_terminal game s then Minimax.lift (utility game s player)
  else
    Minimax.mbind
      (Minimax.choose_action adv s (actions game s) game
         (fun st => Minimax.max_value game player (Some adv) n st) (to_move game s))
      (fun chosen =>
         Minimax.mbind (Minimax.lift (py_result game s chosen))
           (fun s' => Minimax.max_value game player (Some adv) n s')).
Proof. reflexivity. Qed.

Lemma mm_max_loop_mono (f f' : State -> Minimax.M value) :
  (forall st g r, f st g = Ok r -> f' st g = Ok r) ->
  forall s acts v g r,
    Minimax.max_loop game f s acts v g = Ok r ->
    Minimax.max_loop game f' s acts v g = Ok r.
Proof.
  intros Hf s acts. induction acts as [|a rest IH]; simpl; intros v g r H.
  - exact H.
  - unfold Minimax.mbind in *.
    destruct (f (result game s a) g) as [[x g1]| |] eqn:E; try discriminate.
    rewrite (Hf _ _ _ E). auto.
Qed.

Lemma mm_min_loop_mono (f f' : State -> Minimax.M value) :
  (forall st g r, f st g = Ok r -> f' st g = Ok r) ->
  forall s acts v g r,
    Minimax.min_loop game f s acts v g = Ok r ->
    Minimax.min_loop game f' s acts v g = Ok r.
Proof.
  intros Hf s acts. induction acts as [|a rest IH]; simpl; intros v g r H.
  - exact H.
  - unfold Minimax.mbind in *.
    destruct (f (result game s a) g) as [[x g1]| |] eqn:E; try discriminate.
    rewrite (Hf _ _ _ E). auto.
Qed.

Lemma mm_decision_loop_mono (f f' : State -> Minimax.M value) :
  (forall st g r, f st g = Ok r -> f' st g = Ok r) ->
  forall s acts ba bv g r,
    Minimax.decision_loop game f s acts ba bv g = Ok r ->
    Minimax.decision_loop game f' s acts ba bv g = Ok r.
Proof.
  intros Hf s acts. induction acts as [|a rest IH]; simpl; intros ba bv g r H.
  - exact H.
  - unfold Minimax.mbind in *.
    destruct (f (result game s a) g) as [[x g1]| |] eqn:E; try discriminate.
    rewrite (Hf _ _ _ E). destruct (vgtb x bv); auto.
Qed.

Lemma mm_fuel_S n :
  forall s g r,
    (Minimax.max_value game player None n s g = Ok r ->
     Minimax.max_value game player None (S n) s g = Ok r) /\
    (Minimax.min_value game player None n s g = Ok r ->
     Minimax.min_value game player None (S n) s g = Ok r).
Proof.
  induction n as [|n IH]; intros s g r.
  - split; intros H; discriminate H.
  - split; intros H.
    + rewrite mm_max_value_S in *. destruct (is_terminal game s); [exact H|].
      revert H. apply mm_max_loop_mono. intros st g0 r0. apply IH.
    + rewrite mm_min_value_S_None in *. destruct (is_terminal game s); [exact H|].
      revert H. apply mm_min_loop_mono. intros st g0 r0. apply IH.
Qed.

Lemma mm_max_fuel_le n m s g r :
  (n <= m)%nat ->
  Minimax.max_value game player None n s g = Ok r ->
  Minimax.max_value game player None m s g = Ok r.
Proof.
  induction 1 as [|m Hle IH]; intros H; [exact H|].
  apply mm_fuel_S. auto.
Qed.

Lemma mm_min_fuel_le n m s g r :
  (n <= m)%nat ->
  Minimax.min_value game player None n s g = Ok r ->
  Minimax.min_value game player None m s g = Ok r.
Proof.
  induction 1 as [|m Hle IH]; intros H; [exact H|].
  apply mm_fuel_S. auto.
Qed.

Lemma mm_root_fuel_le n m s g r :
  (n <= m)%nat ->
  Minimax.minimax_root game player None n s g = Ok r ->
  Minimax.minimax_root game player None m s g = Ok r.
Proof.
  intros Hle. unfold Minimax.minimax_root. apply mm_decision_loop_mono.
  intros st g0 r0. apply mm_min_fuel_le. exact Hle.
Qed.

End Fuel.

(* ------------------------------------------------------------------ *)
(** ** Pruning against the unpruned sweep *)

Section Pruning.
Context {State Action Player : Type}.
Variable game : Game State Action Player.
Variable player : Player.

Lemma mm_max_loop_ge (f : State -> Minimax.M value) s acts :
  forall v g T g',
    Minimax.max_loop game f s acts v g = Ok (T, g') -> vle v T.
Proof.
  induction acts as [|a rest IH]; simpl; intros v g T g' H.
  - inversion H; subst. apply vltb_irrefl.
  - unfold Minimax.mbind in H.
    destruct (f (result game s a) g) as [[x g1]| |]; try discriminate.
    apply IH in H. clear - H. vorder.
Qed.

Lemma mm_min_loop_le (f : State -> Minimax.M value) s acts :
  forall v g T g',
    Minimax.min_loop game f s acts v g = Ok (T, g') -> vle T v.
Proof.
  induction acts as [|a rest IH]; simpl; intros v g T g' H.
  - inversion H; subst. apply vltb_irrefl.
  - unfold Minimax.mbind in H.
    destruct (f (result game s a) g) as [[x g1]| |]; try discriminate.
    apply IH in H. clear - H. vorder.
Qed.

(** Pure facts about the order used by the loop invariants. *)

Lemma window_max alpha beta v : vlt alpha beta -> vlt v beta -> vlt (py_max alpha v) beta.
Proof. vorder. Qed.

Lemma window_min alpha beta v : vlt alpha beta -> vlt alpha v -> vlt alpha (py_min beta v).
Proof. vorder. Qed.

Lemma py_max_absorb alpha v r : vle v r -> py_max (py_max alpha v) r = py_max alpha r.
Proof. vorder. Qed.

Lemma py_min_absorb beta v r : vle r v -> py_min (py_min beta v) r = py_min beta r.
Proof. vorder. Qed.

Lemma max_cut alpha0 beta v r t vt T :
  vlt alpha0 beta -> vlt v beta ->
  bracket (py_max alpha0 v) beta r t ->
  vgeb r beta = true -> vle (py_max vt t) T ->
  bracket alpha0 beta r T.
Proof. vorder. Qed.

Lemma max_keep_new alpha0 beta v r t vt :
  vlt alpha0 beta -> vlt v beta ->
  (vle v alpha0 -> vle vt v) -> (vlt alpha0 v -> vt = v) ->
  bracket (py_max alpha0 v) beta r t ->
  vgtb r v = true -> vgeb r beta = false ->
  vlt r beta /\
  (vle r alpha0 -> vle (py_max vt t) r) /\
  (vlt alpha0 r -> py_max vt t = r).
Proof. vorder. Qed.

Lemma max_keep_old alpha0 beta v r t vt :
  vlt alpha0 beta -> vlt v beta ->
  (vle v alpha0 -> vle vt v) -> (vlt alpha0 v -> vt = v) ->
  bracket (py_max alpha0 v) beta r t ->
  vgtb r v = false ->
  vgeb v beta = false /\
  (vle v alpha0 -> vle (py_max vt t) v) /\
  (vlt alpha0 v -> py_max vt t = v).
Proof. vorder. Qed.

Lemma max_done alpha0 beta v vt :
  vlt v beta ->
  (vle v alpha0 -> vle vt v) -> (vlt alpha0 v -> vt = v) ->
  bracket alpha0 beta v vt.
Proof. vorder. Qed.

Lemma min_cut alpha beta0 v r t vt T :
  vlt alpha beta0 -> vlt alpha v ->
  bracket alpha (py_min beta0 v) r t ->
  vleb r alpha = true -> vle T (py_min vt t) ->
  bracket alpha beta0 r T.
Proof. vorder. Qed.

Lemma min_keep_new alpha beta0 v r t vt :
  vlt alpha beta0 -> vlt alpha v ->
  (vle beta0 v -> vle v vt) -> (vlt v beta0 -> vt = v) ->
  bracket alpha (py_min beta0 v) r t ->
  vltb r v = true -> vleb r alpha = false ->
  vlt alpha r /\
  (vle beta0 r -> vle r (py_min vt t)) /\
  (vlt r beta0 -> py_min vt t = r).
Proof. vorder. Qed.

Lemma min_keep_old alpha beta0 v r t vt :
  vlt alpha beta0 -> vlt alpha v ->
  (vle beta0 v -> vle v vt) -> (vlt v beta0 -> vt = v) ->
  bracket alpha (py_min beta0 v) r t ->
  vltb r v = false ->
  vleb v alpha = false /\
  (vle beta0 v -> vle v (py_min vt t)) /\
  (vlt v beta0 -> py_min vt t = v).
Proof. vorder. Qed.

Lemma min_done alpha beta0 v vt :
  vlt alpha v ->
  (vle beta0 v -> vle v vt) -> (vlt v beta0 -> vt = v) ->
  bracket alpha beta0 v vt.
Proof. vorder. Qed.

Lemma ab_max_loop_bracket fAB fMM :
  prunes fAB fMM ->
  forall s beta alpha0 acts v bm vt g T g',
    vlt alpha0 beta -> vlt v beta ->
    (vle v alpha0 -> vle vt v) -> (vlt alpha0 v -> vt = v) ->
    Minimax.max_loop game fMM s acts vt g = Ok (T, g') ->
    exists r m,
      AlphaBeta.max_loop game fAB s beta acts v bm (py_max alpha0 v) = Ok (r, m) /\
      bracket alpha0 beta r T.
Proof.
  intros Hchild s beta alpha0 acts.
  induction acts as [|a rest IH]; simpl; intros v bm vt g T g' Hw Hv H1 H2 H.
  - inversion H; subst. exists v, bm. split; [reflexivity|].
    apply max_done; assumption.
  - unfold Minimax.mbind in H.
    destruct (fMM (result game s a) g) as [[t g1]| |] eqn:E; try discriminate.
    destruct (Hchild _ (py_max alpha0 v) beta _ _ _ (window_max _ _ _ Hw Hv) E)
      as (r & m & Hr & Hb).
    rewrite Hr. simpl.
    destruct (vgtb r v) eqn:Hgt.
    + destruct (vgeb r beta) eqn:Hge.
      * exists r, (Some a). split; [reflexivity|].
        apply mm_max_loop_ge in H.
        eapply max_cut; eauto.
      * destruct (max_keep_new _ _ _ _ _ _ Hw Hv H1 H2 Hb Hgt Hge) as (A & B & C).
        rewrite py_max_absorb by (clear - Hgt; vorder).
        eapply IH; eauto.
    + destruct (max_keep_old _ _ _ _ _ _ Hw Hv H1 H2 Hb Hgt) as (A & B & C).
      rewrite A.
      rewrite py_max_absorb by apply vltb_irrefl.
      eapply IH; eauto.
Qed.

Lemma ab_min_loop_bracket fAB fMM :
  prunes fAB fMM ->
  forall s alpha beta0 acts v bm vt g T g',
    vlt alpha beta0 -> vlt alpha v ->
    (vle beta0 v -> vle v vt) -> (vlt v beta0 -> vt = v) ->
    Minimax.min_loop game fMM s acts vt g = Ok (T, g') ->
    exists r m,
      AlphaBeta.min_loop game fAB s alpha acts v bm (py_min beta0 v) = Ok (r, m) /\
      bracket alpha beta0 r T.
Proof.
  intros Hchild s alpha beta0 acts.
  induction acts as [|a rest IH]; simpl; intros v bm vt g T g' Hw Hv H1 H2 H.
  - inversion H; subst. exists v, bm. split; [reflexivity|].
    apply min_done; assumption.
  - unfold Minimax.mbind in H.
    destruct (fMM (result game s a) g) as [[t g1]| |] eqn:E; try discriminate.
    destruct (Hchild _ alpha (py_min beta0 v) _ _ _ (window_min _ _ _ Hw Hv) E)
      as (r & m & Hr & Hb).
    rewrite Hr. simpl.
    destruct (vltb r v) eqn:Hgt.
    + destruct (vleb r alpha) eqn:Hge.
      * exists r, (Some a). split; [reflexivity|].
        apply mm_min_loop_le in H.
        eapply min_cut; eauto.
      * destruct (min_keep_new _ _ _ _ _ _ Hw Hv H1 H2 Hb Hgt Hge) as (A & B & C).
        rewrite py_min_absorb by (clear - Hgt; vorder).
        eapply IH; eauto.
    + destruct (min_keep_old _ _ _ _ _ _ Hw Hv H1 H2 Hb Hgt) as (A & B & C).
      rewrite A.
      rewrite py_min_absorb by apply vltb_irrefl.
      eapply IH; eauto.
Qed.

Lemma py_min_PosInf_l v : py_min PosInf v = v.
Proof. vorder. Qed.

Lemma ab_prunes n :
  prunes (fun st a b => AlphaBeta.max_value game n st player a b)
         (fun st => Minimax.max_value game player None n st) /\
  prunes (fun st a b => AlphaBeta.min_value game n st player a b)
         (fun st => Minimax.min_value game player None n st).
Proof.
  induction n as [|n [IHmax IHmin]].
  - split; intros st alpha beta g t g' _ H; discriminate H.
  - split; intros st alpha beta g t g' Hw H.
    + rewrite mm_max_value_S in H. rewrite ab_max_value_S.
      destruct (is_terminal game st).
      * unfold Minimax.lift in H. destruct (utility game st player); try discriminate.
        inversion H; subst. simpl. eexists _, _. split; [reflexivity|].
        clear. vorder.
      * assert (Hvb : vlt NegInf beta) by (clear - Hw; vorder).
        destruct (ab_max_loop_bracket _ _ IHmin st beta alpha (actions game st)
                    NegInf None NegInf g t g' Hw Hvb) as (r & m & Hr & Hb);
          [ reflexivity | reflexivity | exact H | ].
        rewrite py_max_NegInf_r in Hr. eauto.
    + rewrite mm_min_value_S_None in H. rewrite ab_min_value_S.
      destruct (is_terminal game st).
      * unfold Minimax.lift in H. destruct (utility game st player); try discriminate.
        inversion H; subst. simpl. eexists _, _. split; [reflexivity|].
        clear. vorder.
      * assert (Hva : vlt alpha PosInf) by (clear - Hw; vorder).
        destruct (ab_min_loop_bracket _ _ IHmax st alpha beta (actions game st)
                    PosInf None PosInf g t g' Hw Hva) as (r & m & Hr & Hb);
          [ reflexivity | reflexivity | exact H | ].
        assert (Hp : py_min beta PosInf = beta) by (clear; vorder).
        rewrite Hp in Hr. eauto.
Qed.

Lemma root_step v r t :
  vlt v PosInf -> bracket v PosInf r t ->
  (vgtb r v = false /\ vgtb t v = false) \/ (vgtb r v = true /\ t = r).
Proof. vorder. Qed.

Lemma decision_loop_top (f : State -> Minimax.M value) s acts :
  forall ba g V b g',
    Minimax.decision_loop game f s acts ba PosInf g = Ok ((V, b), g') ->
    V = PosInf /\ b = ba.
Proof.
  induction acts as [|a rest IH]; simpl; intros ba g V b g' H.
  - inversion H; auto.
  - unfold Minimax.mbind in H.
    destruct (f (result game s a) g) as [[x g1]| |]; try discriminate.
    change (vgtb x PosInf) with false in H. eauto.
Qed.

Lemma ab_root_loop fAB fMM :
  prunes fAB fMM ->
  forall s acts v bm g V b g',
    vlt v PosInf ->
    Minimax.decision_loop game fMM s acts bm v g = Ok ((V, b), g') ->
    AlphaBeta.max_loop game fAB s PosInf acts v bm v = Ok (V, b).
Proof.
  intros Hchild s acts.
  induction acts as [|a rest IH]; simpl; intros v bm g V b g' Hv H.
  - inversion H; reflexivity.
  - unfold Minimax.mbind in H.
    destruct (fMM (result game s a) g) as [[t g1]| |] eqn:E; try discriminate.
    destruct (Hchild _ v PosInf _ _ _ Hv E) as (r & m & Hr & Hb).
    rewrite Hr. simpl.
    destruct (root_step _ _ _ Hv Hb) as [[Hr1 Ht1] | [Hr1 Ht1]].
    + rewrite Hr1. rewrite Ht1 in H.
      assert (Hnp : vgeb v PosInf = false) by (clear - Hv; vorder).
      rewrite Hnp.
      assert (Hvv : py_max v v = v) by (clear; vorder).
      rewrite Hvv. eapply IH; eauto.
    + subst t. rewrite Hr1. rewrite Hr1 in H.
      destruct (vgeb r PosInf) eqn:Hge.
      * assert (r = PosInf) by (clear - Hge; vorder). subst r.
        apply decision_loop_top in H. destruct H; subst. reflexivity.
      * assert (Hvr : py_max v r = r) by (clear - Hr1; vorder).
        rewrite Hvr. eapply IH; eauto. clear - Hge. vorder.
Qed.

Lemma decision_loop_value (f : State -> Minimax.M value) s acts :
  forall ba bv g V b g',
    Minimax.decision_loop game f s acts ba bv g = Ok ((V, b), g') ->
    Minimax.max_loop game f s acts bv g = Ok (V, g').
Proof.
  induction acts as [|a rest IH]; simpl; intros ba bv g V b g' H.
  - inversion H; reflexivity.
  - unfold Minimax.mbind in *.
    destruct (f (result game s a) g) as [[x g1]| |]; try discriminate.
    unfold py_max. destruct (vgtb x bv); eauto.
Qed.

(** Whenever the root loop of the unpruned search returns, the pruned
    search from a non-terminal state returns the same score and action. *)
Lemma ab_root n s g V b g' :
  is_terminal game s = false ->
  Minimax.minimax_root game player None n s g = Ok ((V, b), g') ->
  AlphaBeta.max_value game (S n) s player NegInf PosInf = Ok (V, b) /\
  Minimax.max_value game player None (S n) s g = Ok (V, g').
Proof.
  intros Ht H. unfold Minimax.minimax_root in H.
  rewrite ab_max_value_S, mm_max_value_S, Ht. split.
  - eapply ab_root_loop; eauto; [apply ab_prunes | reflexivity].
  - eapply decision_loop_value; eauto.
Qed.

End Pruning.

(* ------------------------------------------------------------------ *)
(** ** Finite game trees *)

Lemma conforming_finite_tree {State Action Player : Type}
  (game : Game State Action Player) (valid : State -> Prop) (rank : State -> nat) :
  conforming game valid rank -> finite_tree game valid rank.
Proof.
  intros H. split.
  - apply (conf_closed _ _ _ H).
  - apply (conf_rank _ _ _ H).
  - intros s p Hv Ht. destruct (conf_utility _ _ _ H s p Hv Ht) as [z Hz]. eauto.
  - apply (conf_terminal _ _ _ H).
Qed.

Section FiniteTree.
Context {State Action Player : Type}.
Variable game : Game State Action Player.
Variable valid : State -> Prop.
Variable rank : State -> nat.
Hypothesis Hft : finite_tree game valid rank.

Lemma ft_kids s n a :
  valid s -> is_terminal game s = false -> (rank s < S n)%nat ->
  In a (actions game s) ->
  valid (result game s a) /\ (rank (result game s a) < n)%nat.
Proof.
  intros Hv Ht Hr Ha. split.
  - eapply ft_closed; eauto.
  - pose proof (ft_rank _ _ _ Hft s a Hv Ht Ha). lia.
Qed.

Lemma returns_max_loop (f : State -> Minimax.M value) s g acts :
  (forall a, In a acts -> exists x, f (result game s a) g = Ok (x, g)) ->
  forall v, exists V, Minimax.max_loop game f s acts v g = Ok (V, g).
Proof.
  induction acts as [|a rest IH]; simpl; intros Hf v.
  - exists v. reflexivity.
  - destruct (Hf a (or_introl eq_refl)) as [x E].
    unfold Minimax.mbind. rewrite E. apply IH. auto.
Qed.

Lemma returns_min_loop (f : State -> Minimax.M value) s g acts :
  (forall a, In a acts -> exists x, f (result game s a) g = Ok (x, g)) ->
  forall v, exists V, Minimax.min_loop game f s acts v g = Ok (V, g).
Proof.
  induction acts as [|a rest IH]; simpl; intros Hf v.
  - exists v. reflexivity.
  - destruct (Hf a (or_introl eq_refl)) as [x E].
    unfold Minimax.mbind. rewrite E. apply IH. auto.
Qed.

Lemma returns_decision_loop (f : State -> Minimax.M value) s g acts :
  (forall a, In a acts -> exists x, f (result game s a) g = Ok (x, g)) ->
  forall ba bv, exists V b, Minimax.decision_loop game f s acts ba bv g = Ok ((V, b), g).
Proof.
  induction acts as [|a rest IH]; simpl; intros Hf ba bv.
  - exists bv, ba. reflexivity.
  - destruct (Hf a (or_introl eq_refl)) as [x E].
    unfold Minimax.mbind. rewrite E. destruct (vgtb x bv); apply IH; auto.
Qed.

(** On a finite tree the unpruned evaluations return as soon as the fuel
    exceeds the rank of the state, and leave the generator alone. *)
Lemma mm_returns player n :
  forall s g, valid s -> (rank s < n)%nat ->
    (exists v, Minimax.max_value game player None n s g = Ok (v, g)) /\
    (exists v, Minimax.min_value game player None n s g = Ok (v, g)).
Proof.
  induction n as [|n IH]; intros s g Hv Hr; [lia|].
  rewrite mm_max_value_S, mm_min_value_S_None.
  destruct (is_terminal game s) eqn:Ht.
  - destruct (ft_utility _ _ _ Hft s player Hv Ht) as [u Hu].
    unfold Minimax.lift. rewrite Hu. eauto.
  - split.
    + apply returns_max_loop. intros a Ha.
      destruct (ft_kids s n a Hv Ht Hr Ha) as [Hva Hra]. apply IH; auto.
    + apply returns_min_loop. intros a Ha.
      destruct (ft_kids s n a Hv Ht Hr Ha) as [Hva Hra]. apply IH; auto.
Qed.

Lemma mm_root_returns player n s g :
  valid s -> (rank s <= n)%nat ->
  exists V m, Minimax.minimax_root game player None n s g = Ok ((V, m), g).
Proof.
  intros Hv Hr. unfold Minimax.minimax_root.
  apply returns_decision_loop. intros a Ha.
  destruct (is_terminal game s) eqn:Ht.
  - rewrite (ft_terminal _ _ _ Hft s Hv Ht) in Ha. destruct Ha.
  - destruct (ft_kids s n a Hv Ht (proj2 (Nat.lt_succ_r _ _) Hr) Ha) as [Hva Hra].
    apply mm_returns; auto.
Qed.

Lemma ab_total n s :
  valid s -> (rank s < n)%nat ->
  exists m, AlphaBeta.alpha_beta_search game n s = Ok m.
Proof.
  intros Hv Hr.
  destruct (mm_returns (to_move game s) n s (fun _ => O) Hv Hr) as [[v Hz] _].
  destruct (proj1 (ab_prunes game (to_move game s) n) s NegInf PosInf _ _ _ eq_refl Hz)
    as (r & m & Hab & _).
  exists m. unfold AlphaBeta.alpha_beta_search. rewrite Hab. reflexivity.
Qed.

End FiniteTree.


(* ------------------------------------------------------------------ *)
(** ** Conforming games *)

Section Conforming.
Context {State Action Player : Type}.
Variable game : Game State Action Player.
Variable valid : State -> Prop.
Variable rank : State -> nat.
Hypothesis Hconf : conforming game valid rank.

Lemma total_max_loop (f : State -> Minimax.M value) s acts :
  (forall a g0, In a acts -> exists z g1, f (result game s a) g0 = Ok (Fin z, g1)) ->
  forall v g, v = NegInf \/ finite v ->
    exists V g', Minimax.max_loop game f s acts v g = Ok (V, g') /\
                 ((acts = [] /\ V = v) \/ finite V).
Proof.
  induction acts as [|a rest IH]; simpl; intros Hf v g Hv.
  - exists v, g. auto.
  - destruct (Hf a g (or_introl eq_refl)) as (z & g1 & E).
    unfold Minimax.mbind. rewrite E.
    destruct (IH (fun b g0 Hb => Hf b g0 (or_intror Hb)) (py_max v (Fin z)) g1)
      as (V & g' & HV & Hfin).
    + right. destruct Hv as [-> | [z0 ->]]; unfold py_max, vgtb; simpl.
      * exists z. reflexivity.
      * destruct (z0 <? z); eexists; reflexivity.
    + exists V, g'. split; [exact HV|]. right.
      destruct Hfin as [[_ ->] | Hfin]; [|exact Hfin].
      destruct Hv as [-> | [z0 ->]]; unfold py_max, vgtb; simpl.
      * exists z. reflexivity.
      * destruct (z0 <? z); eexists; reflexivity.
Qed.

Lemma total_min_loop (f : State -> Minimax.M value) s acts :
  (forall a g0, In a acts -> exists z g1, f (result game s a) g0 = Ok (Fin z, g1)) ->
  forall v g, v = PosInf \/ finite v ->
    exists V g', Minimax.min_loop game f s acts v g = Ok (V, g') /\
                 ((acts = [] /\ V = v) \/ finite V).
Proof.
  induction acts as [|a rest IH]; simpl; intros Hf v g Hv.
  - exists v, g. auto.
  - destruct (Hf a g (or_introl eq_refl)) as (z & g1 & E).
    unfold Minimax.mbind. rewrite E.
    destruct (IH (fun b g0 Hb => Hf b g0 (or_intror Hb)) (py_min v (Fin z)) g1)
      as (V & g' & HV & Hfin).
    + right. destruct Hv as [-> | [z0 ->]]; unfold py_min; simpl.
      * exists z. reflexivity.
      * destruct (z <? z0); eexists; reflexivity.
    + exists V, g'. split; [exact HV|]. right.
      destruct Hfin as [[_ ->] | Hfin]; [|exact Hfin].
      destruct Hv as [-> | [z0 ->]]; unfold py_min; simpl.
      * exists z. reflexivity.
      * destruct (z <? z0); eexists; reflexivity.
Qed.

Lemma conf_kids s n a :
  valid s -> is_terminal game s = false -> (rank s < S n)%nat ->
  In a (actions game s) ->
  valid (result game s a) /\ (rank (result game s a) < n)%nat.
Proof.
  intros Hv Ht Hr Ha. split.
  - eapply conf_closed; eauto.
  - pose proof (conf_rank _ _ _ Hconf s a Hv Ht Ha). lia.
Qed.

(** On a conforming game both evaluations return a finite score as soon as
    the fuel exceeds the rank of the state, against no adversary and
    against any adversary that honours its contract. *)
Lemma mm_total player adversary :
  honours_opt adversary ->
  forall n s g, valid s -> (rank s < n)%nat ->
    (exists z g', Minimax.max_value game player adversary n s g = Ok (Fin z, g')) /\
    (exists z g', Minimax.min_value game player adversary n s g = Ok (Fin z, g')).
Proof.
  intros Hadv. induction n as [|n IH]; intros s g Hv Hr; [lia|].
  split.
  - rewrite mm_max_value_S. destruct (is_terminal game s) eqn:Ht.
    + destruct (conf_utility _ _ _ Hconf s player Hv Ht) as [z Hu].
      unfold Minimax.lift. rewrite Hu. eauto.
    + destruct (total_max_loop (fun st => Minimax.min_value game player adversary n st)
                  s (actions game s)) with (v := NegInf) (g := g)
        as (V & g' & HV & Hfin); auto.
      * intros a g0 Ha. destruct (conf_kids s n a Hv Ht Hr Ha) as [Hva Hra].
        apply (IH _ g0 Hva Hra).
      * destruct Hfin as [[Hnil _] | [z ->]].
        -- exfalso. eapply conf_moves; eauto.
        -- eauto.
  - destruct adversary as [adv|].
    + rewrite mm_min_value_S_Some. destruct (is_terminal game s) eqn:Ht.
      * destruct (conf_utility _ _ _ Hconf s player Hv Ht) as [z Hu].
        unfold Minimax.lift. rewrite Hu. eauto.
      * destruct (Hadv s (actions game s) game
                    (fun st => Minimax.max_value game player (Some adv) n st)
                    (to_move game s) g) as (a & g1 & Ha & Hc).
        -- eapply conf_moves; eauto.
        -- intros a g0 Ha. destruct (conf_kids s n a Hv Ht Hr Ha) as [Hva Hra].
           apply (IH _ g0 Hva Hra).
        -- unfold Minimax.mbind. rewrite Hc. simpl.
           destruct (conf_kids s n a Hv Ht Hr Ha) as [Hva Hra].
           apply (IH _ g1 Hva Hra).
    + rewrite mm_min_value_S_None. destruct (is_terminal game s) eqn:Ht.
      * destruct (conf_utility _ _ _ Hconf s player Hv Ht) as [z Hu].
        unfold Minimax.lift. rewrite Hu. eauto.
      * destruct (total_min_loop (fun st => Minimax.max_value game player None n st)
                    s (actions game s)) with (v := PosInf) (g := g)
          as (V & g' & HV & Hfin); auto.
        -- intros a g0 Ha. destruct (conf_kids s n a Hv Ht Hr Ha) as [Hva Hra].
           apply (IH _ g0 Hva Hra).
        -- destruct Hfin as [[Hnil _] | [z ->]].
           ++ exfalso. eapply conf_moves; eauto.
           ++ eauto.
Qed.


(** Without an adversary the generator is never read. *)

Lemma max_loop_rng (f : State -> Minimax.M value) s acts :
  (forall st g v g', f st g = Ok (v, g') -> g' = g) ->
  forall v g V g', Minimax.max_loop game f s acts v g = Ok (V, g') -> g' = g.
Proof.
  intros Hf. induction acts as [|a rest IH]; simpl; intros v g V g' H.
  - inversion H; reflexivity.
  - unfold Minimax.mbind in H.
    destruct (f (result game s a) g) as [[x g1]| |] eqn:E; try discriminate.
    apply Hf in E. subst g1. eauto.
Qed.

Lemma min_loop_rng (f : State -> Minimax.M value) s acts :
  (forall st g v g', f st g = Ok (v, g') -> g' = g) ->
  forall v g V g', Minimax.min_loop game f s acts v g = Ok (V, g') -> g' = g.
Proof.
  intros Hf. induction acts as [|a rest IH]; simpl; intros v g V g' H.
  - inversion H; reflexivity.
  - unfold Minimax.mbind in H.
    destruct (f (result game s a) g) as [[x g1]| |] eqn:E; try discriminate.
    apply Hf in E. subst g1. eauto.
Qed.

Lemma lift_rng {A : Type} (c : outcome A) g v g' :
  Minimax.lift c g = Ok (v, g') -> g' = g.
Proof. unfold Minimax.lift. destruct c; intros H; inversion H; reflexivity. Qed.

Lemma mm_none_rng player n :
  forall s g v g',
    (Minimax.max_value game player None n s g = Ok (v, g') -> g' = g) /\
    (Minimax.min_value game player None n s g = Ok (v, g') -> g' = g).
Proof.
  induction n as [|n IH]; intros s g v g'.
  - split; intros H; discriminate H.
  - split; intros H.
    + rewrite mm_max_value_S in H. destruct (is_terminal game s).
      * eapply lift_rng; eauto.
      * eapply max_loop_rng; eauto. intros st g0 v0 g0'. apply IH.
    + rewrite mm_min_value_S_None in H. destruct (is_terminal game s).
      * eapply lift_rng; eauto.
      * eapply min_loop_rng; eauto. intros st g0 v0 g0'. apply IH.
Qed.

Lemma mm_total_None player n s g :
  valid s -> (rank s < n)%nat ->
  (exists z, Minimax.max_value game player None n s g = Ok (Fin z, g)) /\
  (exists z, Minimax.min_value game player None n s g = Ok (Fin z, g)).
Proof.
  intros Hv Hr.
  destruct (mm_total player None I n s g Hv Hr) as [(z1 & g1 & H1) (z2 & g2 & H2)].
  pose proof (proj1 (mm_none_rng player n s g _ _) H1).
  pose proof (proj2 (mm_none_rng player n s g _ _) H2).
  subst. eauto.
Qed.

(** The root loop returns the first action with the best score. *)
Lemma decision_loop_first (f : State -> Minimax.M value) s g acts :
  (forall a, In a acts -> exists x, f (result game s a) g = Ok (x, g)) ->
  forall ba bv,
  exists V b,
    Minimax.decision_loop game f s acts ba bv g = Ok ((V, b), g) /\
    ((V = bv /\ b = ba /\
      forall a, In a acts -> exists x, f (result game s a) g = Ok (x, g) /\ vle x bv) \/
     (exists l1 a l2,
        acts = l1 ++ a :: l2 /\ b = Some a /\
        f (result game s a) g = Ok (V, g) /\ vlt bv V /\
        (forall c, In c l1 -> exists x, f (result game s c) g = Ok (x, g) /\ vlt x V) /\
        (forall c, In c l2 -> exists x, f (result game s c) g = Ok (x, g) /\ vle x V))).
Proof.
  induction acts as [|a rest IH]; simpl; intros Hf ba bv.
  - exists bv, ba. split; [reflexivity|]. left. repeat split. intros a [].
  - destruct (Hf a (or_introl eq_refl)) as [x E].
    unfold Minimax.mbind. rewrite E.
    destruct (vgtb x bv) eqn:Hgt.
    + destruct (IH (fun b Hb => Hf b (or_intror Hb)) (Some a) x)
        as (V & b & HL & [(-> & -> & Hall) | (l1 & a' & l2 & -> & -> & Ea & Hlt & H1 & H2)]).
      * exists x, (Some a). split; [exact HL|]. right.
        exists [], a, rest. repeat split; auto. intros c [].
      * exists V, (Some a'). split; [exact HL|]. right.
        exists (a :: l1), a', l2. repeat split; auto.
        -- clear - Hgt Hlt. vorder.
        -- intros c [<- | Hc]; eauto.
    + destruct (IH (fun b Hb => Hf b (or_intror Hb)) ba bv)
        as (V & b & HL & [(-> & -> & Hall) | (l1 & a' & l2 & -> & -> & Ea & Hlt & H1 & H2)]).
      * exists bv, ba. split; [exact HL|]. left. repeat split.
        intros c [<- | Hc]; eauto.
      * exists V, (Some a'). split; [exact HL|]. right.
        exists (a :: l1), a', l2. repeat split; auto.
        intros c [<- | Hc]; eauto.
        exists x. split; [exact E|]. clear - Hgt Hlt. vorder.
Qed.


Lemma mm_root_first player n s g :
  valid s -> is_terminal game s = false -> (rank s <= n)%nat ->
  exists V a,
    Minimax.minimax_root game player None n s g = Ok ((V, Some a), g) /\
    first_best game player n s g a.
Proof.
  intros Hv Ht Hr.
  assert (Hkids : forall a, In a (actions game s) ->
            exists z, Minimax.min_value game player None n (result game s a) g
                      = Ok (Fin z, g)).
  { intros a Ha. destruct (conf_kids s n a Hv Ht (proj2 (Nat.lt_succ_r _ _) Hr) Ha) as [Hva Hra].
    apply mm_total_None; auto. }
  destruct (decision_loop_first
              (fun st => Minimax.min_value game player None n st) s g (actions game s))
    with (ba := @None Action) (bv := NegInf)
    as (V & b & HL & [(-> & -> & Hall) | (l1 & a & l2 & Hacts & -> & Ea & Hlt & H1 & H2)]).
  - intros a Ha. destruct (Hkids a Ha) as [z Hz]. eauto.
  - exfalso. pose proof (conf_moves _ _ _ Hconf s Hv Ht) as Hne.
    destruct (actions game s) as [|a rest]; [congruence|].
    destruct (Hall a (or_introl eq_refl)) as (x & Hx & Hle).
    destruct (Hkids a (or_introl eq_refl)) as [z Hz].
    rewrite Hz in Hx. inversion Hx; subst. discriminate Hle.
  - exists V, a. split; [exact HL|].
    exists l1, l2, V. auto.
Qed.

(** *** The optimal adversary *)

Lemma max_loop_ext (f1 f2 : State -> Minimax.M value) s acts :
  (forall a g, In a acts -> f1 (result game s a) g = f2 (result game s a) g) ->
  forall v g, Minimax.max_loop game f1 s acts v g = Minimax.max_loop game f2 s acts v g.
Proof.
  induction acts as [|a rest IH]; simpl; intros Hf v g; [reflexivity|].
  unfold Minimax.mbind. rewrite (Hf a g (or_introl eq_refl)).
  destruct (f2 (result game s a) g) as [[x g1]| |]; auto.
Qed.

Lemma decision_loop_ext (f1 f2 : State -> Minimax.M value) s acts :
  (forall a g, In a acts -> f1 (result game s a) g = f2 (result game s a) g) ->
  forall ba bv g,
    Minimax.decision_loop game f1 s acts ba bv g =
    Minimax.decision_loop game f2 s acts ba bv g.
Proof.
  induction acts as [|a rest IH]; simpl; intros Hf ba bv g; [reflexivity|].
  unfold Minimax.mbind. rewrite (Hf a g (or_introl eq_refl)).
  destruct (f2 (result game s a) g) as [[x g1]| |]; auto.
  destruct (vgtb x bv); auto.
Qed.

Lemma lowest_loop_ext (f1 f2 : State -> Minimax.M value) s acts :
  (forall a g, In a acts -> f1 (result game s a) g = f2 (result game s a) g) ->
  forall ba bv g,
    Minimax.lowest_loop f1 game s acts ba bv g =
    Minimax.lowest_loop f2 game s acts ba bv g.
Proof.
  induction acts as [|a rest IH]; simpl; intros Hf ba bv g; [reflexivity|].
  unfold Minimax.mbind. rewrite (Hf a g (or_introl eq_refl)).
  destruct (f2 (result game s a) g) as [[x g1]| |]; auto.
  destruct (vltb x bv); auto.
Qed.

(** The adversary's loop and the built-in minimisation run in step: the
    incumbent action always scores the running minimum. *)
Lemma lowest_loop_min (f : State -> Minimax.M value) s g acts :
  (forall a, In a acts -> exists z, f (result game s a) g = Ok (Fin z, g)) ->
  forall ba bv,
    (ba = None -> bv = PosInf) ->
    exists ba' bv',
      Minimax.lowest_loop f game s acts ba bv g = Ok (ba', g) /\
      Minimax.min_loop game f s acts bv g = Ok (bv', g) /\
      (ba' = ba /\ bv' = bv /\ (acts = [] \/ ba <> None) \/
       exists a, ba' = Some a /\ In a acts /\ f (result game s a) g = Ok (bv', g)).
Proof.
  induction acts as [|a rest IH]; simpl; intros Hf ba bv Hinv.
  - exists ba, bv. split; [reflexivity|]. split; [reflexivity|]. left. auto.
  - destruct (Hf a (or_introl eq_refl)) as [z E].
    unfold Minimax.mbind. rewrite E. unfold py_min.
    destruct (vltb (Fin z) bv) eqn:Hlt.
    + destruct (IH (fun b Hb => Hf b (or_intror Hb)) (Some a) (Fin z))
        as (ba' & bv' & H1 & H2 & [(-> & -> & _) | (a' & -> & Hin & Ea)]);
        [discriminate| |].
      * exists (Some a), (Fin z). repeat split; auto. right. exists a. auto.
      * exists (Some a'), bv'. repeat split; auto. right. exists a'. auto.
    + assert (Hba : ba <> None).
      { intros ->. rewrite (Hinv eq_refl) in Hlt. discriminate Hlt. }
      destruct (IH (fun b Hb => Hf b (or_intror Hb)) ba bv Hinv)
        as (ba' & bv' & H1 & H2 & [(-> & -> & _) | (a' & -> & Hin & Ea)]).
      * exists ba, bv. repeat split; auto.
      * exists (Some a'), bv'. repeat split; auto. right. exists a'. auto.
Qed.

(** With [OptimalAdversary] every evaluation is the one made without an
    adversary. *)
Lemma optimal_same player n :
  forall s g, valid s -> (rank s < n)%nat ->
    Minimax.max_value game player (Some Minimax.OptimalAdversary) n s g =
    Minimax.max_value game player None n s g /\
    Minimax.min_value game player (Some Minimax.OptimalAdversary) n s g =
    Minimax.min_value game player None n s g.
Proof.
  induction n as [|n IH]; intros s g Hv Hr; [lia|].
  split.
  - rewrite !mm_max_value_S. destruct (is_terminal game s) eqn:Ht; [reflexivity|].
    apply max_loop_ext. intros a g0 Ha.
    destruct (conf_kids s n a Hv Ht Hr Ha) as [Hva Hra].
    apply IH; auto.
  - rewrite mm_min_value_S_Some, mm_min_value_S_None.
    destruct (is_terminal game s) eqn:Ht; [reflexivity|].
    unfold Minimax.mbind. simpl.
    rewrite (lowest_loop_ext _ (fun st => Minimax.max_value game player None n st)).
    2:{ intros a g0 Ha. destruct (conf_kids s n a Hv Ht Hr Ha) as [Hva Hra].
        apply IH; auto. }
    destruct (lowest_loop_min (fun st => Minimax.max_value game player None n st)
                s g (actions game s)) with (ba := @None Action) (bv := PosInf)
      as (ba' & bv' & H1 & H2 & [(-> & -> & [Hnil | Hne]) | (a & -> & Hin & Ea)]); auto.
    + intros a Ha. destruct (conf_kids s n a Hv Ht Hr Ha) as [Hva Hra].
      apply mm_total_None; auto.
    + exfalso. eapply conf_moves; eauto.
    + congruence.
    + rewrite H1, H2. simpl.
      destruct (conf_kids s n a Hv Ht Hr Hin) as [Hva Hra].
      rewrite (proj1 (IH _ g Hva Hra)). exact Ea.
Qed.

End Conforming.

(* ------------------------------------------------------------------ *)
(** ** The adversary strategies *)

Section Adversaries.
Context {State Action Player : Type}.
Variable game : Game State Action Player.

(** What the loop of the optimal and heuristic adversaries returns is the
    incumbent or one of the actions it went through. *)
Lemma lowest_loop_member (f : State -> Minimax.M value) s acts :
  forall ba bv g r g',
    Minimax.lowest_loop f game s acts ba bv g = Ok (r, g') ->
    r = ba \/ exists a, r = Some a /\ In a acts.
Proof.
  induction acts as [|a rest IH]; simpl; intros ba bv g r g' H.
  - inversion H; auto.
  - unfold Minimax.mbind in H.
    destruct (f (result game s a) g) as [[x g1]| |]; try discriminate.
    destruct (vltb x bv); apply IH in H; destruct H as [-> | (a' & -> & Hin)]; eauto.
Qed.

Lemma lowest_loop_halts (f : State -> Minimax.M value) s acts :
  (forall a g0, In a acts -> f (result game s a) g0 <> OutOfFuel) ->
  forall ba bv g, Minimax.lowest_loop f game s acts ba bv g <> OutOfFuel.
Proof.
  induction acts as [|a rest IH]; simpl; intros Hf ba bv g.
  - discriminate.
  - unfold Minimax.mbind.
    pose proof (Hf a g (or_introl eq_refl)) as Ha.
    destruct (f (result game s a) g) as [[x g1]| |]; try discriminate; try congruence.
    destruct (vltb x bv); apply IH; auto.
Qed.

(** The loop returns an action as soon as one candidate scores below
    [+inf]: the first such candidate displaces the initial [None]. *)
Lemma lowest_loop_some (f : State -> Minimax.M value) s acts :
  (forall a g0, In a acts -> exists x g1, f (result game s a) g0 = Ok (x, g1)) ->
  forall ba bv g,
    (ba = None -> bv = PosInf) ->
    (ba <> None \/
     exists a, In a acts /\
       forall g0 x g1, f (result game s a) g0 = Ok (x, g1) -> vlt x PosInf) ->
    exists r g',
      Minimax.lowest_loop f game s acts ba bv g = Ok (r, g') /\
      (r = ba /\ ba <> None \/ exists a, r = Some a /\ In a acts).
Proof.
  induction acts as [|a rest IH]; simpl; intros Hf ba bv g Hinv Hgood.
  - destruct Hgood as [Hba | (a & [] & _)]. exists ba, g. auto.
  - destruct (Hf a g (or_introl eq_refl)) as (x & g1 & E).
    unfold Minimax.mbind. rewrite E.
    destruct (vltb x bv) eqn:Hlt.
    + destruct (IH (fun b g0 Hb => Hf b g0 (or_intror Hb)) (Some a) x g1)
        as (r & g' & HL & [(-> & _) | (a' & -> & Hin)]);
        [discriminate | left; discriminate | |].
      * exists (Some a), g'. split; [exact HL|]. right. exists a. auto.
      * exists (Some a'), g'. split; [exact HL|]. right. exists a'. auto.
    + assert (Hgood' : ba <> None \/
                exists a0, In a0 rest /\
                  forall g0 x0 g2, f (result game s a0) g0 = Ok (x0, g2) -> vlt x0 PosInf).
      { destruct Hgood as [Hba | (a0 & [<- | Hin] & Ha0)]; auto.
        - left. intros ->. rewrite (Hinv eq_refl) in Hlt.
          apply Ha0 in E. unfold vlt in E. congruence.
        - right. exists a0. auto. }
      destruct (IH (fun b g0 Hb => Hf b g0 (or_intror Hb)) ba bv g1 Hinv Hgood')
        as (r & g' & HL & [(-> & Hba) | (a' & -> & Hin)]).
      * exists ba, g'. auto.
      * exists (Some a'), g'. split; [exact HL|]. right. exists a'. auto.
Qed.

(** When no candidate scores below [+inf] the initial [None] is returned. *)
Lemma lowest_loop_none (f : State -> Minimax.M value) s acts :
  (forall a g0, In a acts -> f (result game s a) g0 = Ok (PosInf, g0)) ->
  forall g, Minimax.lowest_loop f game s acts None PosInf g = Ok (None, g).
Proof.
  induction acts as [|a rest IH]; simpl; intros Hf g; [reflexivity|].
  unfold Minimax.mbind. rewrite (Hf a g (or_introl eq_refl)). simpl.
  apply IH. auto.
Qed.

Lemma random_choice_member (acts : list Action) (g : Minimax.rng) :
  acts <> [] ->
  exists a, In a acts /\ Minimax.random_choice acts g = Ok (a, fun i => g (S i)).
Proof.
  intros Hne. destruct acts as [|d rest]; [congruence|].
  unfold Minimax.random_choice.
  eexists. split; [|reflexivity].
  apply nth_In. apply Nat.mod_upper_bound. simpl. discriminate.
Qed.

End Adversaries.

Section Variants.
Context {State Action Player : Type}.

Lemma optimal_honours : honours (@Minimax.OptimalAdversary State Action Player).
Proof.
  intros s acts gm ev opp g Hne Hev. simpl.
  destruct (lowest_loop_some gm ev s acts) with (ba := @None Action) (bv := PosInf) (g := g)
    as (r & g' & HL & [(_ & C) | (a & -> & Hin)]); auto; try congruence.
  - intros a g0 Ha. destruct (Hev a g0 Ha) as (z & g1 & E). eauto.
  - right. destruct acts as [|a rest]; [congruence|]. exists a. split; [left; reflexivity|].
    intros g0 x g1 E. destruct (Hev a g0 (or_introl eq_refl)) as (z & g2 & E').
    rewrite E' in E. inversion E. reflexivity.
  - eauto.
Qed.

Lemma random_honours : honours (@Minimax.RandomAdversary State Action Player).
Proof.
  intros s acts gm ev opp g Hne _. simpl.
  destruct (random_choice_member acts g Hne) as (a & Hin & E).
  unfold Minimax.mbind, Minimax.mret. rewrite E. eauto.
Qed.

Lemma heuristic_honours (h : State -> value) :
  (forall st, exists z, h st = Fin z) ->
  honours (@Minimax.HeuristicAdversary State Action Player h).
Proof.
  intros Hh s acts gm ev opp g Hne _. simpl.
  destruct (lowest_loop_some gm (fun st => Minimax.mret (h st)) s acts)
    with (ba := @None Action) (bv := PosInf) (g := g)
    as (r & g' & HL & [(_ & C) | (a & -> & Hin)]); auto; try congruence.
  - intros a g0 Ha. unfold Minimax.mret. eauto.
  - right. destruct acts as [|a rest]; [congruence|]. exists a. split; [left; reflexivity|].
    intros g0 x g1 E. unfold Minimax.mret in E. inversion E.
    destruct (Hh (result gm s a)) as [z ->]. reflexivity.
  - eauto.
Qed.

Lemma optimal_halts : halts (@Minimax.OptimalAdversary State Action Player).
Proof.
  intros s acts gm ev opp g Hev. simpl.
  destruct (Minimax.lowest_loop ev gm s acts None PosInf g) as [[c g']| |] eqn:E; auto.
  - apply lowest_loop_member in E. destruct E as [-> | E]; [left|right]; auto.
  - revert E. apply lowest_loop_halts. exact Hev.
Qed.

Lemma random_halts : halts (@Minimax.RandomAdversary State Action Player).
Proof.
  intros s acts gm ev opp g _. simpl. unfold Minimax.mbind, Minimax.random_choice.
  destruct acts as [|d rest]; [exact I|].
  right. eexists. split; [reflexivity|].
  apply nth_In. apply Nat.mod_upper_bound. simpl. discriminate.
Qed.

Lemma heuristic_halts (h : State -> value) :
  halts (@Minimax.HeuristicAdversary State Action Player h).
Proof.
  intros s acts gm ev opp g _. simpl.
  destruct (Minimax.lowest_loop (fun st => Minimax.mret (h st)) gm s acts None PosInf g)
    as [[c g']| |] eqn:E; auto.
  - apply lowest_loop_member in E. destruct E as [-> | E]; [left|right]; auto.
  - revert E. apply lowest_loop_halts. intros a g0 _. discriminate.
Qed.

End Variants.

(** On a conforming game whose [result] raises on [None],
    the search against an adversary that halts does not run out of fuel. *)
Section Halting.
Context {State Action Player : Type}.
Variable game : Game State Action Player.
Variable valid : State -> Prop.
Variable rank : State -> nat.
Hypothesis Hconf : conforming game valid rank.
Hypothesis Hnone : forall s, exists e, result_None game s = Raise e.
Variable player : Player.
Variable adv : Minimax.Adversary State Action Player.
Hypothesis Hadv : halts adv.

Lemma max_loop_halts (f : State -> Minimax.M value) s acts :
  (forall a g0, In a acts -> f (result game s a) g0 <> OutOfFuel) ->
  forall v g, Minimax.max_loop game f s acts v g <> OutOfFuel.
Proof.
  induction acts as [|a rest IH]; simpl; intros Hf v g.
  - discriminate.
  - unfold Minimax.mbind.
    pose proof (Hf a g (or_introl eq_refl)) as Ha.
    destruct (f (result game s a) g) as [[x g1]| |]; try discriminate; try congruence.
    apply IH; auto.
Qed.

Lemma decision_loop_halts (f : State -> Minimax.M value) s acts :
  (forall a g0, In a acts -> f (result game s a) g0 <> OutOfFuel) ->
  forall ba bv g, Minimax.decision_loop game f s acts ba bv g <> OutOfFuel.
Proof.
  induction acts as [|a rest IH]; simpl; intros Hf ba bv g.
  - discriminate.
  - unfold Minimax.mbind.
    pose proof (Hf a g (or_introl eq_refl)) as Ha.
    destruct (f (result game s a) g) as [[x g1]| |]; try discriminate; try congruence.
    destruct (vgtb x bv); apply IH; auto.
Qed.

Lemma mm_halts n :
  forall s g, valid s -> (rank s < n)%nat ->
    Minimax.max_value game player (Some adv) n s g <> OutOfFuel /\
    Minimax.min_value game player (Some adv) n s g <> OutOfFuel.
Proof.
  induction n as [|n IH]; intros s g Hv Hr; [lia|].
  assert (Hterm : is_terminal game s = true ->
            Minimax.lift (utility game s player) g <> OutOfFuel).
  { intros Ht. destruct (conf_utility _ _ _ Hconf s player Hv Ht) as [z Hu].
    unfold Minimax.lift. rewrite Hu. discriminate. }
  split.
  - rewrite mm_max_value_S. destruct (is_terminal game s) eqn:Ht; [auto|].
    apply max_loop_halts. intros a g0 Ha.
    destruct (conf_kids game valid rank Hconf s n a Hv Ht Hr Ha) as [Hva Hra].
    apply IH; auto.
  - rewrite mm_min_value_S_Some. destruct (is_terminal game s) eqn:Ht; [auto|].
    unfold Minimax.mbind.
    assert (Hk : forall a g0, In a (actions game s) ->
              Minimax.max_value game player (Some adv) n (result game s a) g0
              <> OutOfFuel).
    { intros a g0 Ha.
      destruct (conf_kids game valid rank Hconf s n a Hv Ht Hr Ha) as [Hva Hra].
      apply IH; auto. }
    pose proof (Hadv s (actions game s) game
                  (fun st => Minimax.max_value game player (Some adv) n st)
                  (to_move game s) g Hk) as Hc.
    destruct (Minimax.choose_action adv s (actions game s) game _ (to_move game s) g)
      as [[c g1]| |]; [ | discriminate | contradiction ].
    destruct Hc as [-> | (a & -> & Ha)]; simpl.
    + unfold Minimax.lift. destruct (Hnone s) as [e ->]. discriminate.
    + apply Hk. exact Ha.
Qed.
End Halting.

(* ------------------------------------------------------------------ *)
(** ** The two searches at the root *)

Lemma lowest_loop_rng {State Action Player : Type} (game : Game State Action Player)
  (f : State -> Minimax.M value) s acts :
  (forall st g0 x g1, f st g0 = Ok (x, g1) -> g1 = g0) ->
  forall ba bv g r g',
    Minimax.lowest_loop f game s acts ba bv g = Ok (r, g') -> g' = g.
Proof.
  intros Hf. induction acts as [|a rest IH]; simpl; intros ba bv g r g' H.
  - inversion H; reflexivity.
  - unfold Minimax.mbind in H.
    destruct (f (result game s a) g) as [[x g1]| |] eqn:E; try discriminate.
    apply Hf in E. subst g1. destruct (vltb x bv); eauto.
Qed.

Section Roots.
Context {State Action Player : Type}.
Variable game : Game State Action Player.
Variable valid : State -> Prop.
Variable rank : State -> nat.
Hypothesis Hconf : conforming game valid rank.

Lemma optimal_root_same player n s g :
  valid s -> (rank s <= n)%nat ->
  Minimax.minimax_root game player (Some Minimax.OptimalAdversary) n s g =
  Minimax.minimax_root game player None n s g.
Proof.
  intros Hv Hr. unfold Minimax.minimax_root.
  apply decision_loop_ext. intros a g0 Ha.
  destruct (is_terminal game s) eqn:Ht.
  - rewrite (conf_terminal _ _ _ Hconf s Hv Ht) in Ha. destruct Ha.
  - destruct (conf_kids game valid rank Hconf s n a Hv Ht
                (proj2 (Nat.lt_succ_r _ _) Hr) Ha) as [Hva Hra].
    apply (optimal_same game valid rank Hconf); auto.
Qed.

Lemma ab_first_best n s g :
  valid s -> is_terminal game s = false -> (rank s < n)%nat ->
  exists a,
    first_best game (to_move game s) n s g a /\
    AlphaBeta.alpha_beta_search game n s = Ok (Some a).
Proof.
  intros Hv Ht Hr. destruct n as [|n]; [lia|].
  assert (Hn : (rank s <= n)%nat) by lia.
  destruct (mm_root_first game valid rank Hconf (to_move game s) (S n) s g Hv Ht)
    as (V & a & Hroot & Hfb); [lia|].
  destruct (mm_root_first game valid rank Hconf (to_move game s) n s g Hv Ht Hn)
    as (V' & a' & Hroot' & _).
  destruct (ab_root game (to_move game s) n s g V' (Some a') g Ht Hroot') as [Hab _].
  apply mm_root_fuel_le with (m := S n) in Hroot'; [|lia].
  rewrite Hroot in Hroot'. inversion Hroot'; subst.
  exists a'. split; [exact Hfb|].
  unfold AlphaBeta.alpha_beta_search. rewrite Hab. reflexivity.
Qed.

Lemma decision_loop_total (f : State -> Minimax.M value) s acts :
  (forall a g0, In a acts -> exists z g1, f (result game s a) g0 = Ok (Fin z, g1)) ->
  forall ba bv g,
    exists r g', Minimax.decision_loop game f s acts ba bv g = Ok (r, g').
Proof.
  induction acts as [|a rest IH]; simpl; intros Hf ba bv g.
  - unfold Minimax.mret. eauto.
  - destruct (Hf a g (or_introl eq_refl)) as (z & g1 & E).
    unfold Minimax.mbind. rewrite E.
    destruct (vgtb (Fin z) bv); apply IH; auto.
Qed.

Lemma mm_decision_total player adversary n s g :
  honours_opt adversary ->
  valid s -> (rank s <= n)%nat ->
  exists m g', Minimax.minimax_decision game player adversary n s g = Ok (m, g').
Proof.
  intros Hadv Hv Hr. unfold Minimax.minimax_decision, Minimax.minimax_root, Minimax.mbind.
  destruct (decision_loop_total
              (fun st => Minimax.min_value game player adversary n st) s (actions game s))
    with (ba := @None Action) (bv := NegInf) (g := g) as ([V m] & g' & ->).
  - intros a g0 Ha. destruct (is_terminal game s) eqn:Ht.
    + rewrite (conf_terminal _ _ _ Hconf s Hv Ht) in Ha. destruct Ha.
    + destruct (conf_kids game valid rank Hconf s n a Hv Ht
                  (proj2 (Nat.lt_succ_r _ _) Hr) Ha) as [Hva Hra].
      apply (mm_total game valid rank Hconf player adversary Hadv n _ g0 Hva Hra).
  - unfold Minimax.mret. simpl. eauto.
Qed.

Lemma mm_decision_halts player adv n s g :
  (forall st, exists e, result_None game st = Raise e) ->
  halts adv ->
  valid s -> (rank s <= n)%nat ->
  Minimax.minimax_decision game player (Some adv) n s g <> OutOfFuel.
Proof.
  intros Hnone Hadv Hv Hr.
  unfold Minimax.minimax_decision, Minimax.minimax_root, Minimax.mbind.
  pose proof (decision_loop_halts game
                (fun st => Minimax.min_value game player (Some adv) n st)
                s (actions game s)) as Hd.
  destruct (Minimax.decision_loop game _ s (actions game s) None NegInf g)
    as [[r g']| |] eqn:E; try discriminate.
  exfalso. revert E. apply Hd. intros a g0 Ha.
  destruct (is_terminal game s) eqn:Ht.
  - rewrite (conf_terminal _ _ _ Hconf s Hv Ht) in Ha. destruct Ha.
  - destruct (conf_kids game valid rank Hconf s n a Hv Ht
                (proj2 (Nat.lt_succ_r _ _) Hr) Ha) as [Hva Hra].
    apply (mm_halts game valid rank Hconf Hnone player adv Hadv n _ g0 Hva Hra).
Qed.

End Roots.

(* ------------------------------------------------------------------ *)
(** ** The claims about the search *)

(** C1.  On a game with a finite tree, whose terminal states have a utility
    and enumerate no move, from every valid state and with any fuel above the
    rank of the state, [alpha_beta_search] returns the action that
    [minimax_decision] returns without an adversary for the player to move,
    and the root score of the pruned [max_value] is the score of the unpruned
    [max_value]; from a non-terminal state it is also the [best_value] with
    which the root loop of [minimax_decision] ends. *)
Theorem pruning_equivalence {State Action Player : Type}
  (game : Game State Action Player) (valid : State -> Prop) (rank : State -> nat)
  (s : State) (n : nat) (g : Minimax.rng) :
  finite_tree game valid rank -> valid s -> (rank s < n)%nat ->
  exists v m,
    AlphaBeta.max_value game n s (to_move game s) NegInf PosInf = Ok (v, m) /\
    AlphaBeta.alpha_beta_search game n s = Ok m /\
    Minimax.max_value game (to_move game s) None n s g = Ok (v, g) /\
    Minimax.minimax_decision game (to_move game s) None n s g = Ok (m, g) /\
    (is_terminal game s = false ->
     Minimax.minimax_root game (to_move game s) None n s g = Ok ((v, m), g)).
Proof.
  intros Hft Hv Hr. destruct n as [|n]; [lia|].
  unfold AlphaBeta.alpha_beta_search, Minimax.minimax_decision, Minimax.mbind.
  destruct (is_terminal game s) eqn:Ht.
  - destruct (ft_utility _ _ _ Hft s (to_move game s) Hv Ht) as [u Hu].
    exists u, None.
    rewrite ab_max_value_S, mm_max_value_S, Ht.
    unfold Minimax.minimax_root, Minimax.lift.
    rewrite (ft_terminal _ _ _ Hft s Hv Ht), Hu. simpl.
    repeat split; try reflexivity. discriminate.
  - assert (Hn : (rank s <= n)%nat) by lia.
    destruct (mm_root_returns game valid rank Hft (to_move game s) n s g Hv Hn)
      as (V & m & Hroot).
    destruct (ab_root game (to_move game s) n s g V m g Ht Hroot) as [Hab Hmm].
    apply mm_root_fuel_le with (m := S n) in Hroot; [|lia].
    exists V, m. rewrite Hab, Hroot. simpl. auto.
Qed.

Lemma pruning_equivalence_witness :
  exists v m,
    AlphaBeta.max_value (NimGame 3) 8 (7, "A") (to_move (NimGame 3) (7, "A")) NegInf PosInf
      = Ok (v, m) /\
    AlphaBeta.alpha_beta_search (NimGame 3) 8 (7, "A") = Ok m /\
    Minimax.max_value (NimGame 3) (to_move (NimGame 3) (7, "A")) None 8 (7, "A") rng0
      = Ok (v, rng0) /\
    Minimax.minimax_decision (NimGame 3) (to_move (NimGame 3) (7, "A")) None 8 (7, "A") rng0
      = Ok (m, rng0) /\
    (is_terminal (NimGame 3) (7, "A") = false ->
     Minimax.minimax_root (NimGame 3) (to_move (NimGame 3) (7, "A")) None 8 (7, "A") rng0
       = Ok ((v, m), rng0)).
Proof.
  apply (pruning_equivalence (NimGame 3) nim_valid nim_rank (7, "A") 8%nat rng0).
  - apply nim_finite_tree.
  - unfold nim_valid. simpl. lia.
  - unfold nim_rank. simpl. lia.
Defined.

(** C2.  On a conforming game, from every valid state, for every player and
    with any fuel that reaches the rank of the state, [minimax_decision]
    returns with [OptimalAdversary] the action it returns with no adversary. *)
Theorem optimal_adversary_degeneracy {State Action Player : Type}
  (game : Game State Action Player) (valid : State -> Prop) (rank : State -> nat)
  (player : Player) (s : State) (n : nat) (g : Minimax.rng) :
  conforming game valid rank -> valid s -> (rank s <= n)%nat ->
  exists m,
    Minimax.minimax_decision game player (Some Minimax.OptimalAdversary) n s g = Ok (m, g) /\
    Minimax.minimax_decision game player None n s g = Ok (m, g).
Proof.
  intros Hconf Hv Hr. unfold Minimax.minimax_decision, Minimax.mbind.
  rewrite (optimal_root_same game valid rank Hconf) by assumption.
  destruct (mm_root_returns game valid rank (conforming_finite_tree _ _ _ Hconf)
              player n s g Hv Hr) as (V & m & ->).
  exists m. auto.
Qed.

Lemma optimal_adversary_degeneracy_witness :
  exists m,
    Minimax.minimax_decision (NimGame 3) "B" (Some Minimax.OptimalAdversary) 5 (5, "A") rng0
      = Ok (m, rng0) /\
    Minimax.minimax_decision (NimGame 3) "B" None 5 (5, "A") rng0 = Ok (m, rng0).
Proof.
  apply (optimal_adversary_degeneracy (NimGame 3) nim_valid nim_rank "B" (5, "A") 5%nat rng0).
  - apply nim_conforming. lia.
  - unfold nim_valid. simpl. lia.
  - unfold nim_rank. simpl. lia.
Defined.

(** C3.  In the demonstration game with [max_take = 3], from the state of 7
    tokens with A to move, [alpha_beta_search] returns the action 3, and
    [minimax_decision] for player A returns the action 3 with no adversary
    and with [OptimalAdversary]; this for any fuel above 7. *)
Theorem nim_seven_take_three (n : nat) (g : Minimax.rng) :
  (7 < n)%nat ->
  AlphaBeta.alpha_beta_search (NimGame 3) n (7, "A") = Ok (Some 3) /\
  Minimax.minimax_decision (NimGame 3) "A" None n (7, "A") g = Ok (Some 3, g) /\
  Minimax.minimax_decision (NimGame 3) "A" (Some Minimax.OptimalAdversary) n (7, "A") g
    = Ok (Some 3, g).
Proof.
  intros Hn.
  assert (Hroot : Minimax.minimax_root (NimGame 3) "A" None n (7, "A") g
                  = Ok ((Fin 1, Some 3), g)).
  { apply mm_root_fuel_le with (n := 7%nat); [lia|]. vm_compute. reflexivity. }
  repeat split.
  - unfold AlphaBeta.alpha_beta_search.
    change (to_move (NimGame 3) (7, "A")) with "A".
    rewrite (ab_max_fuel_le (NimGame 3) "A" 8 n (7, "A") NegInf PosInf (Fin 1, Some 3));
      [reflexivity | lia | vm_compute; reflexivity].
  - unfold Minimax.minimax_decision, Minimax.mbind. rewrite Hroot. reflexivity.
  - unfold Minimax.minimax_decision, Minimax.mbind.
    rewrite (optimal_root_same (NimGame 3) nim_valid nim_rank (nim_conforming 3 ltac:(lia))).
    + rewrite Hroot. reflexivity.
    + unfold nim_valid. simpl. lia.
    + unfold nim_rank. simpl. lia.
Qed.

Lemma nim_seven_take_three_witness :
  AlphaBeta.alpha_beta_search (NimGame 3) 8 (7, "A") = Ok (Some 3) /\
  Minimax.minimax_decision (NimGame 3) "A" None 8 (7, "A") rng0 = Ok (Some 3, rng0) /\
  Minimax.minimax_decision (NimGame 3) "A" (Some Minimax.OptimalAdversary) 8 (7, "A") rng0
    = Ok (Some 3, rng0).
Proof. apply (nim_seven_take_three 8 rng0). lia. Defined.

(** C5.  On a conforming game, from every valid non-terminal state, both
    searches return the first action, in the enumeration order of [actions],
    among those whose successor has the best score: [minimax_decision] for
    any player, [alpha_beta_search] for the player to move. *)
Theorem tie_break_first_action {State Action Player : Type}
  (game : Game State Action Player) (valid : State -> Prop) (rank : State -> nat)
  (s : State) (n : nat) (g : Minimax.rng) :
  conforming game valid rank -> valid s -> is_terminal game s = false ->
  (rank s < n)%nat ->
  (forall player, exists a,
      first_best game player n s g a /\
      Minimax.minimax_decision game player None n s g = Ok (Some a, g)) /\
  (exists a,
      first_best game (to_move game s) n s g a /\
      AlphaBeta.alpha_beta_search game n s = Ok (Some a)).
Proof.
  intros Hconf Hv Ht Hr. split.
  - intros player.
    destruct (mm_root_first game valid rank Hconf player n s g Hv Ht) as (V & a & H & Hfb);
      [lia|].
    exists a. split; [exact Hfb|].
    unfold Minimax.minimax_decision, Minimax.mbind. rewrite H. reflexivity.
  - apply ab_first_best with (valid := valid) (rank := rank); assumption.
Qed.

(** All three moves lose from 4 tokens: the first one is returned. *)
Lemma tie_break_first_action_witness :
  (forall player, exists a,
      first_best (NimGame 3) player 5 (4, "A") rng0 a /\
      Minimax.minimax_decision (NimGame 3) player None 5 (4, "A") rng0 = Ok (Some a, rng0)) /\
  (exists a,
      first_best (NimGame 3) (to_move (NimGame 3) (4, "A")) 5 (4, "A") rng0 a /\
      AlphaBeta.alpha_beta_search (NimGame 3) 5 (4, "A") = Ok (Some a)).
Proof.
  apply (tie_break_first_action (NimGame 3) nim_valid nim_rank (4, "A") 5%nat rng0).
  - apply nim_conforming. lia.
  - unfold nim_valid. simpl. lia.
  - reflexivity.
  - unfold nim_rank. simpl. lia.
Defined.

Example tie_break_four :
  AlphaBeta.alpha_beta_search (NimGame 3) 5 (4, "A") = Ok (Some 1) /\
  Minimax.minimax_root (NimGame 3) "A" None 5 (4, "A") rng0 = Ok ((Fin (-1), Some 1), rng0) /\
  Minimax.min_value (NimGame 3) "A" None 5 (2, "B") rng0 = Ok (Fin (-1), rng0) /\
  Minimax.min_value (NimGame 3) "A" None 5 (1, "B") rng0 = Ok (Fin (-1), rng0).
Proof. vm_compute. repeat split. Qed.

(** C6, as the code has it.  On a non-terminal state without legal actions
    the loops run zero times and the sentinel comes back with no action from
    [max_value] and [min_value] of the pruning form, from the inner
    [max_value] of [minimax_decision] and from its [min_value] when no
    adversary is given.  With an adversary [min_value] hands the empty list
    over: [RandomAdversary] raises [IndexError]; [OptimalAdversary] and
    [HeuristicAdversary] return [None], which goes to [game.result]. *)
Theorem empty_action_set_sentinels {State Action Player : Type}
  (game : Game State Action Player) (player : Player) (s : State)
  (n : nat) (alpha beta : value) (g : Minimax.rng) :
  is_terminal game s = false -> actions game s = [] ->
  AlphaBeta.max_value game (S n) s player alpha beta = Ok (NegInf, None) /\
  AlphaBeta.min_value game (S n) s player alpha beta = Ok (PosInf, None) /\
  (forall adversary,
      Minimax.max_value game player adversary (S n) s g = Ok (NegInf, g)) /\
  Minimax.min_value game player None (S n) s g = Ok (PosInf, g) /\
  Minimax.min_value game player (Some Minimax.RandomAdversary) (S n) s g
    = Raise IndexError /\
  (forall adv,
      adv = Minimax.OptimalAdversary \/
      (exists heuristic, adv = Minimax.HeuristicAdversary heuristic) ->
      Minimax.choose_action adv s [] game
        (fun st => Minimax.max_value game player (Some adv) n st) (to_move game s) g
        = Ok (None, g) /\
      Minimax.min_value game player (Some adv) (S n) s g =
      Minimax.mbind (Minimax.lift (result_None game s))
        (fun s' => Minimax.max_value game player (Some adv) n s') g).
Proof.
  intros Ht Hnil.
  rewrite ab_max_value_S, ab_min_value_S, mm_min_value_S_None, mm_min_value_S_Some, Ht, Hnil.
  split; [reflexivity|]. split; [reflexivity|]. split.
  { intros adversary. rewrite mm_max_value_S, Ht, Hnil. reflexivity. }
  split; [reflexivity|]. split; [reflexivity|].
  intros adv Hadv. rewrite mm_min_value_S_Some, Ht, Hnil.
  destruct Hadv as [-> | [h ->]]; split; reflexivity.
Qed.

Lemma empty_action_set_sentinels_witness :
  AlphaBeta.max_value (NimGame 3) 1 (-1, "A") "A" NegInf PosInf = Ok (NegInf, None) /\
  AlphaBeta.min_value (NimGame 3) 1 (-1, "A") "A" NegInf PosInf = Ok (PosInf, None) /\
  (forall adversary,
      Minimax.max_value (NimGame 3) "A" adversary 1 (-1, "A") rng0 = Ok (NegInf, rng0)) /\
  Minimax.min_value (NimGame 3) "A" None 1 (-1, "A") rng0 = Ok (PosInf, rng0) /\
  Minimax.min_value (NimGame 3) "A" (Some Minimax.RandomAdversary) 1 (-1, "A") rng0
    = Raise IndexError /\
  (forall adv,
      adv = Minimax.OptimalAdversary \/
      (exists heuristic, adv = Minimax.HeuristicAdversary heuristic) ->
      Minimax.choose_action adv (-1, "A") [] (NimGame 3)
        (fun st => Minimax.max_value (NimGame 3) "A" (Some adv) 0 st)
        (to_move (NimGame 3) (-1, "A")) rng0
        = Ok (None, rng0) /\
      Minimax.min_value (NimGame 3) "A" (Some adv) 1 (-1, "A") rng0 =
      Minimax.mbind (Minimax.lift (result_None (NimGame 3) (-1, "A")))
        (fun s' => Minimax.max_value (NimGame 3) "A" (Some adv) 0 s') rng0).
Proof.
  apply (empty_action_set_sentinels (NimGame 3) "A" (-1, "A") 0 NegInf PosInf rng0).
  - reflexivity.
  - reflexivity.
Defined.

(** C6 as stated fails: the state of -1 tokens of the demonstration game is
    not terminal and has no legal action, and there [min_value] raises with
    each of the adversaries instead of returning [+inf]. *)
Lemma empty_action_set_adversary_raises :
  is_terminal (NimGame 3) (-1, "A") = false /\
  actions (NimGame 3) (-1, "A") = [] /\
  Minimax.min_value (NimGame 3) "A" (Some Minimax.RandomAdversary) 1 (-1, "A") rng0
    = Raise IndexError /\
  Minimax.min_value (NimGame 3) "A" (Some Minimax.OptimalAdversary) 1 (-1, "A") rng0
    = Raise TypeError /\
  Minimax.min_value (NimGame 3) "A" (Some (Minimax.HeuristicAdversary (fun st => Fin (fst st))))
    1 (-1, "A") rng0
    = Raise TypeError /\
  ~ (exists adv,
       (adv = Minimax.OptimalAdversary \/ adv = Minimax.RandomAdversary) /\
       Minimax.min_value (NimGame 3) "A" (Some adv) 1 (-1, "A") rng0 = Ok (PosInf, rng0)).
Proof.
  repeat split.
  intros (adv & [-> | ->] & H); vm_compute in H; discriminate H.
Qed.

(** C7, as the code has it.  [RandomAdversary] returns an element of a
    non-empty list of actions whatever the generator holds, and raises
    [IndexError] on the empty list.  [OptimalAdversary] and
    [HeuristicAdversary] return an element of the list as soon as one
    candidate successor scores below [+inf]; they return [None] on the empty
    list and when every candidate scores [+inf].  Whatever a variant
    returns is [None] or an element of the list. *)
Theorem adversary_choice_member {State Action Player : Type}
  (game : Game State Action Player) (state : State) (acts : list Action)
  (evaluator : State -> Minimax.M value) (heuristic : State -> value)
  (opponent : Player) (g : Minimax.rng) :
  (acts <> [] ->
   exists a g', In a acts /\
     Minimax.choose_action Minimax.RandomAdversary state acts game evaluator opponent g
     = Ok (Some a, g')) /\
  (acts = [] ->
   Minimax.choose_action Minimax.RandomAdversary state acts game evaluator opponent g
   = Raise IndexError) /\
  ((forall a g0, In a acts -> exists x g1, evaluator (result game state a) g0 = Ok (x, g1)) ->
   (exists a, In a acts /\
      forall g0 x g1, evaluator (result game state a) g0 = Ok (x, g1) -> vlt x PosInf) ->
   exists a g', In a acts /\
     Minimax.choose_action Minimax.OptimalAdversary state acts game evaluator opponent g
     = Ok (Some a, g')) /\
  ((exists a, In a acts /\ vlt (heuristic (result game state a)) PosInf) ->
   exists a, In a acts /\
     Minimax.choose_action (Minimax.HeuristicAdversary heuristic) state acts game
       evaluator opponent g
     = Ok (Some a, g)) /\
  ((forall a, In a acts -> heuristic (result game state a) = PosInf) ->
   Minimax.choose_action (Minimax.HeuristicAdversary heuristic) state acts game
     evaluator opponent g
   = Ok (None, g)) /\
  ((forall a g0, In a acts -> evaluator (result game state a) g0 = Ok (PosInf, g0)) ->
   Minimax.choose_action Minimax.OptimalAdversary state acts game evaluator opponent g
   = Ok (None, g)) /\
  (forall adv c g',
     adv = Minimax.OptimalAdversary \/ adv = Minimax.RandomAdversary \/
     adv = Minimax.HeuristicAdversary heuristic ->
     Minimax.choose_action adv state acts game evaluator opponent g = Ok (c, g') ->
     none_or_member acts c).
Proof.
  repeat split.
  - intros Hne. simpl.
    destruct (random_choice_member acts g Hne) as (a & Hin & E).
    unfold Minimax.mbind, Minimax.mret. rewrite E. eauto.
  - intros ->. reflexivity.
  - intros Hev Hgood. simpl.
    destruct (lowest_loop_some game evaluator state acts Hev None PosInf g)
      as (r & g' & HL & [(_ & C) | (a & -> & Hin)]); auto; try congruence.
    eauto.
  - intros (a0 & Hin0 & Hlt). simpl.
    destruct (lowest_loop_some game (fun st => Minimax.mret (heuristic st)) state acts)
      with (ba := @None Action) (bv := PosInf) (g := g)
      as (r & g' & HL & [(_ & C) | (a & -> & Hin)]); auto; try congruence.
    + intros a g0 Ha. unfold Minimax.mret. eauto.
    + right. exists a0. split; [exact Hin0|]. intros g0 x g1 E.
      unfold Minimax.mret in E. inversion E; subst. exact Hlt.
    + exists a. split; [exact Hin|].
      rewrite HL. apply lowest_loop_rng in HL; [congruence|].
      intros st g0 x g1 E. unfold Minimax.mret in E. congruence.
  - intros Hall. simpl. apply lowest_loop_none. intros a g0 Ha.
    unfold Minimax.mret. rewrite (Hall a Ha). reflexivity.
  - intros Hall. simpl. apply lowest_loop_none. exact Hall.
  - intros adv c g' [-> | [-> | ->]] H.
    + apply lowest_loop_member in H. destruct H as [-> | H]; [left|right]; auto.
    + cbn [Minimax.choose_action Minimax.RandomAdversary] in H.
      unfold Minimax.mbind, Minimax.mret in H.
      destruct acts as [|d rest]; [discriminate H|].
      destruct (random_choice_member (d :: rest) g) as (a & Hin & E); [discriminate|].
      rewrite E in H. inversion H; subst. right. eauto.
    + apply lowest_loop_member in H. destruct H as [-> | H]; [left|right]; auto.
Qed.

Lemma adversary_choice_member_witness :
  (exists a g', In a [1; 2; 3] /\
     Minimax.choose_action Minimax.RandomAdversary (7, "A") [1; 2; 3] (NimGame 3)
       (fun st => Minimax.max_value (NimGame 3) "A" (Some Minimax.RandomAdversary) 6 st)
       "B" rng0
     = Ok (Some a, g')) /\
  (exists a, In a [1; 2; 3] /\
     Minimax.choose_action (Minimax.HeuristicAdversary (fun st => Fin (fst st)))
       (7, "A") [1; 2; 3] (NimGame 3)
       (fun st => Minimax.max_value (NimGame 3) "A" (Some Minimax.RandomAdversary) 6 st)
       "B" rng0
     = Ok (Some a, rng0)).
Proof.
  destruct (adversary_choice_member (NimGame 3) (7, "A") [1; 2; 3]
              (fun st => Minimax.max_value (NimGame 3) "A" (Some Minimax.RandomAdversary) 6 st)
              (fun st => Fin (fst st)) "B" rng0)
    as (Hrandom & _ & _ & Hheur & _).
  split.
  - apply Hrandom. discriminate.
  - apply Hheur. exists 1. split; [left; reflexivity | reflexivity].
Defined.

(** C7 as stated fails: on the empty list, and on the three legal actions of
    the state of 7 tokens when the heuristic scores every state [+inf], the
    adversary returns [None], which is not an element of the list. *)
Lemma adversary_choice_not_member :
  Minimax.choose_action Minimax.OptimalAdversary (0, "A") (actions (NimGame 3) (0, "A"))
    (NimGame 3) (fun st => Minimax.max_value (NimGame 3) "A" None 8 st) "A" rng0
  = Ok (None, rng0) /\
  actions (NimGame 3) (7, "A") = [1; 2; 3] /\
  Minimax.choose_action (Minimax.HeuristicAdversary (fun _ => PosInf)) (7, "A")
    (actions (NimGame 3) (7, "A")) (NimGame 3)
    (fun st => Minimax.max_value (NimGame 3) "A" None 8 st) "A" rng0
  = Ok (None, rng0) /\
  ~ (exists a g',
       In a (actions (NimGame 3) (7, "A")) /\
       Minimax.choose_action (Minimax.HeuristicAdversary (fun _ => PosInf)) (7, "A")
         (actions (NimGame 3) (7, "A")) (NimGame 3)
         (fun st => Minimax.max_value (NimGame 3) "A" None 8 st) "A" rng0
       = Ok (Some a, g')).
Proof.
  repeat split.
  intros (a & g' & _ & H). vm_compute in H. discriminate H.
Qed.

(** C8.  In the demonstration game, whatever [max_take] is, from every state
    whose pile is not negative both searches return as soon as the fuel,
    which bounds the depth of nested calls, exceeds the number of tokens,
    which bounds the depth of the action tree: [alpha_beta_search] and
    [minimax_decision] with no adversary, with [OptimalAdversary], with
    [RandomAdversary] and with a [HeuristicAdversary] whose scores are finite
    return an action or [None]; with any [HeuristicAdversary] the search
    returns or raises. *)
Theorem nim_search_terminates (max_take tokens : Z) (to_move player : string)
  (n : nat) (g : Minimax.rng) :
  0 <= tokens -> (Z.to_nat tokens < n)%nat ->
  (exists m, AlphaBeta.alpha_beta_search (NimGame max_take) n (tokens, to_move) = Ok m) /\
  (exists m,
      Minimax.minimax_decision (NimGame max_take) player None n (tokens, to_move) g
      = Ok (m, g)) /\
  (forall adv,
      adv = Minimax.OptimalAdversary \/ adv = Minimax.RandomAdversary \/
      (exists h, (forall st, finite (h st)) /\ adv = Minimax.HeuristicAdversary h) ->
      exists m g',
        Minimax.minimax_decision (NimGame max_take) player (Some adv) n (tokens, to_move) g
        = Ok (m, g')) /\
  (forall h,
      Minimax.minimax_decision (NimGame max_take) player
        (Some (Minimax.HeuristicAdversary h)) n (tokens, to_move) g
      <> OutOfFuel).
Proof.
  intros Htok Hn.
  pose proof (nim_finite_tree max_take) as Hft.
  assert (Hv : nim_valid (tokens, to_move)) by exact Htok.
  assert (Hr : (nim_rank (tokens, to_move) < n)%nat) by exact Hn.
  assert (Hr' : (nim_rank (tokens, to_move) <= n)%nat) by lia.
  split; [|split].
  - apply (ab_total _ _ _ Hft n _ Hv Hr).
  - destruct (mm_root_returns _ _ _ Hft player n (tokens, to_move) g Hv Hr')
      as (V & m & H).
    exists m. unfold Minimax.minimax_decision, Minimax.mbind. rewrite H. reflexivity.
  - destruct (Z_lt_le_dec max_take 1) as [Hsmall | Hmt].
    + assert (Hroot : forall adv,
                Minimax.minimax_decision (NimGame max_take) player adv n (tokens, to_move) g
                = Ok (None, g)).
      { intros adv. unfold Minimax.minimax_decision, Minimax.minimax_root, Minimax.mbind.
        rewrite (nim_no_moves max_take (tokens, to_move) Hsmall Hv). reflexivity. }
      split.
      * intros adv _. rewrite Hroot. eauto.
      * intros h. rewrite Hroot. discriminate.
    + pose proof (nim_conforming max_take Hmt) as Hconf. split.
      * intros adv Hadv.
        apply (mm_decision_total _ _ _ Hconf player (Some adv) n _ g); auto.
        destruct Hadv as [-> | [-> | (h & Hh & ->)]]; simpl.
        -- apply optimal_honours.
        -- apply random_honours.
        -- apply heuristic_honours. exact Hh.
      * intros h.
        apply (mm_decision_halts _ _ _ Hconf player _ n _ g); auto.
        -- intros st. exists TypeError. reflexivity.
        -- apply heuristic_halts.
Qed.

Lemma nim_search_terminates_witness :
  (exists m, AlphaBeta.alpha_beta_search (NimGame 3) 8 (7, "A") = Ok m) /\
  (exists m,
      Minimax.minimax_decision (NimGame 3) "A" None 8 (7, "A") rng0 = Ok (m, rng0)) /\
  (forall adv,
      adv = Minimax.OptimalAdversary \/ adv = Minimax.RandomAdversary \/
      (exists h, (forall st, finite (h st)) /\ adv = Minimax.HeuristicAdversary h) ->
      exists m g',
        Minimax.minimax_decision (NimGame 3) "A" (Some adv) 8 (7, "A") rng0
        = Ok (m, g')) /\
  (forall h,
      Minimax.minimax_decision (NimGame 3) "A"
        (Some (Minimax.HeuristicAdversary h)) 8 (7, "A") rng0
      <> OutOfFuel).
Proof.
  apply (nim_search_terminates 3 7 "A" "A" 8 rng0).
  - lia.
  - simpl. lia.
Defined.

(** C10.  On a terminal state without legal actions whose utility is
    defined, [alpha_beta_search] returns [None] with any fuel that allows
    one call, and [minimax_decision] returns [None] for any player, any
    adversary and any fuel. *)
Theorem terminal_root_no_action {State Action Player : Type}
  (game : Game State Action Player) (s : State) (u : value) :
  is_terminal game s = true -> actions game s = [] ->
  utility game s (to_move game s) = Ok u ->
  (forall n, AlphaBeta.max_value game (S n) s (to_move game s) NegInf PosInf = Ok (u, None)) /\
  (forall n, AlphaBeta.alpha_beta_search game (S n) s = Ok None) /\
  (forall player adversary n g,
      Minimax.minimax_root game player adversary n s g = Ok ((NegInf, None), g) /\
      Minimax.minimax_decision game player adversary n s g = Ok (None, g)).
Proof.
  intros Ht Hnil Hu.
  assert (Hmax : forall n,
             AlphaBeta.max_value game (S n) s (to_move game s) NegInf PosInf = Ok (u, None)).
  { intros n. rewrite ab_max_value_S, Ht, Hu. reflexivity. }
  split; [exact Hmax|]. split.
  - intros n. unfold AlphaBeta.alpha_beta_search. rewrite Hmax. reflexivity.
  - intros player adversary n g.
    unfold Minimax.minimax_decision, Minimax.minimax_root, Minimax.mbind.
    rewrite Hnil. split; reflexivity.
Qed.

Lemma terminal_root_no_action_witness :
  (forall n, AlphaBeta.max_value (NimGame 3) (S n) (0, "A") (to_move (NimGame 3) (0, "A"))
               NegInf PosInf = Ok (Fin (-1), None)) /\
  (forall n, AlphaBeta.alpha_beta_search (NimGame 3) (S n) (0, "A") = Ok None) /\
  (forall player adversary n g,
      Minimax.minimax_root (NimGame 3) player adversary n (0, "A") g = Ok ((NegInf, None), g) /\
      Minimax.minimax_decision (NimGame 3) player adversary n (0, "A") g = Ok (None, g)).
Proof.
  apply (terminal_root_no_action (NimGame 3) (0, "A") (Fin (-1))); reflexivity.
Defined.

(* ------------------------------------------------------------------ *)
(** ** Outside the contract

    Each field of [conforming] that the theorems above rely on is needed:
    [EdgeGame] shows what the code does without it. *)

(** A terminal state that still enumerates a move: [alpha_beta_search] checks
    terminality and returns [None], the root loop of [minimax_decision] does
    not and returns the move. *)
Remark edge_terminal_with_moves :
  is_terminal EdgeGame Over = true /\
  AlphaBeta.alpha_beta_search EdgeGame 3 Over = Ok None /\
  Minimax.minimax_decision EdgeGame "A" None 3 Over rng0 = Ok (Some 0%nat, rng0).
Proof. repeat split. Qed.

(** A non-terminal successor without moves: with no adversary it scores
    [+inf] and the move to it is chosen; [OptimalAdversary] returns [None]
    there and [game.result] raises. *)
Remark edge_stuck_successor :
  Minimax.minimax_decision EdgeGame "A" None 3 Fork rng0 = Ok (Some 0%nat, rng0) /\
  Minimax.minimax_decision EdgeGame "A" (Some Minimax.OptimalAdversary) 3 Fork rng0
    = Raise TypeError.
Proof. repeat split. Qed.

(** Two moves that both score [-inf]: neither beats the initial [-inf], and
    both searches return [None]. *)
Remark edge_all_moves_lose :
  Minimax.min_value EdgeGame "A" None 3 (result EdgeGame Twin 0%nat) rng0
    = Ok (NegInf, rng0) /\
  Minimax.min_value EdgeGame "A" None 3 (result EdgeGame Twin 1%nat) rng0
    = Ok (NegInf, rng0) /\
  AlphaBeta.alpha_beta_search EdgeGame 4 Twin = Ok None /\
  Minimax.minimax_decision EdgeGame "A" None 3 Twin rng0 = Ok (None, rng0).
Proof. repeat split. Qed.

(* ------------------------------------------------------------------ *)
(** * Further properties

    Beyond the claims above: what else the code of the four files
    guarantees. *)

(** ** The two game searches *)

(** X1.  The window of the pruning form.  For any game, player and window
    [alpha < beta], whenever the unpruned evaluation of a node returns [t],
    the pruned [max_value] and [min_value] return a score [r] that is [t]
    itself when it falls strictly inside the window, an upper bound of [t]
    when [r <= alpha] and a lower bound of [t] when [r >= beta]. *)
Theorem alpha_beta_window {State Action Player : Type}
  (game : Game State Action Player) (player : Player) (n : nat) (s : State)
  (alpha beta t : value) (g g' : Minimax.rng) :
  vlt alpha beta ->
  (Minimax.max_value game player None n s g = Ok (t, g') ->
   exists r m,
     AlphaBeta.max_value game n s player alpha beta = Ok (r, m) /\
     (vle r alpha -> vle t r) /\
     (vlt alpha r -> vlt r beta -> t = r) /\
     (vle beta r -> vle r t)) /\
  (Minimax.min_value game player None n s g = Ok (t, g') ->
   exists r m,
     AlphaBeta.min_value game n s player alpha beta = Ok (r, m) /\
     (vle r alpha -> vle t r) /\
     (vlt alpha r -> vlt r beta -> t = r) /\
     (vle beta r -> vle r t)).
Proof.
  intros Hw. destruct (ab_prunes game player n) as [Hmax Hmin]. split; intros H.
  - destruct (Hmax s alpha beta g t g' Hw H) as (r & m & Hr & Hb). eauto.
  - destruct (Hmin s alpha beta g t g' Hw H) as (r & m & Hr & Hb). eauto.
Qed.

(** A window that cuts: from 5 tokens the unpruned score is 1, and with the
    window (-inf, 0) the pruned search stops at the first move that reaches
    the bound. *)
Lemma alpha_beta_window_witness :
  exists r m,
    AlphaBeta.max_value (NimGame 3) 6 (5, "A") "A" NegInf (Fin 0) = Ok (r, m) /\
    (vle r NegInf -> vle (Fin 1) r) /\
    (vlt NegInf r -> vlt r (Fin 0) -> Fin 1 = r) /\
    (vle (Fin 0) r -> vle r (Fin 1)).
Proof.
  apply (alpha_beta_window (NimGame 3) "A" 6 (5, "A") NegInf (Fin 0) (Fin 1) rng0 rng0).
  - reflexivity.
  - reflexivity.
Defined.

Lemma ab_max_loop_member {State Action Player : Type}
  (game : Game State Action Player) child s beta acts :
  forall v bm alpha r m,
    AlphaBeta.max_loop game child s beta acts v bm alpha = Ok (r, m) ->
    m = bm \/ exists a, m = Some a /\ In a acts.
Proof.
  induction acts as [|a rest IH]; simpl; intros v bm alpha r m H.
  - inversion H; auto.
  - destruct (child (result game s a) alpha beta) as [x| |]; simpl in H; try discriminate.
    destruct (vgtb (fst x) v).
    + destruct (vgeb (fst x) beta).
      * inversion H; subst. right. eauto.
      * apply IH in H. destruct H as [-> | (a' & -> & Hin)]; right; eauto.
    + destruct (vgeb v beta).
      * inversion H; auto.
      * apply IH in H. destruct H as [-> | (a' & -> & Hin)]; [left|right]; eauto.
Qed.

Lemma decision_loop_member {State Action Player : Type}
  (game : Game State Action Player) (f : State -> Minimax.M value) s acts :
  forall ba bv g V b g',
    Minimax.decision_loop game f s acts ba bv g = Ok ((V, b), g') ->
    b = ba \/ exists a, b = Some a /\ In a acts.
Proof.
  induction acts as [|a rest IH]; simpl; intros ba bv g V b g' H.
  - inversion H; auto.
  - unfold Minimax.mbind in H.
    destruct (f (result game s a) g) as [[x g1]| |]; try discriminate.
    destruct (vgtb x bv); apply IH in H;
      destruct H as [-> | (a' & -> & Hin)]; eauto.
Qed.

(** X2.  Neither search ever returns an illegal move: for any game, any
    adversary and any fuel, an action returned by [alpha_beta_search] or by
    [minimax_decision] is one of [game.actions(state)]; [alpha_beta_search]
    moreover returns an action only from a non-terminal state. *)
Theorem search_returns_legal_action {State Action Player : Type}
  (game : Game State Action Player) (s : State) (a : Action) :
  (forall n, AlphaBeta.alpha_beta_search game n s = Ok (Some a) ->
     In a (actions game s) /\ is_terminal game s = false) /\
  (forall player adversary n g g',
     Minimax.minimax_decision game player adversary n s g = Ok (Some a, g') ->
     In a (actions game s)).
Proof.
  split.
  - intros n H. unfold AlphaBeta.alpha_beta_search in H.
    destruct n as [|n]; [discriminate H|].
    rewrite ab_max_value_S in H.
    destruct (is_terminal game s).
    + destruct (utility game s (to_move game s)); discriminate H.
    + destruct (AlphaBeta.max_loop game _ s PosInf (actions game s) NegInf None NegInf)
        as [[r m]| |] eqn:E; try discriminate H.
      simpl in H. inversion H; subst m.
      apply ab_max_loop_member in E.
      destruct E as [E | (a' & E & Hin)]; [discriminate E|].
      inversion E; subst. auto.
  - intros player adversary n g g' H.
    unfold Minimax.minimax_decision, Minimax.minimax_root, Minimax.mbind in H.
    destruct (Minimax.decision_loop game _ s (actions game s) None NegInf g)
      as [[[V b] g1]| |] eqn:E; try discriminate H.
    unfold Minimax.mret in H. simpl in H. inversion H; subst.
    apply decision_loop_member in E.
    destruct E as [E | (a' & E & Hin)]; [discriminate E|].
    inversion E; subst. auto.
Qed.

Lemma search_returns_legal_action_witness :
  In 3 (actions (NimGame 3) (7, "A")) /\ is_terminal (NimGame 3) (7, "A") = false.
Proof.
  apply (proj1 (search_returns_legal_action (NimGame 3) (7, "A") 3) 8%nat).
  reflexivity.
Defined.

Lemma vle_trans a b c : vle a b -> vle b c -> vle a c.
Proof. vorder. Qed.

Lemma py_max_mono a b c d : vle a b -> vle c d -> vle (py_max a c) (py_max b d).
Proof. vorder. Qed.

Lemma py_min_le_l a b : vle (py_min a b) a.
Proof. vorder. Qed.

Lemma py_min_le_r a b : vle (py_min a b) b.
Proof. vorder. Qed.

Section Exploit.
Context {State Action Player : Type}.
Variable game : Game State Action Player.

(** Two runs of the maximising loop, the children of the first scoring at
    least as much as those of the second. *)
Lemma max_loop_dominates (fa fm : State -> Minimax.M value) s acts :
  (forall a, In a acts ->
     forall g va g' g0 vm g0',
       fa (result game s a) g = Ok (va, g') ->
       fm (result game s a) g0 = Ok (vm, g0') -> vle vm va) ->
  forall va0 vm0 g va g' g0 vm g0',
    vle vm0 va0 ->
    Minimax.max_loop game fa s acts va0 g = Ok (va, g') ->
    Minimax.max_loop game fm s acts vm0 g0 = Ok (vm, g0') ->
    vle vm va.
Proof.
  induction acts as [|a rest IH]; simpl; intros Hf va0 vm0 g va g' g0 vm g0' H0 Ha Hm.
  - inversion Ha; inversion Hm; subst. exact H0.
  - unfold Minimax.mbind in *.
    destruct (fa (result game s a) g) as [[xa g1]| |] eqn:Ea; try discriminate.
    destruct (fm (result game s a) g0) as [[xm g2]| |] eqn:Em; try discriminate.
    eapply IH; [ | | exact Ha | exact Hm ].
    + intros b Hb. apply Hf. right. exact Hb.
    + apply py_max_mono; [exact H0|]. eapply (Hf a (or_introl eq_refl)); eauto.
Qed.

Lemma decision_loop_dominates (fa fm : State -> Minimax.M value) s acts :
  (forall a, In a acts ->
     forall g va g' g0 vm g0',
       fa (result game s a) g = Ok (va, g') ->
       fm (result game s a) g0 = Ok (vm, g0') -> vle vm va) ->
  forall ba bm va0 vm0 g va b g' g0 vm b0 g0',
    vle vm0 va0 ->
    Minimax.decision_loop game fa s acts ba va0 g = Ok ((va, b), g') ->
    Minimax.decision_loop game fm s acts bm vm0 g0 = Ok ((vm, b0), g0') ->
    vle vm va.
Proof.
  intros Hf ba bm va0 vm0 g va b g' g0 vm b0 g0' H0 Ha Hm.
  apply decision_loop_value in Ha. apply decision_loop_value in Hm.
  eapply max_loop_dominates; eauto.
Qed.

(** The minimising loop ends at or below the score of every child. *)
Lemma min_loop_le_child (f : State -> Minimax.M value) s acts :
  forall v g vm g',
    Minimax.min_loop game f s acts v g = Ok (vm, g') ->
    forall a, In a acts ->
      exists g1 x g2, f (result game s a) g1 = Ok (x, g2) /\ vle vm x.
Proof.
  induction acts as [|a rest IH]; simpl; intros v g vm g' H b Hb; [destruct Hb|].
  unfold Minimax.mbind in H.
  destruct (f (result game s a) g) as [[x g1]| |] eqn:E; try discriminate.
  destruct Hb as [<- | Hb].
  - exists g, x, g1. split; [exact E|].
    apply mm_min_loop_le in H. eapply vle_trans; [exact H|]. apply py_min_le_r.
  - eapply IH; eauto.
Qed.

Variable player : Player.
Variable adv : Minimax.Adversary State Action Player.
Hypothesis Hnone : forall s, exists e, result_None game s = Raise e.
Hypothesis Hadv : forall state acts gm ev opp g c g',
  Minimax.choose_action adv state acts gm ev opp g = Ok (c, g') ->
  none_or_member acts c.

Lemma adversary_dominates n :
  forall s g va g' g0 vm g0',
    (Minimax.max_value game player (Some adv) n s g = Ok (va, g') ->
     Minimax.max_value game player None n s g0 = Ok (vm, g0') -> vle vm va) /\
    (Minimax.min_value game player (Some adv) n s g = Ok (va, g') ->
     Minimax.min_value game player None n s g0 = Ok (vm, g0') -> vle vm va).
Proof.
  induction n as [|n IH]; intros s g va g' g0 vm g0'.
  - split; intros H; discriminate H.
  - split; intros Ha Hm.
    + rewrite mm_max_value_S in Ha, Hm. destruct (is_terminal game s).
      * unfold Minimax.lift in *. destruct (utility game s player); try discriminate.
        inversion Ha; inversion Hm; subst. apply vltb_irrefl.
      * eapply max_loop_dominates; [ | | exact Ha | exact Hm ].
        -- intros a _ g1 xa g1' g2 xm g2' E1 E2.
           apply (proj2 (IH _ g1 xa g1' g2 xm g2') E1 E2).
        -- reflexivity.
    + rewrite mm_min_value_S_Some in Ha. rewrite mm_min_value_S_None in Hm.
      destruct (is_terminal game s).
      * unfold Minimax.lift in *. destruct (utility game s player); try discriminate.
        inversion Ha; inversion Hm; subst. apply vltb_irrefl.
      * unfold Minimax.mbind in Ha.
        destruct (Minimax.choose_action adv s (actions game s) game _ (to_move game s) g)
          as [[c g1]| |] eqn:Ec; try discriminate.
        apply Hadv in Ec. destruct Ec as [-> | (a & -> & Hin)].
        -- simpl in Ha. unfold Minimax.lift in Ha.
           destruct (Hnone s) as [e He]. rewrite He in Ha. discriminate.
        -- simpl in Ha.
           destruct (min_loop_le_child _ _ _ _ _ _ _ Hm a Hin) as (g2 & x & g3 & Ex & Hle).
           eapply vle_trans; [exact Hle|].
           apply (proj1 (IH _ g1 va g' g2 x g3) Ha Ex).
Qed.

End Exploit.

(** X3.  Against [OptimalAdversary], [RandomAdversary] or any
    [HeuristicAdversary], in a game whose [result] rejects [None], the score
    that the inner [max_value] and the root loop of [minimax_decision]
    compute is never below the score computed with no adversary: modelling
    the opponent can only raise the value the searcher expects. *)
Theorem adversary_value_at_least_minimax {State Action Player : Type}
  (game : Game State Action Player) (player : Player)
  (adv : Minimax.Adversary State Action Player) (n : nat) (s : State)
  (g g' g0 g0' : Minimax.rng) (va vm : value) :
  (forall st, exists e, result_None game st = Raise e) ->
  adv = Minimax.OptimalAdversary \/ adv = Minimax.RandomAdversary \/
  (exists h, adv = Minimax.HeuristicAdversary h) ->
  (Minimax.max_value game player (Some adv) n s g = Ok (va, g') ->
   Minimax.max_value game player None n s g0 = Ok (vm, g0') -> vle vm va) /\
  (forall b b0,
     Minimax.minimax_root game player (Some adv) n s g = Ok ((va, b), g') ->
     Minimax.minimax_root game player None n s g0 = Ok ((vm, b0), g0') -> vle vm va).
Proof.
  intros Hnone Hvar.
  assert (Hadv : forall state acts gm ev opp g1 c g1',
             Minimax.choose_action adv state acts gm ev opp g1 = Ok (c, g1') ->
             none_or_member acts c).
  { intros state acts gm ev opp g1 c g1' H.
    destruct Hvar as [-> | [-> | [h ->]]].
    - apply lowest_loop_member in H. destruct H as [-> | H]; [left|right]; auto.
    - cbn [Minimax.choose_action Minimax.RandomAdversary] in H.
      unfold Minimax.mbind, Minimax.mret in H.
      destruct acts as [|d rest]; [discriminate H|].
      destruct (random_choice_member (d :: rest) g1) as (a & Hin & E); [discriminate|].
      rewrite E in H. inversion H; subst. right. eauto.
    - apply lowest_loop_member in H. destruct H as [-> | H]; [left|right]; auto. }
  split.
  - apply (adversary_dominates game player adv Hnone Hadv n s g va g' g0 vm g0').
  - intros b b0 Ha Hm. unfold Minimax.minimax_root in Ha, Hm.
    eapply decision_loop_dominates; [ | | exact Ha | exact Hm ].
    + intros a _ g1 xa g1' g2 xm g2' E1 E2.
      apply (proj2 (adversary_dominates game player adv Hnone Hadv n _ g1 xa g1' g2 xm g2')
               E1 E2).
    + reflexivity.
Qed.

(** Against the greedy adversary of the demonstration (it leaves the fewest
    tokens) the position of 8 tokens, lost against best play, is won. *)
Lemma adversary_value_at_least_minimax_witness :
  Minimax.max_value (NimGame 3) "A"
    (Some (Minimax.HeuristicAdversary (fun st => Fin (fst st)))) 9 (8, "A") rng0
    = Ok (Fin 1, rng0) /\
  Minimax.max_value (NimGame 3) "A" None 9 (8, "A") rng0 = Ok (Fin (-1), rng0) /\
  vle (Fin (-1)) (Fin 1).
Proof.
  split; [reflexivity|]. split; [reflexivity|].
  refine (proj1 (adversary_value_at_least_minimax (NimGame 3) "A"
            (Minimax.HeuristicAdversary (fun st => Fin (fst st))) 9 (8, "A")
            rng0 rng0 rng0 rng0 (Fin 1) (Fin (-1)) _ _) _ _).
  - intros st. exists TypeError. reflexivity.
  - right. right. eexists. reflexivity.
  - reflexivity.
  - reflexivity.
Defined.

Section LoopBounds.
Context {State Action Player : Type}.
Variable game : Game State Action Player.

Lemma max_loop_bounds (f : State -> Minimax.M value) s g acts (val : Action -> value) :
  (forall a, In a acts -> f (result game s a) g = Ok (val a, g)) ->
  forall v, exists V,
    Minimax.max_loop game f s acts v g = Ok (V, g) /\
    vle v V /\
    (forall a, In a acts -> vle (val a) V) /\
    (V = v \/ exists a, In a acts /\ V = val a).
Proof.
  induction acts as [|a rest IH]; intros Hf v.
  - exists v. repeat split; auto. apply vltb_irrefl. intros a [].
  - simpl. unfold Minimax.mbind. rewrite (Hf a (or_introl eq_refl)).
    destruct (IH (fun b Hb => Hf b (or_intror Hb)) (py_max v (val a)))
      as (V & HL & Hge & Hall & Hin).
    exists V. split; [exact HL|]. split; [|split].
    + remember (val a) as x. clear - Hge. vorder.
    + intros b [<- | Hb]; [remember (val a) as x; clear - Hge; vorder | auto].
    + destruct Hin as [-> | (b & Hb & ->)].
      * unfold py_max. destruct (vgtb (val a) v); [right; exists a; split; auto; left; auto | left; auto].
      * right. exists b. split; [right; exact Hb | reflexivity].
Qed.

Lemma min_loop_bounds (f : State -> Minimax.M value) s g acts (val : Action -> value) :
  (forall a, In a acts -> f (result game s a) g = Ok (val a, g)) ->
  forall v, exists V,
    Minimax.min_loop game f s acts v g = Ok (V, g) /\
    vle V v /\
    (forall a, In a acts -> vle V (val a)) /\
    (V = v \/ exists a, In a acts /\ V = val a).
Proof.
  induction acts as [|a rest IH]; intros Hf v.
  - exists v. repeat split; auto. apply vltb_irrefl. intros a [].
  - simpl. unfold Minimax.mbind. rewrite (Hf a (or_introl eq_refl)).
    destruct (IH (fun b Hb => Hf b (or_intror Hb)) (py_min v (val a)))
      as (V & HL & Hge & Hall & Hin).
    exists V. split; [exact HL|]. split; [|split].
    + remember (val a) as x. clear - Hge. vorder.
    + intros b [<- | Hb]; [remember (val a) as x; clear - Hge; vorder | auto].
    + destruct Hin as [-> | (b & Hb & ->)].
      * unfold py_min. destruct (vltb (val a) v); [right; exists a; split; auto; left; auto | left; auto].
      * right. exists b. split; [right; exact Hb | reflexivity].
Qed.
End LoopBounds.

Section NimStrategy.
Variable max_take : Z.
Hypothesis Hmt : 1 <= max_take.

Lemma nim_mod_move (t : Z) :
  1 <= t ->
  (t mod (max_take + 1) <> 0 <->
   exists a, 1 <= a <= Z.min max_take t /\ (t - a) mod (max_take + 1) = 0).
Proof.
  intros Ht. set (k := max_take + 1). assert (Hk : 0 < k) by (unfold k; lia).
  pose proof (Z.mod_pos_bound t k Hk) as Hb.
  pose proof (Z.div_mod t k ltac:(lia)) as Hd.
  split.
  - intros Hne. exists (t mod k). split.
    + assert (t mod k <= t) by (apply Z.mod_le; lia). unfold k in *. lia.
    + replace (t - t mod k) with (t / k * k) by lia. apply Z.mod_mul. lia.
  - intros (a & Ha & Hz) Hc.
    assert (Hta : (t - a) mod k = (t mod k - a mod k) mod k) by (apply Zminus_mod).
    rewrite Hz, Hc in Hta. simpl in Hta.
    assert (Hsm : a mod k = a) by (apply Z.mod_small; unfold k; lia).
    rewrite Hsm in Hta.
    assert (Hn : (- a) mod k = k - a).
    { symmetry. apply Z.mod_unique_pos with (q := -1); lia. }
    rewrite Hn in Hta. unfold k in *. lia.
Qed.

Lemma nim_mod_unique (t a : Z) :
  1 <= a <= max_take -> (t - a) mod (max_take + 1) = 0 -> t mod (max_take + 1) = a.
Proof.
  intros Ha Hz. set (k := max_take + 1) in *. assert (Hk : 0 < k) by (unfold k; lia).
  replace t with (a + (t - a)) at 1 by lia.
  rewrite Z.add_mod by lia. rewrite Hz, Z.add_0_r, Z.mod_mod by lia.
  apply Z.mod_small. unfold k. lia.
Qed.

Lemma nim_score_cases t :
  (t mod (max_take + 1) = 0 /\ nim_score max_take t = Fin (-1)) \/
  (t mod (max_take + 1) <> 0 /\ nim_score max_take t = Fin 1).
Proof.
  unfold nim_score. destruct (Z.eqb_spec (t mod (max_take + 1)) 0); auto.
Qed.

Lemma other_involutive p : p = "A" \/ p = "B" -> other (other p) = p.
Proof. intros [-> | ->]; reflexivity. Qed.

Lemma other_AB p : other p = "A" \/ other p = "B".
Proof. unfold other. destruct (String.eqb p "A"); auto. Qed.

Lemma other_neq p : String.eqb (other p) p = false.
Proof.
  unfold other. destruct (String.eqb p "A") eqn:E.
  - apply String.eqb_eq in E. subst. reflexivity.
  - rewrite String.eqb_sym. exact E.
Qed.

(** Both evaluations of the unpruned search on the demonstration game: a
    maximising node where [player] is to move scores [nim_score], a
    minimising node where the opponent is to move scores its negation. *)
Lemma nim_values n :
  forall t player g,
    0 <= t -> (Z.to_nat t < n)%nat -> player = "A" \/ player = "B" ->
    Minimax.max_value (NimGame max_take) player None n (t, player) g
      = Ok (nim_score max_take t, g) /\
    Minimax.min_value (NimGame max_take) player None n (t, other player) g
      = Ok (vneg (nim_score max_take t), g).
Proof.
  induction n as [|n IH]; intros t player g Ht Hn Hp; [lia|].
  rewrite mm_max_value_S, mm_min_value_S_None.
  change (is_terminal (NimGame max_take) (t, player)) with (t =? 0).
  change (is_terminal (NimGame max_take) (t, other player)) with (t =? 0).
  destruct (Z.eqb_spec t 0) as [-> | Hnz].
  - split.
    + unfold Minimax.lift. simpl. fold (other player). rewrite other_neq. reflexivity.
    + unfold Minimax.lift. simpl. fold (other (other player)).
      rewrite other_involutive by exact Hp. rewrite String.eqb_refl. reflexivity.
  - assert (Ht1 : 1 <= t) by lia.
    assert (Hone : In 1 (actions (NimGame max_take) (t, player))).
    { apply nim_actions_In. lia. }
    assert (Hone' : In 1 (actions (NimGame max_take) (t, other player))).
    { apply nim_actions_In. lia. }
    split.
    + destruct (max_loop_bounds (NimGame max_take)
                  (fun st => Minimax.min_value (NimGame max_take) player None n st)
                  (t, player) g (actions (NimGame max_take) (t, player))
                  (fun a => vneg (nim_score max_take (t - a)))) with (v := NegInf)
        as (V & HL & _ & Hall & Hin).
      { intros a Ha. apply nim_actions_In in Ha.
        change (result (NimGame max_take) (t, player) a) with (t - a, other player).
        apply IH; auto; lia. }
      rewrite HL. f_equal. f_equal.
      destruct (nim_score_cases t) as [[Hz ->] | [Hz ->]].
      * destruct Hin as [-> | (a & Ha & ->)].
        -- specialize (Hall 1 Hone).
           destruct (nim_score_cases (t - 1)) as [[_ E1] | [_ E1]];
             rewrite E1 in Hall; discriminate Hall.
        -- apply nim_actions_In in Ha.
           destruct (nim_score_cases (t - a)) as [[Hza _] | [_ ->]]; [|reflexivity].
           exfalso. apply (proj2 (nim_mod_move t Ht1)); [|exact Hz]. eauto.
      * apply (nim_mod_move t Ht1) in Hz. destruct Hz as (a & Ha & Hza).
        assert (Hain : In a (actions (NimGame max_take) (t, player)))
          by (apply nim_actions_In; exact Ha).
        specialize (Hall a Hain).
        destruct (nim_score_cases (t - a)) as [[_ E] | [C _]]; [|contradiction].
        rewrite E in Hall. simpl in Hall.
        destruct Hin as [-> | (b & Hb & ->)]; [discriminate Hall|].
        destruct (nim_score_cases (t - b)) as [[_ ->] | [_ Eb]]; [reflexivity|].
        rewrite Eb in Hall. discriminate Hall.
    + destruct (min_loop_bounds (NimGame max_take)
                  (fun st => Minimax.max_value (NimGame max_take) player None n st)
                  (t, other player) g (actions (NimGame max_take) (t, other player))
                  (fun a => nim_score max_take (t - a))) with (v := PosInf)
        as (V & HL & _ & Hall & Hin).
      { intros a Ha. apply nim_actions_In in Ha.
        change (result (NimGame max_take) (t, other player) a)
          with (t - a, other (other player)).
        rewrite other_involutive by exact Hp.
        apply IH; auto; lia. }
      rewrite HL. f_equal. f_equal.
      destruct (nim_score_cases t) as [[Hz ->] | [Hz ->]].
      * destruct Hin as [-> | (a & Ha & ->)].
        -- specialize (Hall 1 Hone').
           destruct (nim_score_cases (t - 1)) as [[_ E1] | [_ E1]];
             rewrite E1 in Hall; discriminate Hall.
        -- apply nim_actions_In in Ha.
           destruct (nim_score_cases (t - a)) as [[Hza _] | [_ ->]]; [|reflexivity].
           exfalso. apply (proj2 (nim_mod_move t Ht1)); [|exact Hz]. eauto.
      * apply (nim_mod_move t Ht1) in Hz. destruct Hz as (a & Ha & Hza).
        assert (Hain : In a (actions (NimGame max_take) (t, other player)))
          by (apply nim_actions_In; exact Ha).
        specialize (Hall a Hain).
        destruct (nim_score_cases (t - a)) as [[_ E] | [C _]]; [|contradiction].
        rewrite E in Hall. simpl.
        destruct Hin as [-> | (b & Hb & ->)]; [discriminate Hall|].
        destruct (nim_score_cases (t - b)) as [[_ ->] | [_ Eb]]; [reflexivity|].
        rewrite Eb in Hall. discriminate Hall.
Qed.

End NimStrategy.

Lemma nim_actions_head (max_take t : Z) (p : string) :
  1 <= max_take -> 1 <= t ->
  exists rest, actions (NimGame max_take) (t, p) = 1 :: rest.
Proof.
  intros Hmt Ht. simpl. unfold py_range.
  destruct (Z.to_nat (Z.min max_take t + 1 - 1)) as [|m] eqn:E; [lia|].
  simpl. eauto.
Qed.

Lemma nim_first_best (max_take t : Z) (p : string) (n : nat) (g : Minimax.rng) (a : Z) :
  1 <= max_take -> 1 <= t -> (Z.to_nat t < n)%nat -> p = "A" \/ p = "B" ->
  first_best (NimGame max_take) p n (t, p) g a -> a = nim_best_take max_take t.
Proof.
  intros Hmt Ht Hn Hp (l1 & l2 & V & Hacts & Ha & H1 & H2).
  assert (Hval : forall b, In b (actions (NimGame max_take) (t, p)) ->
            Minimax.min_value (NimGame max_take) p None n
              (result (NimGame max_take) (t, p) b) g
            = Ok (vneg (nim_score max_take (t - b)), g)).
  { intros b Hb. apply nim_actions_In in Hb.
    change (result (NimGame max_take) (t, p) b) with (t - b, other p).
    apply (nim_values max_take Hmt n (t - b) p g); auto; lia. }
  assert (Hain : In a (actions (NimGame max_take) (t, p))).
  { rewrite Hacts. apply in_or_app. right. left. reflexivity. }
  rewrite (Hval a Hain) in Ha. inversion Ha as [HV]. clear Ha.
  pose proof (proj1 (nim_actions_In max_take t p a) Hain) as Harange.
  unfold nim_best_take.
  destruct (Z.eqb_spec (t mod (max_take + 1)) 0) as [Hz | Hz].
  - (* lost position: every move scores -1, so nothing precedes [a] *)
    destruct l1 as [|b l1].
    + destruct (nim_actions_head max_take t p Hmt Ht) as [rest Hh].
      rewrite Hh in Hacts. simpl in Hacts. inversion Hacts. reflexivity.
    + exfalso.
      assert (Hbin : In b (actions (NimGame max_take) (t, p))).
      { rewrite Hacts. left. reflexivity. }
      destruct (H1 b (or_introl eq_refl)) as (x & Hx & Hlt).
      rewrite (Hval b Hbin) in Hx. inversion Hx; subst x. clear Hx.
      apply nim_actions_In in Hbin.
      assert (Hsb : nim_score max_take (t - b) = Fin 1).
      { destruct (nim_score_cases max_take (t - b)) as [[C _] | [_ E]]; [|exact E].
        exfalso. apply (proj2 (nim_mod_move max_take Hmt t Ht)); [|exact Hz]. eauto. }
      assert (Hsa : nim_score max_take (t - a) = Fin 1).
      { destruct (nim_score_cases max_take (t - a)) as [[C _] | [_ E]]; [|exact E].
        exfalso. apply (proj2 (nim_mod_move max_take Hmt t Ht)); [|exact Hz]. eauto. }
      rewrite Hsb in Hlt. rewrite <- HV, Hsa in Hlt. discriminate Hlt.
  - (* won position: the move to the multiple scores 1 *)
    destruct (proj1 (nim_mod_move max_take Hmt t Ht) Hz) as (w & Hw & Hwz).
    assert (Hwin : In w (actions (NimGame max_take) (t, p)))
      by (apply nim_actions_In; exact Hw).
    assert (Hsw : nim_score max_take (t - w) = Fin (-1)).
    { destruct (nim_score_cases max_take (t - w)) as [[_ E] | [C _]]; [exact E|contradiction]. }
    assert (Hsa : nim_score max_take (t - a) = Fin (-1)).
    { destruct (nim_score_cases max_take (t - a)) as [[_ E] | [_ E]]; [exact E|].
      exfalso. rewrite E in HV. simpl in HV. subst V.
      rewrite Hacts in Hwin. apply in_app_or in Hwin.
      destruct Hwin as [Hw1 | [Hw1 | Hw2]].
      - destruct (H1 w Hw1) as (x & Hx & Hlt).
        assert (Hw' : In w (actions (NimGame max_take) (t, p)))
          by (apply nim_actions_In; exact Hw).
        rewrite (Hval w Hw') in Hx. inversion Hx; subst x.
        rewrite Hsw in Hlt. discriminate Hlt.
      - subst w. rewrite E in Hsw. discriminate Hsw.
      - destruct (H2 w Hw2) as (x & Hx & Hle).
        assert (Hw' : In w (actions (NimGame max_take) (t, p)))
          by (apply nim_actions_In; exact Hw).
        rewrite (Hval w Hw') in Hx. inversion Hx; subst x.
        rewrite Hsw in Hle. discriminate Hle. }
    symmetry. apply (nim_mod_unique max_take Hmt t a); [lia|].
    destruct (nim_score_cases max_take (t - a)) as [[E _] | [_ E]]; [exact E|].
    rewrite E in Hsa. discriminate Hsa.
Qed.

(** X4.  The value of the demonstration game.  With [max_take >= 1], from a
    pile that is not negative with A or B to move, the unpruned [max_value]
    and the pruned [max_value] with the full window both score the position,
    for the player to move, -1 when the pile is a multiple of
    [max_take + 1] and 1 otherwise. *)
Theorem nim_minimax_value (max_take tokens : Z) (player : string)
  (n : nat) (g : Minimax.rng) :
  1 <= max_take -> 0 <= tokens -> (Z.to_nat tokens < n)%nat ->
  player = "A" \/ player = "B" ->
  Minimax.max_value (NimGame max_take) player None n (tokens, player) g
    = Ok (nim_score max_take tokens, g) /\
  exists m,
    AlphaBeta.max_value (NimGame max_take) n (tokens, player) player NegInf PosInf
    = Ok (nim_score max_take tokens, m).
Proof.
  intros Hmt Ht Hn Hp.
  pose proof (proj1 (nim_values max_take Hmt n tokens player g Ht Hn Hp)) as Hmm.
  split; [exact Hmm|].
  destruct (proj1 (ab_prunes (NimGame max_take) player n) (tokens, player)
              NegInf PosInf g _ g eq_refl Hmm) as (r & m & Hab & H1 & H2 & H3).
  exists m. rewrite Hab. f_equal. f_equal.
  destruct (nim_score_cases max_take tokens) as [[_ E] | [_ E]]; rewrite E in *;
    destruct r; try reflexivity;
    try (specialize (H1 eq_refl); discriminate H1);
    try (specialize (H3 eq_refl); discriminate H3);
    symmetry; apply H2; reflexivity.
Qed.

Lemma nim_minimax_value_witness :
  Minimax.max_value (NimGame 3) "A" None 13 (12, "A") rng0 = Ok (nim_score 3 12, rng0) /\
  exists m,
    AlphaBeta.max_value (NimGame 3) 13 (12, "A") "A" NegInf PosInf = Ok (nim_score 3 12, m).
Proof.
  apply (nim_minimax_value 3 12 "A" 13 rng0).
  - lia.
  - lia.
  - simpl. lia.
  - left. reflexivity.
Defined.

(** X5.  The move of the demonstration game.  With [max_take >= 1], from a
    pile of at least one token with A or B to move, [alpha_beta_search] and
    [minimax_decision] (for the player to move, with no adversary and with
    [OptimalAdversary]) all return the move that leaves a multiple of
    [max_take + 1], and the move 1 when the pile already is such a
    multiple. *)
Theorem nim_best_action (max_take tokens : Z) (player : string)
  (n : nat) (g : Minimax.rng) :
  1 <= max_take -> 1 <= tokens -> (Z.to_nat tokens < n)%nat ->
  player = "A" \/ player = "B" ->
  AlphaBeta.alpha_beta_search (NimGame max_take) n (tokens, player)
    = Ok (Some (nim_best_take max_take tokens)) /\
  Minimax.minimax_decision (NimGame max_take) player None n (tokens, player) g
    = Ok (Some (nim_best_take max_take tokens), g) /\
  Minimax.minimax_decision (NimGame max_take) player (Some Minimax.OptimalAdversary)
    n (tokens, player) g
    = Ok (Some (nim_best_take max_take tokens), g).
Proof.
  intros Hmt Ht Hn Hp.
  pose proof (nim_conforming max_take Hmt) as Hconf.
  assert (Hv : nim_valid (tokens, player)) by (unfold nim_valid; simpl; lia).
  assert (Hnt : is_terminal (NimGame max_take) (tokens, player) = false).
  { simpl. apply Z.eqb_neq. lia. }
  assert (Hr : (nim_rank (tokens, player) <= n)%nat) by (unfold nim_rank; simpl; lia).
  destruct (mm_root_first _ _ _ Hconf player n (tokens, player) g Hv Hnt Hr)
    as (V & a & Hroot & Hfb).
  apply (nim_first_best max_take tokens player n g a Hmt Ht Hn Hp) in Hfb. subst a.
  split; [|split].
  - destruct (ab_first_best _ _ _ Hconf n (tokens, player) g Hv Hnt Hn) as (a & Hfb & Hab).
    change (to_move (NimGame max_take) (tokens, player)) with player in Hfb.
    apply (nim_first_best max_take tokens player n g a Hmt Ht Hn Hp) in Hfb. subst a.
    exact Hab.
  - unfold Minimax.minimax_decision, Minimax.mbind. rewrite Hroot. reflexivity.
  - unfold Minimax.minimax_decision, Minimax.mbind.
    rewrite (optimal_root_same _ _ _ Hconf player n (tokens, player) g Hv Hr).
    rewrite Hroot. reflexivity.
Qed.

Lemma nim_best_action_witness :
  AlphaBeta.alpha_beta_search (NimGame 3) 11 (10, "B") = Ok (Some (nim_best_take 3 10)) /\
  Minimax.minimax_decision (NimGame 3) "B" None 11 (10, "B") rng0
    = Ok (Some (nim_best_take 3 10), rng0) /\
  Minimax.minimax_decision (NimGame 3) "B" (Some Minimax.OptimalAdversary) 11 (10, "B") rng0
    = Ok (Some (nim_best_take 3 10), rng0).
Proof.
  apply (nim_best_action 3 10 "B" 11 rng0).
  - lia.
  - lia.
  - simpl. lia.
  - right. reflexivity.
Defined.

Lemma nim_depth (max_take : Z) (n : nat) :
  1 <= max_take ->
  forall t p player alpha beta g,
    (n <= Z.to_nat t)%nat ->
    AlphaBeta.max_value (NimGame max_take) n (t, p) player alpha beta = OutOfFuel /\
    AlphaBeta.min_value (NimGame max_take) n (t, p) player alpha beta = OutOfFuel /\
    Minimax.max_value (NimGame max_take) player None n (t, p) g = OutOfFuel /\
    Minimax.min_value (NimGame max_take) player None n (t, p) g = OutOfFuel.
Proof.
  intros Hmt. induction n as [|n IH]; intros t p player alpha beta g Hn.
  - repeat split.
  - assert (Ht : 1 <= t) by lia.
    destruct (nim_actions_head max_take t p Hmt Ht) as [rest Hh].
    rewrite ab_max_value_S, ab_min_value_S, mm_max_value_S, mm_min_value_S_None.
    change (is_terminal (NimGame max_take) (t, p)) with (t =? 0).
    destruct (Z.eqb_spec t 0); [lia|].
    rewrite Hh. cbn [AlphaBeta.max_loop AlphaBeta.min_loop Minimax.max_loop Minimax.min_loop].
    unfold Minimax.mbind.
    change (result (NimGame max_take) (t, p) 1) with (t - 1, other p).
    assert (Hn' : (n <= Z.to_nat (t - 1))%nat) by lia.
    repeat split.
    + rewrite (proj1 (proj2 (IH (t - 1) (other p) player alpha beta g Hn'))). reflexivity.
    + rewrite (proj1 (IH (t - 1) (other p) player alpha beta g Hn')). reflexivity.
    + rewrite (proj2 (proj2 (proj2 (IH (t - 1) (other p) player alpha beta g Hn')))).
      reflexivity.
    + rewrite (proj1 (proj2 (proj2 (IH (t - 1) (other p) player alpha beta g Hn')))).
      reflexivity.
Qed.

(** X6.  The recursion of both searches on the demonstration game goes as
    deep as the pile is high: with [max_take >= 1], [alpha_beta_search] needs
    [tokens + 1] nested calls of [max_value] / [min_value] and
    [minimax_decision] needs [tokens], pruning notwithstanding; with less
    they do not return. *)
Theorem nim_recursion_depth (max_take tokens : Z) (to_move player : string)
  (n : nat) (g : Minimax.rng) :
  1 <= max_take -> 0 <= tokens ->
  ((n <= Z.to_nat tokens)%nat ->
   AlphaBeta.alpha_beta_search (NimGame max_take) n (tokens, to_move) = OutOfFuel) /\
  ((n < Z.to_nat tokens)%nat ->
   Minimax.minimax_decision (NimGame max_take) player None n (tokens, to_move) g
   = OutOfFuel) /\
  ((Z.to_nat tokens < n)%nat ->
   exists m, AlphaBeta.alpha_beta_search (NimGame max_take) n (tokens, to_move) = Ok m) /\
  ((Z.to_nat tokens <= n)%nat ->
   exists m,
     Minimax.minimax_decision (NimGame max_take) player None n (tokens, to_move) g
     = Ok (m, g)).
Proof.
  intros Hmt Ht. split; [|split; [|split]].
  - intros Hn. unfold AlphaBeta.alpha_beta_search.
    rewrite (proj1 (nim_depth max_take n Hmt tokens to_move _ NegInf PosInf g Hn)).
    reflexivity.
  - intros Hn.
    assert (Ht1 : 1 <= tokens) by lia.
    destruct (nim_actions_head max_take tokens to_move Hmt Ht1) as [rest Hh].
    unfold Minimax.minimax_decision, Minimax.minimax_root, Minimax.mbind.
    rewrite Hh. cbn [Minimax.decision_loop]. unfold Minimax.mbind.
    change (result (NimGame max_take) (tokens, to_move) 1) with (tokens - 1, other to_move).
    assert (Hn' : (n <= Z.to_nat (tokens - 1))%nat) by lia.
    rewrite (proj2 (proj2 (proj2 (nim_depth max_take n Hmt (tokens - 1) (other to_move)
                                    player NegInf PosInf g Hn')))).
    reflexivity.
  - intros Hn.
    apply (ab_total _ _ _ (nim_finite_tree max_take) n (tokens, to_move)); auto.
  - intros Hn.
    destruct (mm_root_returns _ _ _ (nim_finite_tree max_take) player n (tokens, to_move) g)
      as (V & m & H); auto.
    exists m. unfold Minimax.minimax_decision, Minimax.mbind. rewrite H. reflexivity.
Qed.

Lemma nim_recursion_depth_witness :
  AlphaBeta.alpha_beta_search (NimGame 3) 7 (7, "A") = OutOfFuel /\
  (exists m, AlphaBeta.alpha_beta_search (NimGame 3) 8 (7, "A") = Ok m).
Proof.
  destruct (nim_recursion_depth 3 7 "A" "A" 7 rng0) as (H1 & _); [lia | lia |].
  destruct (nim_recursion_depth 3 7 "A" "A" 8 rng0) as (_ & _ & H3 & _); [lia | lia |].
  split.
  - apply H1. simpl. lia.
  - apply H3. simpl. lia.
Defined.

Section FirstLowest.
Context {State Action Player : Type}.
Variable game : Game State Action Player.

Lemma lowest_loop_first (f : State -> Minimax.M value) s g acts (val : Action -> value) :
  (forall a, In a acts -> f (result game s a) g = Ok (val a, g)) ->
  forall ba bv,
  exists r,
    Minimax.lowest_loop f game s acts ba bv g = Ok (r, g) /\
    ((r = ba /\ forall a, In a acts -> vle bv (val a)) \/
     (exists l1 a l2,
        acts = l1 ++ a :: l2 /\ r = Some a /\ vlt (val a) bv /\
        (forall b, In b l1 -> vlt (val a) (val b)) /\
        (forall b, In b l2 -> vle (val a) (val b)))).
Proof.
  induction acts as [|a rest IH]; intros Hf ba bv.
  - exists ba. split; [reflexivity|]. left. split; [reflexivity|]. intros a [].
  - simpl. unfold Minimax.mbind. rewrite (Hf a (or_introl eq_refl)).
    destruct (vltb (val a) bv) eqn:Hlt.
    + destruct (IH (fun b Hb => Hf b (or_intror Hb)) (Some a) (val a))
        as (r & HL & [(-> & Hall) | (l1 & a' & l2 & -> & -> & Hlt' & H1 & H2)]).
      * exists (Some a). split; [exact HL|]. right.
        exists [], a, rest. repeat split; auto. intros b [].
      * exists (Some a'). split; [exact HL|]. right.
        exists (a :: l1), a', l2. repeat split; auto.
        -- remember (val a) as x. remember (val a') as y. clear - Hlt Hlt'. vorder.
        -- intros b [<- | Hb]; auto.
    + destruct (IH (fun b Hb => Hf b (or_intror Hb)) ba bv)
        as (r & HL & [(-> & Hall) | (l1 & a' & l2 & -> & -> & Hlt' & H1 & H2)]).
      * exists ba. split; [exact HL|]. left. split; [reflexivity|].
        intros b [<- | Hb]; auto.
      * exists (Some a'). split; [exact HL|]. right.
        exists (a :: l1), a', l2. repeat split; auto.
        intros b [<- | Hb]; auto.
        remember (val a) as x. remember (val a') as y. clear - Hlt Hlt'. vorder.
Qed.
End FirstLowest.

(** X7.  [OptimalAdversary] and [HeuristicAdversary] return the first action
    with the lowest score: when every candidate is scored (by the evaluator,
    which leaves the generator alone, or by the heuristic) and some score is
    below [+inf], the action returned scores strictly less than every action
    enumerated before it and no more than every action enumerated after
    it. *)
Theorem adversary_first_lowest {State Action Player : Type}
  (game : Game State Action Player) (state : State) (acts : list Action)
  (evaluator : State -> Minimax.M value) (val : Action -> value)
  (opponent : Player) (g : Minimax.rng) :
  (exists a, In a acts /\ vlt (val a) PosInf) ->
  ((forall a, In a acts -> evaluator (result game state a) g = Ok (val a, g)) ->
   exists l1 a l2,
     acts = l1 ++ a :: l2 /\
     Minimax.choose_action Minimax.OptimalAdversary state acts game evaluator opponent g
       = Ok (Some a, g) /\
     (forall b, In b l1 -> vlt (val a) (val b)) /\
     (forall b, In b l2 -> vle (val a) (val b))) /\
  (forall heuristic,
   (forall a, In a acts -> heuristic (result game state a) = val a) ->
   exists l1 a l2,
     acts = l1 ++ a :: l2 /\
     Minimax.choose_action (Minimax.HeuristicAdversary heuristic) state acts game
       evaluator opponent g
       = Ok (Some a, g) /\
     (forall b, In b l1 -> vlt (val a) (val b)) /\
     (forall b, In b l2 -> vle (val a) (val b))).
Proof.
  intros (a0 & Hin0 & Hlt0).
  assert (Hgen : forall f,
             (forall a, In a acts -> f (result game state a) g = Ok (val a, g)) ->
             exists l1 a l2,
               acts = l1 ++ a :: l2 /\
               Minimax.lowest_loop f game state acts None PosInf g = Ok (Some a, g) /\
               (forall b, In b l1 -> vlt (val a) (val b)) /\
               (forall b, In b l2 -> vle (val a) (val b))).
  { intros f Hf.
    destruct (lowest_loop_first game f state g acts val Hf None PosInf)
      as (r & HL & [(-> & Hall) | (l1 & a & l2 & Hacts & -> & _ & H1 & H2)]).
    - exfalso. specialize (Hall a0 Hin0). unfold vle, vlt in *. congruence.
    - exists l1, a, l2. auto. }
  split.
  - intros Hev. apply (Hgen evaluator Hev).
  - intros heuristic Hh. apply (Hgen (fun st => Minimax.mret (heuristic st))).
    intros a Ha. unfold Minimax.mret. rewrite (Hh a Ha). reflexivity.
Qed.

Lemma adversary_first_lowest_witness :
  exists l1 a l2,
    [1; 2; 3] = l1 ++ a :: l2 /\
    Minimax.choose_action (Minimax.HeuristicAdversary (fun st => Fin (Z.abs (fst st - 5))))
      (7, "B") [1; 2; 3] (NimGame 3)
      (fun st => Minimax.max_value (NimGame 3) "A" None 8 st) "B" rng0
      = Ok (Some a, rng0) /\
    (forall b, In b l1 -> vlt (Fin (Z.abs (7 - a - 5))) (Fin (Z.abs (7 - b - 5)))) /\
    (forall b, In b l2 -> vle (Fin (Z.abs (7 - a - 5))) (Fin (Z.abs (7 - b - 5)))).
Proof.
  destruct (adversary_first_lowest (NimGame 3) (7, "B") [1; 2; 3]
              (fun st => Minimax.max_value (NimGame 3) "A" None 8 st)
              (fun a => Fin (Z.abs (7 - a - 5))) "B" rng0) as [_ Hh].
  - exists 1. split; [left; reflexivity | reflexivity].
  - apply (Hh (fun st => Fin (Z.abs (fst st - 5)))).
    intros a Ha. reflexivity.
Defined.

(** X8.  The greedy adversary of the demonstration,
    [HeuristicAdversary(lambda s: s[0])], always takes as many tokens as the
    rules allow: handed the legal actions of a pile of at least one token
    (with [max_take >= 1]) it returns [min(max_take, tokens)]. *)
Theorem greedy_adversary_takes_most (max_take tokens : Z) (to_move opponent : string)
  (evaluator : nim_state -> Minimax.M value) (g : Minimax.rng) :
  1 <= max_take -> 1 <= tokens ->
  Minimax.choose_action (Minimax.HeuristicAdversary (fun st : nim_state => Fin (fst st)))
    (tokens, to_move) (actions (NimGame max_take) (tokens, to_move)) (NimGame max_take)
    evaluator opponent g
  = Ok (Some (Z.min max_take tokens), g).
Proof.
  intros Hmt Ht.
  set (acts := actions (NimGame max_take) (tokens, to_move)).
  assert (Hone : In (Z.min max_take tokens) acts) by (apply nim_actions_In; lia).
  destruct (lowest_loop_first (NimGame max_take)
              (fun st => Minimax.mret (Fin (fst st))) (tokens, to_move) g acts
              (fun a => Fin (tokens - a))) with (ba := @None Z) (bv := PosInf)
    as (r & HL & [(-> & Hall) | (l1 & a & l2 & Hacts & -> & _ & H1 & H2)]).
  - intros a Ha. reflexivity.
  - exfalso. specialize (Hall _ Hone). discriminate Hall.
  - cbn [Minimax.choose_action Minimax.HeuristicAdversary]. rewrite HL.
    f_equal. f_equal. f_equal.
    assert (Hain : In a acts) by (rewrite Hacts; apply in_or_app; right; left; reflexivity).
    apply nim_actions_In in Hain.
    rewrite Hacts in Hone. apply in_app_or in Hone.
    destruct Hone as [Hm | [Hm | Hm]].
    + specialize (H1 _ Hm). unfold vlt in H1. simpl in H1. apply Z.ltb_lt in H1. lia.
    + exact Hm.
    + specialize (H2 _ Hm). unfold vle in H2. simpl in H2. apply Z.ltb_ge in H2. lia.
Qed.

Lemma greedy_adversary_takes_most_witness :
  Minimax.choose_action (Minimax.HeuristicAdversary (fun st : nim_state => Fin (fst st)))
    (7, "B") (actions (NimGame 3) (7, "B")) (NimGame 3)
    (fun st => Minimax.max_value (NimGame 3) "A" None 8 st) "B" rng0
  = Ok (Some (Z.min 3 7), rng0).
Proof. apply (greedy_adversary_takes_most 3 7 "B" "B"); lia. Defined.

(** X9.  With [OptimalAdversary] not only the decision but every evaluation
    is the one made with no adversary: on a conforming game, from a valid
    state and with fuel above its rank, the inner [max_value] and
    [min_value] return the same score either way. *)
Theorem optimal_adversary_same_values {State Action Player : Type}
  (game : Game State Action Player) (valid : State -> Prop) (rank : State -> nat)
  (player : Player) (s : State) (n : nat) (g : Minimax.rng) :
  conforming game valid rank -> valid s -> (rank s < n)%nat ->
  exists vmax vmin,
    Minimax.max_value game player (Some Minimax.OptimalAdversary) n s g = Ok (Fin vmax, g) /\
    Minimax.max_value game player None n s g = Ok (Fin vmax, g) /\
    Minimax.min_value game player (Some Minimax.OptimalAdversary) n s g = Ok (Fin vmin, g) /\
    Minimax.min_value game player None n s g = Ok (Fin vmin, g).
Proof.
  intros Hconf Hv Hr.
  destruct (optimal_same game valid rank Hconf player n s g Hv Hr) as [E1 E2].
  destruct (mm_total_None game valid rank Hconf player n s g Hv Hr) as [[z1 H1] [z2 H2]].
  exists z1, z2. rewrite E1, E2. auto.
Qed.

Lemma optimal_adversary_same_values_witness :
  exists vmax vmin,
    Minimax.max_value (NimGame 3) "A" (Some Minimax.OptimalAdversary) 7 (6, "A") rng0
      = Ok (Fin vmax, rng0) /\
    Minimax.max_value (NimGame 3) "A" None 7 (6, "A") rng0 = Ok (Fin vmax, rng0) /\
    Minimax.min_value (NimGame 3) "A" (Some Minimax.OptimalAdversary) 7 (6, "A") rng0
      = Ok (Fin vmin, rng0) /\
    Minimax.min_value (NimGame 3) "A" None 7 (6, "A") rng0 = Ok (Fin vmin, rng0).
Proof.
  apply (optimal_adversary_same_values (NimGame 3) nim_valid nim_rank "A" (6, "A") 7 rng0).
  - apply nim_conforming. lia.
  - unfold nim_valid. simpl. lia.
  - unfold nim_rank. simpl. lia.
Defined.

Lemma py_range_sorted (lo hi : Z) : StronglySorted Z.lt (py_range lo hi).
Proof.
  unfold py_range. generalize (Z.to_nat (hi - lo)) as n. generalize O as k.
  intros k n. revert k. induction n as [|n IH]; intros k; simpl; constructor.
  - apply IH.
  - apply Forall_forall. intros x Hx. apply in_map_iff in Hx.
    destruct Hx as (i & <- & Hi). apply in_seq in Hi. lia.
Qed.

(** X30.  The moves of [NimGame], for every state, legal or not.  The
    actions are the amounts from 1 up to [max_take] and up to the pile, in
    increasing order; there is none exactly when [max_take < 1] or the pile
    is below 1.  A move leaves [tokens - action] and always changes the
    player to move; between A and B two moves restore it. *)
Theorem nim_moves (max_take tokens : Z) (to_move : string) (a : Z) :
  (In a (actions (NimGame max_take) (tokens, to_move)) <->
   1 <= a /\ a <= max_take /\ a <= tokens) /\
  StronglySorted Z.lt (actions (NimGame max_take) (tokens, to_move)) /\
  (actions (NimGame max_take) (tokens, to_move) = [] <-> max_take < 1 \/ tokens < 1) /\
  fst (result (NimGame max_take) (tokens, to_move) a) = tokens - a /\
  snd (result (NimGame max_take) (tokens, to_move) a) <> to_move /\
  (to_move = "A" \/ to_move = "B" ->
   forall b,
     snd (result (NimGame max_take) (result (NimGame max_take) (tokens, to_move) a) b)
     = to_move).
Proof.
  split; [rewrite nim_actions_In; lia|].
  split; [apply py_range_sorted|].
  split.
  - split.
    + intros H. destruct (Z_lt_ge_dec max_take 1) as [Hm | Hm]; [left; exact Hm|].
      destruct (Z_lt_ge_dec tokens 1) as [Ht | Ht]; [right; exact Ht|].
      exfalso. assert (Hin : In 1 (actions (NimGame max_take) (tokens, to_move)))
        by (apply nim_actions_In; lia).
      rewrite H in Hin. destruct Hin.
    + intros H. destruct (actions (NimGame max_take) (tokens, to_move)) as [|x l] eqn:E;
        [reflexivity|].
      exfalso. assert (Hin : In x (actions (NimGame max_take) (tokens, to_move)))
        by (rewrite E; left; reflexivity).
      apply nim_actions_In in Hin. lia.
  - split; [reflexivity|]. split.
    + simpl. destruct (String.eqb to_move "A") eqn:E.
      * apply String.eqb_eq in E. subst. discriminate.
      * apply String.eqb_neq in E. congruence.
    + intros [-> | ->] b; reflexivity.
Qed.

Lemma nim_moves_witness :
  snd (result (NimGame 3) (result (NimGame 3) (7, "B") 2) 3) = "B".
Proof.
  apply (proj2 (proj2 (proj2 (proj2 (proj2 (nim_moves 3 7 "B" 2)))))).
  right. reflexivity.
Defined.

(* ------------------------------------------------------------------ *)
(** ** The grid of [pathfinder_pacman.py] *)

Section Grid.
Import Pathfinder.

(** X10.  [pixel_to_cell] undoes [cell_to_pixel] over the whole square of a
    cell: the pixel [(x, y)] is sent to the cell [(c, r)] exactly when
    [(c, r)] is a cell of the 28 x 20 grid and the pixel lies in the 24 x 24
    square whose top-left corner is [cell_to_pixel(c, r)]; every other
    pixel is sent to [None]. *)
Theorem pixel_cell_round_trip (x y c r : Z) :
  pixel_to_cell x y = Some (c, r) <->
  in_grid (c, r) /\
  fst (cell_to_pixel c r) <= x < fst (cell_to_pixel c r) + CELL_SIZE /\
  snd (cell_to_pixel c r) <= y < snd (cell_to_pixel c r) + CELL_SIZE.
Proof.
  unfold pixel_to_cell, cell_to_pixel, in_grid, CELL_SIZE, MARGIN, GRID_COLS, GRID_ROWS.
  cbn [fst snd].
  pose proof (Z.div_mod (x - 20) 24 ltac:(lia)) as Hx.
  pose proof (Z.mod_pos_bound (x - 20) 24 ltac:(lia)) as Hxb.
  pose proof (Z.div_mod (y - 20) 24 ltac:(lia)) as Hy.
  pose proof (Z.mod_pos_bound (y - 20) 24 ltac:(lia)) as Hyb.
  split.
  - destruct ((0 <=? (x - 20) / 24) && ((x - 20) / 24 <? 28) &&
              (0 <=? (y - 20) / 24) && ((y - 20) / 24 <? 20)) eqn:E; [|discriminate].
    intros H. inversion H; subst. clear H.
    rewrite !andb_true_iff, !Z.leb_le, !Z.ltb_lt in E.
    lia.
  - intros ((Hc & Hr) & Hxr & Hyr).
    assert (Ec : (x - 20) / 24 = c).
    { symmetry. apply Z.div_unique with (r := x - 20 - c * 24); lia. }
    assert (Er : (y - 20) / 24 = r).
    { symmetry. apply Z.div_unique with (r := y - 20 - r * 24); lia. }
    rewrite Ec, Er.
    replace ((0 <=? c) && (c <? 28) && (0 <=? r) && (r <? 20)) with true; [reflexivity|].
    symmetry. repeat (apply andb_true_iff; split);
      try apply Z.leb_le; try apply Z.ltb_lt; lia.
Qed.

Lemma in_grid_test (c r : Z) :
  (0 <=? c) && (c <? GRID_COLS) && (0 <=? r) && (r <? GRID_ROWS) = true <-> in_grid (c, r).
Proof.
  unfold in_grid. cbn [fst snd].
  rewrite !andb_true_iff, !Z.leb_le, !Z.ltb_lt. lia.
Qed.

Lemma neighbors_In (node n : cell) :
  In n (neighbors node) <-> in_grid n /\ manhattan node n = 1.
Proof.
  destruct node as [c r]. destruct n as [nc nr].
  unfold neighbors, manhattan. cbn [flat_map fst snd].
  rewrite !in_app_iff.
  assert (Hone : forall dc dr,
             In (nc, nr)
               (if (0 <=? c + dc) && (c + dc <? GRID_COLS) &&
                   (0 <=? r + dr) && (r + dr <? GRID_ROWS)
                then [(c + dc, r + dr)] else [])
             <-> in_grid (nc, nr) /\ nc = c + dc /\ nr = r + dr).
  { intros dc dr.
    destruct ((0 <=? c + dc) && (c + dc <? GRID_COLS) &&
              (0 <=? r + dr) && (r + dr <? GRID_ROWS)) eqn:E.
    - apply in_grid_test in E. simpl. split.
      + intros [H | []]. inversion H; subst. auto.
      + intros (_ & -> & ->). auto.
    - simpl. split; [intros [] |]. intros (Hg & -> & ->).
      apply in_grid_test in Hg. congruence. }
  rewrite !Hone. simpl In.
  unfold in_grid. cbn [fst snd]. lia.
Qed.

(** X11.  [neighbors(node)] yields exactly the cells of the grid at Manhattan
    distance 1 from [node], each once; between cells of the grid the
    relation is symmetric, and no cell is its own neighbour. *)
Theorem neighbors_adjacent (node n : cell) :
  (In n (neighbors node) <-> in_grid n /\ manhattan node n = 1) /\
  NoDup (neighbors node) /\
  (in_grid node -> In n (neighbors node) -> In node (neighbors n)) /\
  ~ In node (neighbors node).
Proof.
  split; [apply neighbors_In|]. split; [|split].
  - destruct node as [c r]. unfold neighbors. cbn [flat_map].
    repeat match goal with
           | |- context [if ?b then _ else _] => destruct b
           end; simpl;
      repeat constructor; simpl; intuition (try congruence);
      match goal with H : (_, _) = (_, _) |- _ => inversion H; lia end.
  - intros Hg Hn. apply neighbors_In in Hn. apply neighbors_In.
    split; [exact Hg|]. destruct Hn as [_ Hm].
    unfold manhattan in *. lia.
  - intros H. apply neighbors_In in H. unfold manhattan in H. lia.
Qed.

Lemma neighbors_adjacent_witness : In (1, 1) (neighbors (2, 1)).
Proof.
  apply (proj1 (proj2 (proj2 (neighbors_adjacent (1, 1) (2, 1))))).
  - unfold in_grid, GRID_COLS, GRID_ROWS. simpl. lia.
  - simpl. auto.
Defined.

(** X12.  [manhattan] is a metric on cells: never negative, zero between
    equal cells only, symmetric, with the triangle inequality.  It drops by
    at most 1 along a step to a neighbour: as the heuristic of [astar] it is
    consistent for steps of cost 1. *)
Theorem manhattan_metric (a b c : cell) :
  0 <= manhattan a b /\
  (manhattan a b = 0 <-> a = b) /\
  manhattan a b = manhattan b a /\
  manhattan a c <= manhattan a b + manhattan b c /\
  (In b (neighbors a) -> manhattan a c <= 1 + manhattan b c).
Proof.
  unfold manhattan. repeat split; try lia.
  - intros H. destruct a, b. cbn [fst snd] in H. f_equal; lia.
  - intros ->. lia.
  - intros H. apply neighbors_In in H. unfold manhattan in H. lia.
Qed.

Lemma manhattan_metric_witness : manhattan (1, 1) (5, 5) <= 1 + manhattan (2, 1) (5, 5).
Proof.
  apply (proj2 (proj2 (proj2 (proj2 (manhattan_metric (1, 1) (2, 1) (5, 5)))))).
  simpl. auto.
Defined.

Lemma chain_cons {A : Type} (R : A -> A -> Prop) a b l :
  chain R (a :: b :: l) <-> R a b /\ chain R (b :: l).
Proof. reflexivity. Qed.

Lemma chain_snoc {A : Type} (R : A -> A -> Prop) l a b :
  chain R (l ++ [a]) -> R a b -> chain R ((l ++ [a]) ++ [b]).
Proof.
  induction l as [|x l IH]; intros H Hab.
  - simpl. auto.
  - destruct l as [|y l].
    + simpl in *. destruct H as [Hxa _]. auto.
    + simpl app in *. apply chain_cons in H. destruct H as [Hxy H].
      apply chain_cons. split; [exact Hxy|]. apply IH; assumption.
Qed.

Lemma chain_rev {A : Type} (R : A -> A -> Prop) l :
  chain R l -> chain (fun a b => R b a) (rev l).
Proof.
  induction l as [|x l IH]; intros H; [exact I|].
  destruct l as [|y l]; [exact I|].
  apply chain_cons in H. destruct H as [Hxy H].
  specialize (IH H). simpl rev in *.
  apply chain_snoc; assumption.
Qed.

Lemma reconstruct_loop_spec (cf : dict cell) :
  forall fuel cur path pre p,
    path = pre ++ [cur] ->
    chain (fun a b => dict_get cf a = Some b) path ->
    reconstruct_loop fuel cf cur path = Ok p ->
    chain (fun a b => dict_get cf a = Some b) p /\
    (exists ext, p = path ++ ext) /\
    (exists q root, p = q ++ [root] /\ dict_get cf root = None).
Proof.
  induction fuel as [|fuel IH]; intros cur path pre p Hpath Hch H; [discriminate H|].
  simpl in H. destruct (dict_get cf cur) as [prev|] eqn:E.
  - destruct (IH prev (path ++ [prev]) path p eq_refl) as (H1 & (ext & H2) & H3); auto.
    + subst path. apply chain_snoc; assumption.
    + split; [exact H1|]. split; [|exact H3].
      exists (prev :: ext). rewrite H2, <- app_assoc. reflexivity.
  - inversion H; subst p. split; [exact Hch|]. split.
    + exists []. rewrite app_nil_r. reflexivity.
    + exists pre, cur. auto.
Qed.

(** X13.  Whenever [reconstruct_path(came_from, current)] returns, the path
    starts at a cell that has no entry in [came_from], ends at [current],
    and each of its cells is the [came_from] entry of the next one. *)
Theorem reconstruct_path_chain (fuel : nat) (came_from : dict cell) (current : cell)
  (path : list cell) :
  reconstruct_path fuel came_from current = Ok path ->
  (exists root mid, path = root :: mid /\ dict_get came_from root = None) /\
  last path current = current /\
  chain (fun a b => dict_get came_from b = Some a) path.
Proof.
  unfold reconstruct_path. intros H.
  destruct (reconstruct_loop fuel came_from current [current]) as [p| |] eqn:E;
    try discriminate H.
  simpl in H. inversion H; subst path. clear H.
  destruct (reconstruct_loop_spec came_from fuel current [current] [] p eq_refl I E)
    as (Hch & (ext & Hext) & (q & root & Hq & Hroot)).
  split; [|split].
  - exists root, (rev q). rewrite Hq, rev_app_distr. simpl. auto.
  - rewrite Hext. simpl. rewrite last_last. reflexivity.
  - apply chain_rev in Hch. exact Hch.
Qed.

Lemma reconstruct_path_chain_witness :
  (exists root mid, [(1, 1); (2, 1); (2, 2)] = root :: mid /\
     dict_get [((2, 2), (2, 1)); ((2, 1), (1, 1))] root = None) /\
  last [(1, 1); (2, 1); (2, 2)] (2, 2) = (2, 2) /\
  chain (fun a b => dict_get [((2, 2), (2, 1)); ((2, 1), (1, 1))] b = Some a)
    [(1, 1); (2, 1); (2, 2)].
Proof.
  apply (reconstruct_path_chain 5 [((2, 2), (2, 1)); ((2, 1), (1, 1))] (2, 2)).
  reflexivity.
Defined.

(** X14.  The two ends of [reconstruct_path]: for a [current] without entry
    it returns [[current]]; on a dict in which every value is a key again
    (its links run in a cycle), asked for one of the keys, the loop
    [while current in came_from] never ends, whatever the fuel. *)
Theorem reconstruct_path_edges (came_from : dict cell) (current : cell) :
  (dict_get came_from current = None ->
   forall fuel, reconstruct_path (S fuel) came_from current = Ok [current]) /\
  ((forall k v, dict_get came_from k = Some v -> dict_get came_from v <> None) ->
   dict_get came_from current <> None ->
   forall fuel, reconstruct_path fuel came_from current = OutOfFuel).
Proof.
  split.
  - intros H fuel. unfold reconstruct_path. simpl. rewrite H. reflexivity.
  - intros Hclosed Hcur fuel. unfold reconstruct_path.
    assert (Hloop : forall fuel cur path,
               dict_get came_from cur <> None ->
               reconstruct_loop fuel came_from cur path = OutOfFuel).
    { clear fuel Hcur. induction fuel as [|fuel IH]; intros cur path Hc; [reflexivity|].
      simpl. destruct (dict_get came_from cur) as [prev|] eqn:E; [|congruence].
      apply IH. eapply Hclosed; eauto. }
    rewrite Hloop by exact Hcur. reflexivity.
Qed.

Lemma reconstruct_path_edges_witness :
  (forall fuel, reconstruct_path (S fuel) [] (3, 4) = Ok [(3, 4)]) /\
  (forall fuel, reconstruct_path fuel [((1, 1), (1, 2)); ((1, 2), (1, 1))] (1, 1)
                = OutOfFuel).
Proof.
  split.
  - apply (proj1 (reconstruct_path_edges [] (3, 4))). reflexivity.
  - apply (proj2 (reconstruct_path_edges [((1, 1), (1, 2)); ((1, 2), (1, 1))] (1, 1))).
    + intros [c r] v H. simpl in H.
      destruct (cell_eqb (c, r) (1, 1)) eqn:E1.
      * inversion H; subst. discriminate.
      * destruct (cell_eqb (c, r) (1, 2)) eqn:E2; [|discriminate H].
        inversion H; subst. discriminate.
    + discriminate.
Defined.

Example bfs_small :
  exists evs, bfs 600 (1, 1) (3, 1) [(2, 1)] = Ok evs /\
    last evs NoPath = Found [(1, 1); (1, 2); (2, 2); (3, 2); (3, 1)].
Proof. vm_compute. eexists. split; reflexivity. Qed.

Example dfs_small :
  exists evs, dfs 600 (1, 1) (3, 1) [(2, 1)] = Ok evs /\
    last evs NoPath = Found [(1, 1); (1, 0); (2, 0); (3, 0); (3, 1)].
Proof. vm_compute. eexists. split; reflexivity. Qed.

Lemma cell_eqb_eq (a b : cell) : cell_eqb a b = true <-> a = b.
Proof.
  destruct a as [a1 a2], b as [b1 b2]. unfold cell_eqb. cbn [fst snd].
  rewrite andb_true_iff, !Z.eqb_eq. split.
  - intros [-> ->]. reflexivity.
  - intros H. inversion H. auto.
Qed.

Lemma cell_eqb_refl (a : cell) : cell_eqb a a = true.
Proof. apply cell_eqb_eq. reflexivity. Qed.

Lemma cell_eqb_neq (a b : cell) : cell_eqb a b = false <-> a <> b.
Proof.
  split.
  - intros H E. apply cell_eqb_eq in E. congruence.
  - intros H. destruct (cell_eqb a b) eqn:E; [|reflexivity].
    apply cell_eqb_eq in E. contradiction.
Qed.

Lemma set_mem_In (x : cell) (s : list cell) : set_mem x s = true <-> In x s.
Proof.
  unfold set_mem. rewrite existsb_exists. split.
  - intros (y & Hy & E). apply cell_eqb_eq in E. subst. exact Hy.
  - intros H. exists x. split; [exact H | apply cell_eqb_refl].
Qed.

Lemma set_mem_cons (x n : cell) (s : list cell) :
  set_mem x (n :: s) = cell_eqb x n || set_mem x s.
Proof. reflexivity. Qed.

Lemma dict_get_set {V : Type} (d : dict V) (k k' : cell) (v : V) :
  dict_get (dict_set d k v) k' = if cell_eqb k' k then Some v else dict_get d k'.
Proof. reflexivity. Qed.

Lemma all_cells_In (n : cell) : In n all_cells <-> in_grid n.
Proof.
  unfold all_cells, in_grid. rewrite in_flat_map. split.
  - intros (c & Hc & Hn). apply in_map_iff in Hn. destruct Hn as (r & <- & Hr).
    apply py_range_In in Hc. apply py_range_In in Hr. cbn [fst snd]. lia.
  - intros [Hc Hr]. exists (fst n). split; [apply py_range_In; lia|].
    apply in_map_iff. exists (snd n). split; [destruct n; reflexivity|].
    apply py_range_In. lia.
Qed.

Lemma NoDup_map_injective {A B : Type} (f : A -> B) (l : list A) :
  (forall x y, f x = f y -> x = y) -> NoDup l -> NoDup (map f l).
Proof.
  intros Hinj. induction 1 as [|x l Hx Hnd IH]; simpl; constructor; [|exact IH].
  intros Hin. apply in_map_iff in Hin. destruct Hin as (y & E & Hy).
  apply Hinj in E. subst. contradiction.
Qed.

Lemma py_range_NoDup (lo hi : Z) : NoDup (py_range lo hi).
Proof.
  unfold py_range. apply NoDup_map_injective.
  - intros a b H. lia.
  - apply seq_NoDup.
Qed.

Lemma all_cells_NoDup : NoDup all_cells.
Proof.
  unfold all_cells.
  assert (H : forall cols : list Z, NoDup cols ->
            NoDup (flat_map (fun c : Z => map (fun r : Z => (c, r)) (py_range 0 GRID_ROWS))
                     cols)).
  { induction cols as [|c cols IH]; intros Hnd; [constructor|].
    inversion Hnd as [|? ? Hc Hnd']; subst. cbn [flat_map].
    apply NoDup_app.
    - apply NoDup_map_injective; [|apply py_range_NoDup].
      intros a b E. inversion E. reflexivity.
    - apply IH. exact Hnd'.
    - intros x Hx Hx'. apply in_map_iff in Hx. destruct Hx as (r & <- & _).
      apply in_flat_map in Hx'. destruct Hx' as (c' & Hc' & Hx').
      apply in_map_iff in Hx'. destruct Hx' as (r' & E & _). inversion E; subst.
      contradiction. }
  apply H. apply py_range_NoDup.
Qed.

Lemma all_cells_length : List.length all_cells = 560%nat.
Proof. reflexivity. Qed.

Section CameFrom.
Variable start : cell.
Variable walls : list cell.

Lemma wf_get (cf : dict cell) :
  wf_came_from start walls cf ->
  forall n p, dict_get cf n = Some p ->
    grid_step walls p n /\ n <> start /\ (p = start \/ dict_get cf p <> None).
Proof.
  induction cf as [|[k v] rest IH]; intros Hwf n p H; [discriminate H|].
  destruct Hwf as (Hrest & Hfresh & Hks & Hv & Hstep).
  simpl in H. simpl dict_get.
  destruct (cell_eqb n k) eqn:E.
  - apply cell_eqb_eq in E. subst k. inversion H; subst v.
    split; [exact Hstep|]. split; [exact Hks|].
    destruct Hv as [-> | Hv]; [left; reflexivity|]. right.
    destruct (cell_eqb p n); [discriminate | exact Hv].
  - destruct (IH Hrest n p H) as (H1 & H2 & H3).
    split; [exact H1|]. split; [exact H2|].
    destruct H3 as [-> | H3]; [left; reflexivity|]. right.
    destruct (cell_eqb p k); [discriminate | exact H3].
Qed.

Lemma wf_start (cf : dict cell) :
  wf_came_from start walls cf -> dict_get cf start = None.
Proof.
  induction cf as [|[k v] rest IH]; intros Hwf; [reflexivity|].
  destruct Hwf as (Hrest & Hfresh & Hks & Hv & Hstep). simpl.
  destruct (cell_eqb start k) eqn:E; [|auto].
  apply cell_eqb_eq in E. congruence.
Qed.

Lemma depth_in_le (cf : dict cell) (x : cell) : (depth_in cf x <= List.length cf)%nat.
Proof.
  induction cf as [|[k v] rest IH]; simpl; [lia|].
  destruct (cell_eqb x k); lia.
Qed.

Lemma depth_in_none (cf : dict cell) (x : cell) :
  dict_get cf x = None -> depth_in cf x = O.
Proof.
  induction cf as [|[k v] rest IH]; simpl; [reflexivity|].
  destruct (cell_eqb x k); [discriminate | exact IH].
Qed.

Lemma depth_in_decreases (cf : dict cell) :
  wf_came_from start walls cf ->
  forall x p, dict_get cf x = Some p -> (depth_in cf p < depth_in cf x)%nat.
Proof.
  induction cf as [|[k v] rest IH]; intros Hwf x p H; [discriminate H|].
  destruct Hwf as (Hrest & Hfresh & Hks & Hv & Hstep).
  simpl in H. simpl.
  assert (Hnk : forall q, q = start \/ dict_get rest q <> None -> cell_eqb q k = false).
  { intros q Hq. apply cell_eqb_neq. intros ->. destruct Hq; congruence. }
  destruct (cell_eqb x k) eqn:E.
  - inversion H; subst v. rewrite (Hnk p Hv).
    pose proof (depth_in_le rest p). lia.
  - destruct (wf_get rest Hrest x p H) as (_ & _ & Hp).
    rewrite (Hnk p Hp). apply IH; assumption.
Qed.

Lemma reconstruct_loop_total (cf : dict cell) :
  wf_came_from start walls cf ->
  forall fuel x path,
    (depth_in cf x < fuel)%nat ->
    exists p, reconstruct_loop fuel cf x path = Ok p.
Proof.
  intros Hwf. induction fuel as [|fuel IH]; intros x path Hd; [lia|].
  simpl. destruct (dict_get cf x) as [prev|] eqn:E; [|eauto].
  apply IH. pose proof (depth_in_decreases cf Hwf x prev E). lia.
Qed.

Lemma reconstruct_loop_root (cf : dict cell) :
  wf_came_from start walls cf ->
  forall fuel x pre p,
    x = start \/ dict_get cf x <> None ->
    reconstruct_loop fuel cf x (pre ++ [x]) = Ok p ->
    exists q, p = q ++ [start].
Proof.
  intros Hwf. induction fuel as [|fuel IH]; intros x pre p Hx H; [discriminate H|].
  simpl in H. destruct (dict_get cf x) as [prev|] eqn:E.
  - destruct (wf_get cf Hwf x prev E) as (_ & _ & Hprev).
    apply (IH prev (pre ++ [x]) p Hprev H).
  - inversion H; subst p. destruct Hx as [-> | Hx]; [|congruence].
    exists pre. reflexivity.
Qed.

Lemma chain_impl {A : Type} (R R' : A -> A -> Prop) (l : list A) :
  (forall a b, R a b -> R' a b) -> chain R l -> chain R' l.
Proof.
  intros HR. induction l as [|a l IH]; intros H; [exact I|].
  destruct l as [|b l]; [exact I|].
  destruct H as [Hab H]. split; [apply HR; exact Hab | apply IH; exact H].
Qed.

(** From the entries the searches build, [reconstruct_path] returns a path
    of legal moves from [start] to the cell it is asked for. *)
Lemma reconstruct_path_valid (cf : dict cell) (fuel : nat) (x : cell) :
  wf_came_from start walls cf ->
  x = start \/ dict_get cf x <> None ->
  (List.length cf < fuel)%nat ->
  exists path, reconstruct_path fuel cf x = Ok path /\ valid_path start x walls path.
Proof.
  intros Hwf Hx Hfuel. unfold reconstruct_path.
  destruct (reconstruct_loop_total cf Hwf fuel x [x]) as [p Hp].
  { pose proof (depth_in_le cf x). lia. }
  rewrite Hp. simpl. exists (rev p). split; [reflexivity|].
  destruct (reconstruct_loop_spec cf fuel x [x] [] p eq_refl I Hp)
    as (Hch & (ext & Hext) & _).
  destruct (reconstruct_loop_root cf Hwf fuel x [] p Hx Hp) as [q Hq].
  split; [|split].
  - exists (rev q). rewrite Hq, rev_app_distr. reflexivity.
  - rewrite Hext. simpl. rewrite last_last. reflexivity.
  - apply chain_rev in Hch.
    eapply chain_impl; [|exact Hch].
    intros a b Hab. cbv beta in Hab. apply (wf_get cf Hwf b a Hab).
Qed.

End CameFrom.

Lemma todo_unexplored frontier explored :
  todo frontier explored = (unexplored explored + List.length frontier)%nat.
Proof. reflexivity. Qed.

Lemma count_cons (n : cell) (e : list cell) (l : list cell) :
  NoDup l -> set_mem n e = false ->
  (In n l ->
   (List.length (filter (fun c => negb (set_mem c (n :: e))) l) + 1
    = List.length (filter (fun c => negb (set_mem c e)) l))%nat) /\
  (~ In n l ->
   List.length (filter (fun c => negb (set_mem c (n :: e))) l)
   = List.length (filter (fun c => negb (set_mem c e)) l)).
Proof.
  intros Hnd Hn. induction Hnd as [|x l Hx Hnd IH].
  - split; [intros [] | reflexivity].
  - destruct IH as [IH1 IH2]. cbn [filter]. rewrite set_mem_cons.
    destruct (cell_eqb x n) eqn:E.
    + apply cell_eqb_eq in E. subst x. rewrite Hn. cbn [orb negb List.length]. split.
      * intros _. rewrite IH2 by exact Hx. lia.
      * intros Hc. exfalso. apply Hc. left. reflexivity.
    + apply cell_eqb_neq in E. cbn [orb]. split.
      * intros [C | Hin]; [congruence|].
        destruct (negb (set_mem x e)); cbn [List.length]; rewrite <- IH1 by exact Hin; lia.
      * intros Hc.
        assert (Hc' : ~ In n l) by (intros Hin; apply Hc; right; exact Hin).
        destruct (negb (set_mem x e)); cbn [List.length]; rewrite IH2; auto.
Qed.

Lemma unexplored_cons (n : cell) (e : list cell) :
  in_grid n -> set_mem n e = false -> (unexplored (n :: e) + 1 = unexplored e)%nat.
Proof.
  intros Hg Hn. unfold unexplored.
  apply (count_cons n e all_cells all_cells_NoDup Hn). apply all_cells_In. exact Hg.
Qed.

Section Expand.
Variable start : cell.
Variable walls : list cell.
Variable current : cell.

Lemma expand_spec (nbrs : list cell) :
  (forall n, In n nbrs -> In n (neighbors current)) ->
  forall frontier cf explored frontier' cf' explored',
    expand_inv start walls current frontier cf explored ->
    expand current walls nbrs frontier cf explored = (frontier', cf', explored') ->
    expand_inv start walls current frontier' cf' explored' /\
    (forall x, set_mem x explored = true -> set_mem x explored' = true) /\
    (forall x, In x frontier' <->
               In x frontier \/ (set_mem x explored = false /\ set_mem x explored' = true)) /\
    (forall n, In n nbrs -> set_mem n walls = false -> set_mem n explored' = true) /\
    todo frontier' explored' = todo frontier explored /\
    (List.length cf' + unexplored explored' = List.length cf + unexplored explored)%nat.
Proof.
  induction nbrs as [|n rest IH]; intros Hn frontier cf explored frontier' cf' explored' Hinv H.
  - simpl in H. inversion H; subst. split; [exact Hinv|].
    split; [auto|]. split; [|split; [intros n []|split; reflexivity]].
    intros x. split; [auto|]. intros [Hx | [H1 H2]]; [exact Hx | congruence].
  - simpl in H.
    destruct (set_mem n explored || set_mem n walls) eqn:E.
    + destruct (IH (fun m Hm => Hn m (or_intror Hm)) _ _ _ _ _ _ Hinv H)
        as (I1 & Hmono & Hfr & Hcov & Htodo & Hlen).
      split; [exact I1|]. split; [exact Hmono|]. split; [exact Hfr|].
      split; [|split; assumption].
      intros m [<- | Hm] Hw; [|auto].
      rewrite Hw, orb_false_r in E. auto.
    + apply orb_false_iff in E. destruct E as [Hne Hnw].
      assert (Hng : In n (neighbors current)) by (apply Hn; left; reflexivity).
      assert (Hgrid : in_grid n) by (apply neighbors_In in Hng; tauto).
      assert (Hfresh : dict_get cf n = None /\ n <> start).
      { split.
        - destruct (dict_get cf n) eqn:G; [|reflexivity].
          exfalso. assert (set_mem n explored = true); [|congruence].
          apply (ei_explored _ _ _ _ _ _ Hinv). right. congruence.
        - intros ->. assert (set_mem start explored = true); [|congruence].
          apply (ei_explored _ _ _ _ _ _ Hinv). left. reflexivity. }
      destruct Hfresh as [Hget Hns].
      assert (Hinv' : expand_inv start walls current
                        (frontier ++ [n]) (dict_set cf n current) (n :: explored)).
      { split.
        - simpl. split; [apply (ei_cf _ _ _ _ _ _ Hinv)|].
          split; [exact Hget|]. split; [exact Hns|]. split.
          + apply (ei_explored _ _ _ _ _ _ Hinv). apply (ei_current _ _ _ _ _ _ Hinv).
          + split; assumption.
        - intros x. rewrite set_mem_cons, dict_get_set.
          destruct (cell_eqb x n) eqn:Ex.
          + simpl. split; [intros _; right; discriminate | reflexivity].
          + simpl. apply (ei_explored _ _ _ _ _ _ Hinv).
        - intros x Hx. rewrite set_mem_cons. apply in_app_or in Hx.
          destruct Hx as [Hx | [<- | []]].
          + rewrite (ei_frontier _ _ _ _ _ _ Hinv x Hx). apply orb_true_r.
          + rewrite cell_eqb_refl. reflexivity.
        - apply NoDup_app.
          + apply (ei_nodup _ _ _ _ _ _ Hinv).
          + constructor; [intros [] | constructor].
          + intros x Hx [<- | []].
            rewrite (ei_frontier _ _ _ _ _ _ Hinv n Hx) in Hne. discriminate.
        - rewrite set_mem_cons, (ei_current _ _ _ _ _ _ Hinv). apply orb_true_r. }
      destruct (IH (fun m Hm => Hn m (or_intror Hm)) _ _ _ _ _ _ Hinv' H)
        as (I1 & Hmono & Hfr & Hcov & Htodo & Hlen).
      assert (Hn' : set_mem n explored' = true).
      { apply Hmono. rewrite set_mem_cons, cell_eqb_refl. reflexivity. }
      split; [exact I1|]. split; [|split; [|split; [|split]]].
      * intros x Hx. apply Hmono. rewrite set_mem_cons, Hx. apply orb_true_r.
      * intros x. rewrite Hfr, in_app_iff, set_mem_cons. simpl In. split.
        -- intros [[Hx | [<- | []]] | [H1 H2]]; auto.
           apply orb_false_iff in H1. right. tauto.
        -- intros [Hx | [H1 H2]]; [auto|].
           destruct (cell_eqb x n) eqn:Ex.
           ++ apply cell_eqb_eq in Ex. subst. auto.
           ++ right. rewrite H1. auto.
      * intros m [<- | Hm] Hw; [exact Hn' | auto].
      * rewrite Htodo, !todo_unexplored, length_app. simpl.
        pose proof (unexplored_cons n explored Hgrid Hne). lia.
      * rewrite Hlen. unfold dict_set. simpl.
        pose proof (unexplored_cons n explored Hgrid Hne). lia.
Qed.
End Expand.

Section Loops.
Variable start goal : cell.
Variable walls : list cell.

Lemma search_step (l1 l2 : list cell) (current : cell) cf explored f' cf' e' :
  search_inv start goal walls (l1 ++ current :: l2) cf explored ->
  current <> goal ->
  expand current walls (neighbors current) (l1 ++ l2) cf explored = (f', cf', e') ->
  search_inv start goal walls f' cf' e' /\
  (todo f' e' + 1 = todo (l1 ++ current :: l2) explored)%nat /\
  (List.length cf' + unexplored e' = List.length cf + unexplored explored)%nat.
Proof.
  intros Hinv Hng H.
  assert (Hcur : set_mem current explored = true).
  { apply (inv_frontier _ _ _ _ _ _ Hinv). apply in_or_app. right. left. reflexivity. }
  assert (Hpre : expand_inv start walls current (l1 ++ l2) cf explored).
  { split.
    - apply (inv_cf _ _ _ _ _ _ Hinv).
    - apply (inv_explored _ _ _ _ _ _ Hinv).
    - intros x Hx. apply (inv_frontier _ _ _ _ _ _ Hinv).
      apply in_app_or in Hx. apply in_or_app. destruct Hx; [left | right; right]; assumption.
    - apply (NoDup_remove_1 _ _ _ (inv_nodup _ _ _ _ _ _ Hinv)).
    - exact Hcur. }
  destruct (expand_spec start walls current (neighbors current) (fun n Hn => Hn)
              _ _ _ _ _ _ Hpre H) as (I1 & Hmono & Hfr & Hcov & Htodo & Hlen).
  split; [|split].
  - split.
    + apply (ei_cf _ _ _ _ _ _ I1).
    + apply (ei_explored _ _ _ _ _ _ I1).
    + apply (ei_frontier _ _ _ _ _ _ I1).
    + apply (ei_nodup _ _ _ _ _ _ I1).
    + intros x Hx Hnf.
      destruct (set_mem x explored) eqn:Ex.
      * assert (Hrest : ~ In x (l1 ++ l2)).
        { intros Hin. apply Hnf. apply Hfr. left. exact Hin. }
        destruct (cell_eqb x current) eqn:Ec.
        -- apply cell_eqb_eq in Ec. subst x. split; [exact Hng|].
           intros n [Hn Hw]. apply Hcov; assumption.
        -- apply cell_eqb_neq in Ec.
           assert (Hold : ~ In x (l1 ++ current :: l2)).
           { intros Hin. apply in_app_or in Hin. apply Hrest. apply in_or_app.
             destruct Hin as [Hin | [Hin | Hin]]; [left; exact Hin | congruence | right; exact Hin]. }
           destruct (inv_done _ _ _ _ _ _ Hinv x Ex Hold) as [Hg Hnb].
           split; [exact Hg|]. intros n Hn. apply Hmono. apply Hnb. exact Hn.
      * exfalso. apply Hnf. apply Hfr. right. auto.
  - rewrite Htodo, !todo_unexplored, !length_app. simpl. lia.
  - exact Hlen.
Qed.

Lemma search_exhausted cf explored :
  search_inv start goal walls [] cf explored -> ~ reachable start walls goal.
Proof.
  intros Hinv Hreach.
  assert (Hall : forall x, reachable start walls x -> set_mem x explored = true).
  { intros x Hx. induction Hx as [|x n Hx IH Hstep].
    - apply (inv_explored _ _ _ _ _ _ Hinv). left. reflexivity.
    - apply (inv_done _ _ _ _ _ _ Hinv x IH (fun F => F)). exact Hstep. }
  destruct (inv_done _ _ _ _ _ _ Hinv goal (Hall goal Hreach) (fun F => F)) as [Hg _].
  apply Hg. reflexivity.
Qed.

Lemma search_found (fuel0 : nat) (frontier : list cell) cf explored :
  search_inv start goal walls frontier cf explored ->
  In goal frontier ->
  (List.length cf < fuel0)%nat ->
  exists path, reconstruct_path fuel0 cf goal = Ok path /\ valid_path start goal walls path.
Proof.
  intros Hinv Hin Hfuel.
  apply reconstruct_path_valid.
  - apply (inv_cf _ _ _ _ _ _ Hinv).
  - apply (inv_explored _ _ _ _ _ _ Hinv). apply (inv_frontier _ _ _ _ _ _ Hinv). exact Hin.
  - exact Hfuel.
Qed.

Lemma search_result_cons ev evs :
  is_searching ev -> search_result start goal walls evs ->
  search_result start goal walls (ev :: evs).
Proof.
  intros Hev (pre & fin & -> & Hpre & Hfin).
  exists (ev :: pre), fin. split; [reflexivity|]. split; [constructor; assumption | exact Hfin].
Qed.

Lemma bfs_loop_result (fuel0 : nat) :
  (560 < fuel0)%nat ->
  forall fuel frontier cf explored,
    search_inv start goal walls frontier cf explored ->
    (todo frontier explored < fuel)%nat ->
    (List.length cf + unexplored explored <= 560)%nat ->
    exists evs,
      bfs_loop fuel0 fuel goal walls frontier cf explored = Ok evs /\
      search_result start goal walls evs.
Proof.
  intros Hf0. induction fuel as [|fuel IH]; intros frontier cf explored Hinv Htodo Hlen; [lia|].
  simpl. destruct frontier as [|current rest].
  - exists [NoPath]. split; [reflexivity|].
    exists [], NoPath. split; [reflexivity|]. split; [constructor|].
    right. split; [reflexivity|]. eapply search_exhausted; eauto.
  - destruct (cell_eqb current goal) eqn:Eg.
    + apply cell_eqb_eq in Eg. subst current.
      destruct (search_found fuel0 (goal :: rest) cf explored Hinv) as (path & Hp & Hv).
      { left. reflexivity. }
      { lia. }
      rewrite Hp. simpl. eexists. split; [reflexivity|].
      exists [Searching goal rest explored], (Found path).
      split; [reflexivity|]. split; [repeat constructor|]. left. eauto.
    + apply cell_eqb_neq in Eg.
      destruct (expand current walls (neighbors current) rest cf explored)
        as [[f' cf'] e'] eqn:E.
      destruct (search_step [] rest current cf explored f' cf' e' Hinv Eg E)
        as (Hinv' & Htodo' & Hlen').
      destruct (IH f' cf' e' Hinv') as (evs & Hevs & Hres).
      { simpl app in Htodo'. lia. }
      { lia. }
      rewrite Hevs. simpl. eexists. split; [reflexivity|].
      apply search_result_cons; [exact I | exact Hres].
Qed.

Lemma pop_spec {A : Type} (l : list A) :
  match pop l with
  | None => l = []
  | Some (init, x) => l = init ++ [x]
  end.
Proof.
  induction l as [|a l IH]; [reflexivity|].
  simpl. destruct l as [|b l]; [reflexivity|].
  destruct (pop (b :: l)) as [[init x]|].
  - rewrite IH. reflexivity.
  - discriminate IH.
Qed.

Lemma dfs_loop_result (fuel0 : nat) :
  (560 < fuel0)%nat ->
  forall fuel frontier cf explored,
    search_inv start goal walls frontier cf explored ->
    (todo frontier explored < fuel)%nat ->
    (List.length cf + unexplored explored <= 560)%nat ->
    exists evs,
      dfs_loop fuel0 fuel goal walls frontier cf explored = Ok evs /\
      search_result start goal walls evs.
Proof.
  intros Hf0. induction fuel as [|fuel IH]; intros frontier cf explored Hinv Htodo Hlen; [lia|].
  simpl. pose proof (pop_spec frontier) as Hpop.
  destruct (pop frontier) as [[rest current]|].
  - subst frontier. destruct (cell_eqb current goal) eqn:Eg.
    + apply cell_eqb_eq in Eg. subst current.
      destruct (search_found fuel0 (rest ++ [goal]) cf explored Hinv) as (path & Hp & Hv).
      { apply in_or_app. right. left. reflexivity. }
      { lia. }
      rewrite Hp. simpl. eexists. split; [reflexivity|].
      exists [Searching goal rest explored], (Found path).
      split; [reflexivity|]. split; [repeat constructor|]. left. eauto.
    + apply cell_eqb_neq in Eg.
      destruct (expand current walls (neighbors current) rest cf explored)
        as [[f' cf'] e'] eqn:E.
      assert (E' : expand current walls (neighbors current) (rest ++ []) cf explored
                   = (f', cf', e')) by (rewrite app_nil_r; exact E).
      destruct (search_step rest [] current cf explored f' cf' e' Hinv Eg E')
        as (Hinv' & Htodo' & Hlen').
      destruct (IH f' cf' e' Hinv') as (evs & Hevs & Hres).
      { lia. }
      { lia. }
      rewrite Hevs. simpl. eexists. split; [reflexivity|].
      apply search_result_cons; [exact I | exact Hres].
  - subst frontier. exists [NoPath]. split; [reflexivity|].
    exists [], NoPath. split; [reflexivity|]. split; [constructor|].
    right. split; [reflexivity|]. eapply search_exhausted; eauto.
Qed.

Lemma search_init :
  search_inv start goal walls [start] [] [start] /\
  (todo [start] [start] <= 561)%nat /\
  (List.length (@nil (cell * cell)) + unexplored [start] <= 560)%nat.
Proof.
  assert (Hu : (unexplored [start] <= 560)%nat).
  { unfold unexplored. rewrite <- all_cells_length. apply filter_length_le. }
  split; [|split].
  - split.
    + exact I.
    + intros x. unfold set_mem. simpl. rewrite orb_false_r, cell_eqb_eq.
      split; [auto|]. intros [H | H]; [exact H | congruence].
    + intros x [<- | []]. unfold set_mem. simpl. rewrite cell_eqb_refl. reflexivity.
    + repeat constructor. intros [].
    + intros x Hx Hnf. exfalso. apply Hnf.
      unfold set_mem in Hx. simpl in Hx. rewrite orb_false_r in Hx.
      apply cell_eqb_eq in Hx. left. auto.
  - rewrite todo_unexplored. simpl. lia.
  - simpl. exact Hu.
Qed.

Lemma valid_path_reachable (path : list cell) :
  valid_path start goal walls path -> reachable start walls goal.
Proof.
  intros ([rest ->] & Hlast & Hch).
  assert (H : forall l a, reachable start walls a -> chain (grid_step walls) (a :: l) ->
              reachable start walls (last (a :: l) start)).
  { induction l as [|b l IH]; intros a Ha Hc; [exact Ha|].
    destruct Hc as [Hab Hc].
    change (last (a :: b :: l) start) with (last (b :: l) start).
    apply IH; [|exact Hc]. eapply reach_step; eauto. }
  rewrite <- Hlast. apply H; [constructor | exact Hch].
Qed.

End Loops.

Lemma reachable_inv start walls x :
  reachable start walls x -> x = start \/ (in_grid x /\ set_mem x walls = false).
Proof.
  intros H. destruct H as [|y n Hy [Hn Hw]]; [left; reflexivity|].
  right. split; [|exact Hw]. apply neighbors_In in Hn. tauto.
Qed.

(** X15.  [bfs] is a complete and sound search on the grid.  For every start,
    goal and set of walls, with fuel for 562 iterations, the generator ends;
    it yields ['searching'] states and then either ['found'] with a path
    that starts at [start], ends at [goal] and moves each time to a
    neighbour that is not a wall, or ['no_path'], and this only when no such
    path exists. *)
Theorem bfs_finds_path (fuel : nat) (start goal : cell) (walls : list cell) :
  (561 < fuel)%nat ->
  exists evs,
    bfs fuel start goal walls = Ok evs /\
    exists pre fin,
      evs = pre ++ [fin] /\ Forall is_searching pre /\
      ((exists path, fin = Found path /\ valid_path start goal walls path) \/
       (fin = NoPath /\ ~ reachable start walls goal)).
Proof.
  intros Hfuel. destruct (search_init start goal walls) as (Hinv & Htodo & Hlen).
  unfold bfs.
  apply (bfs_loop_result start goal walls fuel ltac:(lia) fuel [start] [] [start] Hinv);
    [lia | exact Hlen].
Qed.

Lemma bfs_finds_path_witness :
  exists evs,
    bfs 600 (1, 1) (3, 1) [(2, 1)] = Ok evs /\
    exists pre fin,
      evs = pre ++ [fin] /\ Forall is_searching pre /\
      ((exists path, fin = Found path /\ valid_path (1, 1) (3, 1) [(2, 1)] path) \/
       (fin = NoPath /\ ~ reachable (1, 1) [(2, 1)] (3, 1))).
Proof. apply (bfs_finds_path 600 (1, 1) (3, 1) [(2, 1)]). lia. Defined.

(** X16.  [dfs] is a complete and sound search on the grid, in the same
    sense: with fuel for 562 iterations it ends, with ['found'] and a path of
    legal moves from [start] to [goal], or with ['no_path'] when there is
    none. *)
Theorem dfs_finds_path (fuel : nat) (start goal : cell) (walls : list cell) :
  (561 < fuel)%nat ->
  exists evs,
    dfs fuel start goal walls = Ok evs /\
    exists pre fin,
      evs = pre ++ [fin] /\ Forall is_searching pre /\
      ((exists path, fin = Found path /\ valid_path start goal walls path) \/
       (fin = NoPath /\ ~ reachable start walls goal)).
Proof.
  intros Hfuel. destruct (search_init start goal walls) as (Hinv & Htodo & Hlen).
  unfold dfs.
  apply (dfs_loop_result start goal walls fuel ltac:(lia) fuel [start] [] [start] Hinv);
    [lia | exact Hlen].
Qed.

Lemma dfs_finds_path_witness :
  exists evs,
    dfs 600 (1, 1) (3, 1) [(2, 1)] = Ok evs /\
    exists pre fin,
      evs = pre ++ [fin] /\ Forall is_searching pre /\
      ((exists path, fin = Found path /\ valid_path (1, 1) (3, 1) [(2, 1)] path) \/
       (fin = NoPath /\ ~ reachable (1, 1) [(2, 1)] (3, 1))).
Proof. apply (dfs_finds_path 600 (1, 1) (3, 1) [(2, 1)]). lia. Defined.

(** X17.  Start and goal are never checked against the walls or the grid.
    When [start == goal] both searches yield one ['searching'] state and
    then ['found'] with the path [[start]], also when that cell is a wall.
    When the goal differs from the start and is a wall or lies outside the
    grid, both end with ['no_path']. *)
Theorem search_start_and_goal_edges (fuel : nat) (start goal : cell) (walls : list cell) :
  (561 < fuel)%nat ->
  (start = goal ->
   bfs fuel start goal walls = Ok [Searching start [] [start]; Found [start]] /\
   dfs fuel start goal walls = Ok [Searching start [] [start]; Found [start]]) /\
  (start <> goal -> set_mem goal walls = true \/ ~ in_grid goal ->
   (exists pre, bfs fuel start goal walls = Ok (pre ++ [NoPath])) /\
   (exists pre, dfs fuel start goal walls = Ok (pre ++ [NoPath]))).
Proof.
  intros Hfuel. split.
  - intros <-. destruct fuel as [|fuel]; [lia|].
    unfold bfs, dfs. cbn [bfs_loop dfs_loop pop]. rewrite cell_eqb_refl.
    unfold reconstruct_path. cbn [reconstruct_loop dict_get obind rev app]. auto.
  - intros Hne Hbad.
    assert (Hun : ~ reachable start walls goal).
    { intros Hr. apply reachable_inv in Hr. destruct Hr as [-> | [Hg Hw]]; [congruence|].
      destruct Hbad; [congruence | contradiction]. }
    assert (Hnp : forall evs, search_result start goal walls evs ->
                    exists pre, evs = pre ++ [NoPath]).
    { intros evs (pre & fin & -> & _ & [(path & _ & Hv) | [-> _]]).
      - exfalso. apply Hun. eapply valid_path_reachable; eauto.
      - eauto. }
    destruct (search_init start goal walls) as (Hinv & Htodo & Hlen).
    split.
    + destruct (bfs_loop_result start goal walls fuel ltac:(lia) fuel [start] [] [start] Hinv)
        as (evs & He & Hr); [lia | exact Hlen |].
      destruct (Hnp evs Hr) as [pre ->]. exists pre. exact He.
    + destruct (dfs_loop_result start goal walls fuel ltac:(lia) fuel [start] [] [start] Hinv)
        as (evs & He & Hr); [lia | exact Hlen |].
      destruct (Hnp evs Hr) as [pre ->]. exists pre. exact He.
Qed.

Lemma search_start_and_goal_edges_witness :
  (bfs 600 (5, 5) (5, 5) [(5, 5)] = Ok [Searching (5, 5) [] [(5, 5)]; Found [(5, 5)]] /\
   dfs 600 (5, 5) (5, 5) [(5, 5)] = Ok [Searching (5, 5) [] [(5, 5)]; Found [(5, 5)]]) /\
  ((exists pre, bfs 600 (1, 1) (2, 2) [(2, 2)] = Ok (pre ++ [NoPath])) /\
   (exists pre, dfs 600 (1, 1) (2, 2) [(2, 2)] = Ok (pre ++ [NoPath]))).
Proof.
  split.
  - apply (search_start_and_goal_edges 600 (5, 5) (5, 5) [(5, 5)]); [lia | reflexivity].
  - apply (search_start_and_goal_edges 600 (1, 1) (2, 2) [(2, 2)]).
    + lia.
    + discriminate.
    + left. reflexivity.
Defined.

Lemma StronglySorted_ext {A : Type} (R R' : A -> A -> Prop) (l : list A) :
  (forall a b, In a l -> In b l -> R a b -> R' a b) ->
  StronglySorted R l -> StronglySorted R' l.
Proof.
  intros HR H. induction H as [|a l Hl IH Ha]; constructor.
  - apply IH. intros x y Hx Hy. apply HR; right; assumption.
  - rewrite Forall_forall in *. intros x Hx. apply HR; [left; reflexivity | right; exact Hx|].
    apply Ha. exact Hx.
Qed.

Lemma StronglySorted_snoc {A : Type} (R : A -> A -> Prop) (l : list A) (n : A) :
  StronglySorted R l -> Forall (fun x => R x n) l -> StronglySorted R (l ++ [n]).
Proof.
  intros H Hn. induction H as [|a l Hl IH Ha]; simpl.
  - constructor; constructor.
  - inversion Hn as [|? ? Han Hn']; subst. constructor; [apply IH; exact Hn'|].
    apply Forall_app. split; [exact Ha | constructor; [exact Han | constructor]].
Qed.

Lemma last_default {A : Type} (l : list A) (y d d' : A) :
  last (y :: l) d = last (y :: l) d'.
Proof.
  revert y. induction l as [|z l IH]; intros y; [reflexivity|].
  change (last (y :: z :: l) d) with (last (z :: l) d).
  change (last (y :: z :: l) d') with (last (z :: l) d').
  apply IH.
Qed.

Lemma hops_none (cf : dict cell) (x : cell) : dict_get cf x = None -> hops cf x = O.
Proof.
  induction cf as [|[k v] rest IH]; simpl; [reflexivity|].
  destruct (cell_eqb x k); [discriminate | exact IH].
Qed.

Section Hops.
Variable start : cell.
Variable walls : list cell.

Lemma hops_get (cf : dict cell) :
  wf_came_from start walls cf ->
  forall x p, dict_get cf x = Some p -> hops cf x = S (hops cf p).
Proof.
  induction cf as [|[k v] rest IH]; intros Hwf x p H; [discriminate H|].
  destruct Hwf as (Hrest & Hfresh & Hks & Hv & Hstep).
  simpl in H. simpl.
  assert (Hnk : forall q, q = start \/ dict_get rest q <> None -> cell_eqb q k = false).
  { intros q Hq. apply cell_eqb_neq. intros ->. destruct Hq; congruence. }
  destruct (cell_eqb x k) eqn:E.
  - inversion H; subst v. rewrite (Hnk p Hv). reflexivity.
  - destruct (wf_get start walls rest Hrest x p H) as (_ & _ & Hp).
    rewrite (Hnk p Hp). apply IH; assumption.
Qed.

Lemma reconstruct_loop_length (cf : dict cell) :
  wf_came_from start walls cf ->
  forall fuel x path p,
    reconstruct_loop fuel cf x path = Ok p ->
    List.length p = (List.length path + hops cf x)%nat.
Proof.
  intros Hwf. induction fuel as [|fuel IH]; intros x path p H; [discriminate H|].
  simpl in H. destruct (dict_get cf x) as [prev|] eqn:E.
  - apply IH in H. rewrite H, length_app, (hops_get cf Hwf x prev E). simpl. lia.
  - inversion H; subst p. rewrite (hops_none cf x E). lia.
Qed.

Lemma reconstruct_path_length (cf : dict cell) (fuel : nat) (x : cell) (path : list cell) :
  wf_came_from start walls cf ->
  reconstruct_path fuel cf x = Ok path ->
  List.length path = S (hops cf x).
Proof.
  intros Hwf H. unfold reconstruct_path in H.
  destruct (reconstruct_loop fuel cf x [x]) as [p| |] eqn:E; simpl in H; try discriminate H.
  inversion H; subst path. rewrite length_rev.
  rewrite (reconstruct_loop_length cf Hwf fuel x [x] p E). reflexivity.
Qed.

Variable current : cell.
Variable k : nat.

Lemma expand_levels (nbrs : list cell) :
  (forall n, In n nbrs -> In n (neighbors current)) ->
  forall frontier cf explored frontier' cf' explored',
    expand_inv start walls current frontier cf explored ->
    level_inv walls current k frontier cf explored ->
    expand current walls nbrs frontier cf explored = (frontier', cf', explored') ->
    level_inv walls current k frontier' cf' explored'.
Proof.
  induction nbrs as [|n rest IH]; intros Hn frontier cf explored frontier' cf' explored' Hinv Hlv H.
  - simpl in H. inversion H; subst. exact Hlv.
  - simpl in H.
    destruct (set_mem n explored || set_mem n walls) eqn:E.
    + apply (IH (fun m Hm => Hn m (or_intror Hm)) _ _ _ _ _ _ Hinv Hlv H).
    + assert (E1 : expand current walls [n] frontier cf explored
                   = (frontier ++ [n], dict_set cf n current, n :: explored)).
      { simpl. rewrite E. reflexivity. }
      destruct (expand_spec start walls current [n]
                  ltac:(intros m [<- | []]; apply Hn; left; reflexivity)
                  _ _ _ _ _ _ Hinv E1) as (Hinv' & _).
      apply orb_false_iff in E. destruct E as [Hne Hnw].
      assert (Hold : forall x, set_mem x explored = true -> cell_eqb x n = false).
      { intros x Hx. apply cell_eqb_neq. intros ->. congruence. }
      assert (Hcur : cell_eqb current n = false).
      { apply Hold. apply (ei_current _ _ _ _ _ _ Hinv). }
      assert (Hsame : forall x, set_mem x explored = true ->
                hops (dict_set cf n current) x = hops cf x).
      { intros x Hx. simpl. rewrite (Hold x Hx). reflexivity. }
      assert (Hnew : hops (dict_set cf n current) n = S k).
      { simpl. rewrite cell_eqb_refl. rewrite (li_current _ _ _ _ _ _ Hlv). reflexivity. }
      apply (IH (fun m Hm => Hn m (or_intror Hm)) _ _ _ _ _ _ Hinv'); [|exact H].
      split.
      * rewrite Hsame; [apply (li_current _ _ _ _ _ _ Hlv) | apply (ei_current _ _ _ _ _ _ Hinv)].
      * apply StronglySorted_snoc.
        -- eapply StronglySorted_ext; [|apply (li_sorted _ _ _ _ _ _ Hlv)].
           intros a b Ha Hb Hab. cbv beta in *.
           rewrite !Hsame; [exact Hab| |]; apply (ei_frontier _ _ _ _ _ _ Hinv); assumption.
        -- apply Forall_forall. intros x Hx.
           assert (Hxe : set_mem x explored = true)
             by (apply (ei_frontier _ _ _ _ _ _ Hinv); exact Hx).
           rewrite Hnew, (Hsame x Hxe).
           pose proof (li_high _ _ _ _ _ _ Hlv x Hxe). lia.
      * intros x Hx. apply in_app_or in Hx. destruct Hx as [Hx | [<- | []]].
        -- rewrite Hsame; [apply (li_low _ _ _ _ _ _ Hlv); exact Hx|].
           apply (ei_frontier _ _ _ _ _ _ Hinv); exact Hx.
        -- rewrite Hnew. lia.
      * intros x Hx. rewrite set_mem_cons in Hx.
        destruct (cell_eqb x n) eqn:Ex.
        -- apply cell_eqb_eq in Ex. subst x. rewrite Hnew. lia.
        -- simpl in Hx. rewrite (Hsame x Hx). apply (li_high _ _ _ _ _ _ Hlv x Hx).
      * intros x Hx Hnf. rewrite set_mem_cons in Hx.
        destruct (cell_eqb x n) eqn:Ex.
        -- apply cell_eqb_eq in Ex. subst x. exfalso. apply Hnf.
           apply in_or_app. right. left. reflexivity.
        -- simpl in Hx. rewrite (Hsame x Hx). apply (li_done _ _ _ _ _ _ Hlv x Hx).
           intros Hin. apply Hnf. apply in_or_app. left. exact Hin.
      * intros x Hx Hnf Hxc m Hm. rewrite set_mem_cons in Hx.
        destruct (cell_eqb x n) eqn:Ex.
        -- apply cell_eqb_eq in Ex. subst x. exfalso. apply Hnf.
           apply in_or_app. right. left. reflexivity.
        -- simpl in Hx.
           assert (Hnf' : ~ In x frontier)
             by (intros Hin; apply Hnf; apply in_or_app; left; exact Hin).
           destruct (li_near _ _ _ _ _ _ Hlv x Hx Hnf' Hxc m Hm) as [Hme Hmh].
           split.
           ++ rewrite set_mem_cons, Hme. apply orb_true_r.
           ++ rewrite (Hsame x Hx), (Hsame m Hme). exact Hmh.
Qed.

End Hops.

Section Shortest.
Variable start goal : cell.
Variable walls : list cell.

Lemma search_expand_inv (l1 l2 : list cell) (current : cell) cf explored :
  search_inv start goal walls (l1 ++ current :: l2) cf explored ->
  expand_inv start walls current (l1 ++ l2) cf explored.
Proof.
  intros Hinv. split.
  - apply (inv_cf _ _ _ _ _ _ Hinv).
  - apply (inv_explored _ _ _ _ _ _ Hinv).
  - intros x Hx. apply (inv_frontier _ _ _ _ _ _ Hinv).
    apply in_app_or in Hx. apply in_or_app. destruct Hx; [left | right; right]; assumption.
  - apply (NoDup_remove_1 _ _ _ (inv_nodup _ _ _ _ _ _ Hinv)).
  - apply (inv_frontier _ _ _ _ _ _ Hinv). apply in_or_app. right. left. reflexivity.
Qed.

Lemma In_dec_cell (x : cell) (l : list cell) : In x l \/ ~ In x l.
Proof.
  destruct (set_mem x l) eqn:E.
  - left. apply set_mem_In. exact E.
  - right. intros H. apply set_mem_In in H. congruence.
Qed.

Lemma bfs_step (current : cell) (rest : list cell) cf explored f' cf' e' :
  search_inv start goal walls (current :: rest) cf explored ->
  bfs_inv walls (current :: rest) cf explored ->
  expand current walls (neighbors current) rest cf explored = (f', cf', e') ->
  bfs_inv walls f' cf' e'.
Proof.
  intros Hinv Hb H.
  pose proof (search_expand_inv [] rest current cf explored Hinv) as Hpre.
  simpl app in Hpre.
  assert (Hnd : ~ In current rest).
  { pose proof (inv_nodup _ _ _ _ _ _ Hinv) as Hn. inversion Hn; assumption. }
  pose proof (bi_sorted _ _ _ _ Hb) as Hs.
  apply StronglySorted_inv in Hs. destruct Hs as [Hs Hhd].
  rewrite Forall_forall in Hhd.
  assert (Hlv : level_inv walls current (hops cf current) rest cf explored).
  { split.
    - reflexivity.
    - exact Hs.
    - exact Hhd.
    - intros x Hx. destruct (In_dec_cell x (current :: rest)) as [Hin | Hout].
      + apply (bi_window _ _ _ _ Hb current x); [left; reflexivity | exact Hin].
      + pose proof (bi_done _ _ _ _ Hb x current Hx Hout (or_introl eq_refl)). lia.
    - intros x Hx Hnf. destruct (cell_eqb x current) eqn:Ec.
      + apply cell_eqb_eq in Ec. subst. lia.
      + apply cell_eqb_neq in Ec. apply (bi_done _ _ _ _ Hb x current Hx).
        * intros [C | Hin]; [congruence | contradiction].
        * left. reflexivity.
    - intros x Hx Hnf Hxc. apply (bi_near _ _ _ _ Hb x Hx).
      intros [C | Hin]; [congruence | contradiction]. }
  pose proof (expand_levels start walls current (hops cf current) (neighbors current)
                (fun n Hn => Hn) _ _ _ _ _ _ Hpre Hlv H) as Hlv'.
  destruct (expand_spec start walls current (neighbors current) (fun n Hn => Hn)
              _ _ _ _ _ _ Hpre H) as (I1 & Hmono & Hfr & Hcov & _).
  split.
  - apply (li_sorted _ _ _ _ _ _ Hlv').
  - intros x y Hx Hy.
    pose proof (li_low _ _ _ _ _ _ Hlv' x Hx).
    pose proof (li_high _ _ _ _ _ _ Hlv' y (ei_frontier _ _ _ _ _ _ I1 y Hy)). lia.
  - intros x y Hx Hnf Hy.
    pose proof (li_done _ _ _ _ _ _ Hlv' x Hx Hnf).
    pose proof (li_low _ _ _ _ _ _ Hlv' y Hy). lia.
  - intros x Hx Hnf n Hn. destruct (cell_eqb x current) eqn:Ec.
    + apply cell_eqb_eq in Ec. subst x.
      assert (Hne : set_mem n e' = true) by (apply Hcov; apply Hn).
      split; [exact Hne|].
      rewrite (li_current _ _ _ _ _ _ Hlv'). apply (li_high _ _ _ _ _ _ Hlv' n Hne).
    + apply cell_eqb_neq in Ec. apply (li_near _ _ _ _ _ _ Hlv' x Hx Hnf Ec n Hn).
Qed.

Lemma bfs_init : bfs_inv walls [start] [] [start].
Proof.
  assert (Hs : forall x, set_mem x [start] = true -> In x [start]).
  { intros x Hx. apply set_mem_In. exact Hx. }
  split.
  - repeat constructor.
  - intros x y _ _. simpl. lia.
  - intros x y Hx Hnf. exfalso. auto.
  - intros x Hx Hnf. exfalso. auto.
Qed.

Lemma walk_bound (g : cell) (rest : list cell) cf explored :
  bfs_inv walls (g :: rest) cf explored ->
  forall l x, chain (grid_step walls) (x :: l) ->
    set_mem x explored = true ->
    last (x :: l) x = g ->
    (hops cf g <= hops cf x + List.length l)%nat.
Proof.
  intros Hb. induction l as [|y l IH]; intros x Hch Hx Hlast.
  - simpl in Hlast. subst. lia.
  - destruct Hch as [Hxy Hch].
    destruct (In_dec_cell x (g :: rest)) as [Hin | Hout].
    + pose proof (bi_sorted _ _ _ _ Hb) as Hs.
      apply StronglySorted_inv in Hs. destruct Hs as [_ Hhd].
      rewrite Forall_forall in Hhd. destruct Hin as [<- | Hin]; [lia|].
      pose proof (Hhd x Hin). lia.
    + destruct (bi_near _ _ _ _ Hb x Hx Hout y Hxy) as [Hye Hyh].
      assert (Hl : last (y :: l) y = g).
      { rewrite <- Hlast. change (last (x :: y :: l) x) with (last (y :: l) x).
        apply last_default. }
      pose proof (IH y Hch Hye Hl). simpl. lia.
Qed.

Lemma bfs_loop_shortest (fuel0 : nat) :
  forall fuel frontier cf explored evs path other,
    search_inv start goal walls frontier cf explored ->
    bfs_inv walls frontier cf explored ->
    bfs_loop fuel0 fuel goal walls frontier cf explored = Ok evs ->
    In (Found path) evs ->
    valid_path start goal walls other ->
    (List.length path <= List.length other)%nat.
Proof.
  induction fuel as [|fuel IH]; intros frontier cf explored evs path other Hinv Hb H Hin Hother;
    [discriminate H|].
  simpl in H. destruct frontier as [|current rest].
  - inversion H; subst evs. destruct Hin as [C | []]. discriminate C.
  - destruct (cell_eqb current goal) eqn:Eg.
    + apply cell_eqb_eq in Eg. subst current.
      destruct (reconstruct_path fuel0 cf goal) as [p| |] eqn:Ep; simpl in H; try discriminate H.
      inversion H; subst evs.
      destruct Hin as [C | [C | []]]; [discriminate C|]. inversion C; subst p.
      rewrite (reconstruct_path_length start walls cf fuel0 goal path
                 (inv_cf _ _ _ _ _ _ Hinv) Ep).
      destruct Hother as ([l ->] & Hlast & Hch).
      assert (Hse : set_mem start explored = true).
      { apply (inv_explored _ _ _ _ _ _ Hinv). left. reflexivity. }
      pose proof (walk_bound goal rest cf explored Hb l start Hch Hse Hlast) as Hw.
      rewrite (hops_none cf start (wf_start start walls cf (inv_cf _ _ _ _ _ _ Hinv))) in Hw.
      simpl. lia.
    + apply cell_eqb_neq in Eg.
      destruct (expand current walls (neighbors current) rest cf explored)
        as [[f' cf'] e'] eqn:E.
      destruct (search_step start goal walls [] rest current cf explored f' cf' e' Hinv Eg E)
        as (Hinv' & _).
      pose proof (bfs_step current rest cf explored f' cf' e' Hinv Hb E) as Hb'.
      destruct (bfs_loop fuel0 fuel goal walls f' cf' e') as [evs'| |] eqn:El;
        simpl in H; try discriminate H.
      inversion H; subst evs.
      destruct Hin as [C | Hin]; [discriminate C|].
      apply (IH f' cf' e' evs' path other Hinv' Hb' El Hin Hother).
Qed.

End Shortest.

(** X18.  The path that [bfs] yields with ['found'] is a shortest one: no
    path of legal moves from [start] to [goal] has fewer cells. *)
Theorem bfs_path_shortest (fuel : nat) (start goal : cell) (walls : list cell)
  (evs : list event) (path other : list cell) :
  bfs fuel start goal walls = Ok evs ->
  In (Found path) evs ->
  valid_path start goal walls other ->
  (List.length path <= List.length other)%nat.
Proof.
  intros H Hin Hother.
  destruct (search_init start goal walls) as (Hinv & _).
  apply (bfs_loop_shortest start goal walls fuel fuel [start] [] [start] evs path other
           Hinv (bfs_init start walls) H Hin Hother).
Qed.

Lemma bfs_path_shortest_witness :
  le (List.length [(1, 1); (1, 2); (2, 2); (3, 2); (3, 1)])
     (List.length [(1, 1); (0, 1); (0, 0); (1, 0); (2, 0); (3, 0); (3, 1)]).
Proof.
  assert (H : exists evs, bfs 600 (1, 1) (3, 1) [(2, 1)] = Ok evs /\
                In (Found [(1, 1); (1, 2); (2, 2); (3, 2); (3, 1)]) evs).
  { vm_compute. eexists. split; [reflexivity|].
    repeat first [left; reflexivity | right]. }
  destruct H as (evs & He & Hin).
  apply (bfs_path_shortest 600 (1, 1) (3, 1) [(2, 1)] evs _ _ He Hin).
  split; [eexists; reflexivity|]. split; [reflexivity|].
  unfold chain, grid_step. simpl. intuition.
Defined.

(** *** Best-first search: [ucs] and [astar] *)

Lemma filter_point {A : Type} (p p' : A -> bool) (l : list A) (n : A) :
  NoDup l -> In n l -> p n = true -> p' n = false ->
  (forall x, x <> n -> p' x = p x) ->
  (List.length (filter p' l) + 1 = List.length (filter p l))%nat.
Proof.
  intros Hnd Hin Hp Hp' Hoff. induction Hnd as [|x l Hx Hnd IH]; [destruct Hin|].
  simpl. destruct Hin as [-> | Hin].
  - rewrite Hp, Hp'. simpl.
    assert (E : filter p' l = filter p l).
    { apply filter_ext_in. intros a Ha. apply Hoff. intros ->. contradiction. }
    rewrite E. lia.
  - assert (Hxn : x <> n) by (intros ->; contradiction).
    rewrite (Hoff x Hxn). destruct (p x); simpl; rewrite <- (IH Hin); lia.
Qed.

Lemma filter_same {A : Type} (p p' : A -> bool) (l : list A) :
  (forall x, In x l -> p' x = p x) -> filter p' l = filter p l.
Proof. intros H. apply filter_ext_in. exact H. Qed.

Lemma sum_point {A : Type} (w w' : A -> nat) (l : list A) (n : A) :
  NoDup l -> In n l -> (w' n < w n)%nat ->
  (forall x, x <> n -> w' x = w x) ->
  (list_sum (map w' l) < list_sum (map w l))%nat.
Proof.
  intros Hnd Hin Hlt Hoff. induction Hnd as [|x l Hx Hnd IH]; [destruct Hin|].
  simpl. destruct Hin as [-> | Hin].
  - assert (E : map w' l = map w l).
    { apply map_ext_in. intros a Ha. apply Hoff. intros ->. contradiction. }
    rewrite E. lia.
  - assert (Hxn : x <> n) by (intros ->; contradiction).
    rewrite (Hoff x Hxn). specialize (IH Hin). lia.
Qed.

Lemma dict_get_set_same {V : Type} (d : dict V) (k : cell) (v : V) :
  dict_get (dict_set d k v) k = Some v.
Proof. rewrite dict_get_set, cell_eqb_refl. reflexivity. Qed.

Lemma dict_get_set_other {V : Type} (d : dict V) (k k' : cell) (v : V) :
  k' <> k -> dict_get (dict_set d k v) k' = dict_get d k'.
Proof.
  intros H. rewrite dict_get_set. apply cell_eqb_neq in H. rewrite H. reflexivity.
Qed.

Lemma undiscovered_new (G : dict Z) (n : cell) (t : Z) :
  in_grid n -> dict_get G n = None ->
  (undiscovered (dict_set G n t) + 1 = undiscovered G)%nat.
Proof.
  intros Hg Hn. unfold undiscovered. apply filter_point with (n := n).
  - apply all_cells_NoDup.
  - apply all_cells_In. exact Hg.
  - rewrite Hn. reflexivity.
  - rewrite dict_get_set_same. reflexivity.
  - intros x Hx. rewrite dict_get_set_other by exact Hx. reflexivity.
Qed.

Lemma undiscovered_old (G : dict Z) (n : cell) (t old : Z) :
  dict_get G n = Some old -> undiscovered (dict_set G n t) = undiscovered G.
Proof.
  intros Hn. unfold undiscovered. f_equal. apply filter_same. intros x _.
  destruct (cell_eqb x n) eqn:E.
  - apply cell_eqb_eq in E. subst x. rewrite dict_get_set_same, Hn. reflexivity.
  - apply cell_eqb_neq in E. rewrite dict_get_set_other by exact E. reflexivity.
Qed.

Lemma undiscovered_le (G : dict Z) : (undiscovered G <= 560)%nat.
Proof. unfold undiscovered. rewrite <- all_cells_length. apply filter_length_le. Qed.

Lemma potential_drop (G : dict Z) (n : cell) (t : Z) :
  in_grid n -> 0 <= t <= 560 ->
  match dict_get G n with None => True | Some old => t < old end ->
  (potential (dict_set G n t) < potential G)%nat.
Proof.
  intros Hg Ht Hold. unfold potential. apply sum_point with (n := n).
  - apply all_cells_NoDup.
  - apply all_cells_In. exact Hg.
  - rewrite dict_get_set_same. destruct (dict_get G n) as [old|]; lia.
  - intros x Hx. rewrite dict_get_set_other by exact Hx. reflexivity.
Qed.

Lemma potential_le (G : dict Z) :
  (forall n gn, dict_get G n = Some gn -> gn <= 560) ->
  (potential G <= 560 * 561)%nat.
Proof.
  intros HG. unfold potential.
  assert (H : forall l : list cell,
            (list_sum (map (fun c => match dict_get G c with
                                     | Some g => Z.to_nat g | None => 561%nat end) l)
             <= List.length l * 561)%nat).
  { induction l as [|c l IH]; simpl; [lia|].
    destruct (dict_get G c) as [g|] eqn:E; [|lia].
    pose proof (HG c g E). lia. }
  specialize (H all_cells). rewrite all_cells_length in H. exact H.
Qed.

Lemma neighbors_not_self (x n : cell) : In n (neighbors x) -> n <> x.
Proof.
  intros H ->. apply neighbors_In in H. destruct H as [_ H].
  unfold manhattan in H. lia.
Qed.

Lemma improves_true (G : dict Z) (n : cell) (t : Z) :
  improves G n t = true ->
  match dict_get G n with None => True | Some old => t < old end.
Proof.
  unfold improves. destruct (dict_get G n); [|auto]. apply Z.ltb_lt.
Qed.

Lemma improves_false (G : dict Z) (n : cell) (t : Z) :
  improves G n t = false -> exists old, dict_get G n = Some old /\ old <= t.
Proof.
  unfold improves. destruct (dict_get G n) as [old|]; [|discriminate].
  intros H. apply Z.ltb_ge in H. eauto.
Qed.

Section BestFirst.
Variable h : cell -> Z.
Variable start goal : cell.
Variable walls : list cell.

Section Relax.
Variable current : cell.
Variable gc : Z.

Lemma relax_improve seen Q G CF explored n Q' :
  relax_inv h start goal walls current gc seen Q G CF explored ->
  In n (neighbors current) -> set_mem n walls = false ->
  improves G n (gc + 1) = true ->
  Permutation Q' ((gc + 1 + h n, gc + 1, n) :: Q) ->
  relax_inv h start goal walls current gc (n :: seen) Q'
    (dict_set G n (gc + 1)) (dict_set CF n current) explored /\
  (List.length Q' + potential (dict_set G n (gc + 1)%Z) <= List.length Q + potential G)%nat.
Proof.
  intros Hinv Hn Hw Himp HQ.
  pose proof (improves_true G n (gc + 1) Himp) as Hold.
  destruct (rx_current _ _ _ _ _ _ _ _ _ _ _ Hinv) as [Hgc Hce].
  destruct (rx_dom _ _ _ _ _ _ _ _ _ _ _ Hinv current gc Hgc) as [Hgc0 _].
  destruct (rx_start _ _ _ _ _ _ _ _ _ _ _ Hinv) as [HGs HCs].
  assert (Hnc : n <> current) by (apply neighbors_not_self; exact Hn).
  assert (Hcn : current <> n) by congruence.
  assert (Hgrid : in_grid n) by (apply neighbors_In in Hn; tauto).
  assert (Hns : n <> start).
  { intros ->. rewrite HGs in Hold. lia. }
  assert (Hsn : start <> n) by congruence.
  assert (HQin : forall v, In v Q' <-> v = (gc + 1 + h n, gc + 1, n) \/ In v Q).
  { intros v. split.
    - intros Hv. apply (Permutation_in _ HQ) in Hv. destruct Hv as [<- | Hv]; auto.
    - intros Hv. apply (Permutation_in _ (Permutation_sym HQ)).
      destruct Hv as [-> | Hv]; [left | right]; auto. }
  assert (Hle : forall x gx, dict_get (dict_set G n (gc + 1)) x = Some gx ->
            (x = n /\ gx = gc + 1) \/ (x <> n /\ dict_get G x = Some gx)).
  { intros x gx Hx. destruct (cell_eqb x n) eqn:E.
    - apply cell_eqb_eq in E. subst x. rewrite dict_get_set_same in Hx.
      inversion Hx. auto.
    - apply cell_eqb_neq in E. rewrite dict_get_set_other in Hx by exact E. auto. }
  assert (Hmono : forall x gx, dict_get G x = Some gx ->
            exists gx', dict_get (dict_set G n (gc + 1)) x = Some gx' /\ gx' <= gx).
  { intros x gx Hx. destruct (cell_eqb x n) eqn:E.
    - apply cell_eqb_eq in E. subst x. rewrite dict_get_set_same.
      rewrite Hx in Hold. exists (gc + 1). split; [reflexivity | lia].
    - apply cell_eqb_neq in E. rewrite dict_get_set_other by exact E.
      exists gx. split; [exact Hx | lia]. }
  assert (Hund : (undiscovered (dict_set G n (gc + 1)%Z) <= undiscovered G)%nat /\
                 gc + 1 + Z.of_nat (undiscovered (dict_set G n (gc + 1))) <= 560).
  { pose proof (rx_bound _ _ _ _ _ _ _ _ _ _ _ Hinv current gc Hgc) as Hb.
    destruct (dict_get G n) as [old|] eqn:En.
    - rewrite (undiscovered_old G n (gc + 1) old En). split; [lia|].
      pose proof (rx_bound _ _ _ _ _ _ _ _ _ _ _ Hinv n old En). lia.
    - pose proof (undiscovered_new G n (gc + 1) Hgrid En). lia. }
  destruct Hund as [Hund Hnb].
  split.
  - split.
    + split; [rewrite dict_get_set_other by exact Hsn; exact HGs|].
      rewrite dict_get_set_other by exact Hsn. exact HCs.
    + intros m p Hm. destruct (cell_eqb m n) eqn:E.
      * apply cell_eqb_eq in E. subst m. rewrite dict_get_set_same in Hm.
        inversion Hm; subst p. split; [split; assumption|].
        exists (gc + 1), gc. rewrite dict_get_set_same.
        rewrite dict_get_set_other by exact Hcn. repeat split; auto. lia.
      * apply cell_eqb_neq in E. rewrite dict_get_set_other in Hm by exact E.
        destruct (rx_link _ _ _ _ _ _ _ _ _ _ _ Hinv m p Hm) as (Hstep & gm & gp & Hgm & Hgp & Hlt).
        split; [exact Hstep|].
        destruct (Hmono p gp Hgp) as (gp' & Hgp' & Hle').
        exists gm, gp'. rewrite dict_get_set_other by exact E.
        repeat split; auto. lia.
    + intros m gm Hm. destruct (Hle m gm Hm) as [[-> ->] | [Hmn Hm']].
      * split; [lia|]. right. rewrite dict_get_set_same. discriminate.
      * destruct (rx_dom _ _ _ _ _ _ _ _ _ _ _ Hinv m gm Hm') as [H0 Hd].
        split; [exact H0|]. destruct Hd as [-> | Hd]; [left; reflexivity|].
        right. rewrite dict_get_set_other by exact Hmn. exact Hd.
    + intros m gm Hm. destruct (Hle m gm Hm) as [[-> ->] | [Hmn Hm']].
      * exact Hnb.
      * pose proof (rx_bound _ _ _ _ _ _ _ _ _ _ _ Hinv m gm Hm'). lia.
    + intros f g m Hin. apply HQin in Hin. destruct Hin as [E | Hin].
      * inversion E; subst. split; [reflexivity|].
        exists (gc + 1). rewrite dict_get_set_same. split; [reflexivity | lia].
      * destruct (rx_heap _ _ _ _ _ _ _ _ _ _ _ Hinv f g m Hin) as (Hf & gm & Hgm & Hle').
        split; [exact Hf|].
        destruct (Hmono m gm Hgm) as (gm' & Hgm' & Hle''). exists gm'. split; [exact Hgm' | lia].
    + intros x gx Hxc Hx. destruct (Hle x gx Hx) as [[-> ->] | [Hxn Hx']].
      * left. apply HQin. left. reflexivity.
      * destruct (rx_settled _ _ _ _ _ _ _ _ _ _ _ Hinv x gx Hxc Hx') as [Hlive | [He Hrel]].
        -- left. apply HQin. right. exact Hlive.
        -- right. split; [exact He|]. intros y Hy.
           destruct (Hrel y Hy) as (gy & Hgy & Hle').
           destruct (Hmono y gy Hgy) as (gy' & Hgy' & Hle''). exists gy'. split; [exact Hgy' | lia].
    + apply (rx_goal _ _ _ _ _ _ _ _ _ _ _ Hinv).
    + split; [rewrite dict_get_set_other by exact Hcn; exact Hgc | exact Hce].
    + intros y [<- | Hy] Hwy.
      * exists (gc + 1). rewrite dict_get_set_same. split; [reflexivity | lia].
      * destruct (rx_seen _ _ _ _ _ _ _ _ _ _ _ Hinv y Hy Hwy) as (gy & Hgy & Hle').
        destruct (Hmono y gy Hgy) as (gy' & Hgy' & Hle''). exists gy'. split; [exact Hgy' | lia].
  - rewrite (Permutation_length HQ). cbn [List.length]. unfold view.
    assert (Hp : (potential (dict_set G n (gc + 1)%Z) < potential G)%nat).
    { apply potential_drop; [exact Hgrid | lia | exact Hold]. }
    lia.
Qed.

Lemma relax_keep seen Q G CF explored n :
  relax_inv h start goal walls current gc seen Q G CF explored ->
  improves G n (gc + 1) = false ->
  relax_inv h start goal walls current gc (n :: seen) Q G CF explored.
Proof.
  intros Hinv Himp. destruct (improves_false G n (gc + 1) Himp) as (old & Hold & Hle).
  split; try apply Hinv.
  intros y [<- | Hy] Hwy; [eauto|].
  apply (rx_seen _ _ _ _ _ _ _ _ _ _ _ Hinv y Hy Hwy).
Qed.

Lemma relax_wall seen Q G CF explored n :
  relax_inv h start goal walls current gc seen Q G CF explored ->
  set_mem n walls = true ->
  relax_inv h start goal walls current gc (n :: seen) Q G CF explored.
Proof.
  intros Hinv Hw. split; try apply Hinv.
  intros y [<- | Hy] Hwy; [congruence|].
  apply (rx_seen _ _ _ _ _ _ _ _ _ _ _ Hinv y Hy Hwy).
Qed.

Lemma best_close seen Q G CF explored :
  relax_inv h start goal walls current gc seen Q G CF explored ->
  (forall y, In y (neighbors current) -> In y seen) ->
  best_inv h start goal walls Q G CF explored.
Proof.
  intros Hinv Hall. split; try apply Hinv.
  intros x gx Hx. destruct (cell_eqb x current) eqn:E.
  - apply cell_eqb_eq in E. subst x.
    destruct (rx_current _ _ _ _ _ _ _ _ _ _ _ Hinv) as [Hgc Hce].
    rewrite Hgc in Hx. inversion Hx; subst gx.
    right. split; [exact Hce|]. intros y [Hy Hwy].
    apply (rx_seen _ _ _ _ _ _ _ _ _ _ _ Hinv y (Hall y Hy) Hwy).
  - apply cell_eqb_neq in E. apply (rx_settled _ _ _ _ _ _ _ _ _ _ _ Hinv x gx E Hx).
Qed.

End Relax.

Lemma best_pop Q G CF explored f g current Q' :
  best_inv h start goal walls Q G CF explored ->
  Permutation Q ((f, g, current) :: Q') ->
  current <> goal ->
  exists gc,
    relax_inv h start goal walls current gc [] Q' G CF (current :: explored).
Proof.
  intros Hinv HQ Hng.
  assert (Hpop : In (f, g, current) Q).
  { apply (Permutation_in _ (Permutation_sym HQ)). left. reflexivity. }
  destruct (bf_heap _ _ _ _ _ _ _ _ Hinv f g current Hpop) as (_ & gc & Hgc & _).
  exists gc. split; try apply Hinv.
  - intros f' g' n Hin. apply (bf_heap _ _ _ _ _ _ _ _ Hinv).
    apply (Permutation_in _ (Permutation_sym HQ)). right. exact Hin.
  - intros x gx Hxc Hx.
    destruct (bf_settled _ _ _ _ _ _ _ _ Hinv x gx Hx) as [Hlive | [He Hrel]].
    + left. apply (Permutation_in _ HQ) in Hlive. destruct Hlive as [E | Hlive]; [|exact Hlive].
      inversion E. congruence.
    + right. split; [|exact Hrel]. rewrite set_mem_cons, He. apply orb_true_r.
  - rewrite set_mem_cons, (bf_goal _ _ _ _ _ _ _ _ Hinv).
    assert (E : cell_eqb goal current = false) by (apply cell_eqb_neq; congruence).
    rewrite E. reflexivity.
  - split; [exact Hgc|]. rewrite set_mem_cons, cell_eqb_refl. reflexivity.
  - intros y [].
Qed.

Lemma best_exhausted G CF explored :
  best_inv h start goal walls [] G CF explored -> ~ reachable start walls goal.
Proof.
  intros Hinv Hreach.
  assert (Hall : forall x, reachable start walls x -> exists gx, dict_get G x = Some gx).
  { intros x Hx. induction Hx as [|x n Hx IH Hstep].
    - exists 0. apply (bf_start _ _ _ _ _ _ _ _ Hinv).
    - destruct IH as [gx Hgx].
      destruct (bf_settled _ _ _ _ _ _ _ _ Hinv x gx Hgx) as [[] | [_ Hrel]].
      destruct (Hrel n Hstep) as (gn & Hgn & _). eauto. }
  destruct (Hall goal Hreach) as [gg Hgg].
  destruct (bf_settled _ _ _ _ _ _ _ _ Hinv goal gg Hgg) as [[] | [He _]].
  rewrite (bf_goal _ _ _ _ _ _ _ _ Hinv) in He. discriminate.
Qed.

Hypothesis Hadm : forall l x,
  chain (grid_step walls) (x :: l) -> last (x :: l) x = goal ->
  h x <= Z.of_nat (List.length l).
Hypothesis Hgoal : 0 <= h goal.

Lemma best_walk Q G CF explored :
  best_inv h start goal walls Q G CF explored ->
  forall l x gx,
    chain (grid_step walls) (x :: l) -> last (x :: l) x = goal ->
    dict_get G x = Some gx ->
    (exists gg, dict_get G goal = Some gg /\ gg <= gx + Z.of_nat (List.length l)) \/
    (exists f g n, In (f, g, n) Q /\ f <= gx + Z.of_nat (List.length l)).
Proof.
  intros Hinv. induction l as [|y l IH]; intros x gx Hch Hlast Hx.
  - simpl in Hlast. subst x. left. exists gx. split; [exact Hx | lia].
  - destruct (bf_settled _ _ _ _ _ _ _ _ Hinv x gx Hx) as [Hlive | [_ Hrel]].
    + right. exists (gx + h x), gx, x. split; [exact Hlive|].
      pose proof (Hadm (y :: l) x Hch Hlast). lia.
    + destruct Hch as [Hxy Hch].
      destruct (Hrel y Hxy) as (gy & Hgy & Hle).
      assert (Hl : last (y :: l) y = goal).
      { rewrite <- Hlast. change (last (x :: y :: l) x) with (last (y :: l) x).
        apply last_default. }
      destruct (IH y gy Hch Hl Hgy) as [(gg & Hgg & Hb) | (f & g & n & Hin & Hb)].
      * left. exists gg. split; [exact Hgg|]. simpl List.length. lia.
      * right. exists f, g, n. split; [exact Hin|]. simpl List.length. lia.
Qed.

Lemma best_goal Q G CF explored f g Q' :
  best_inv h start goal walls Q G CF explored ->
  Permutation Q ((f, g, goal) :: Q') ->
  (forall f' g' n', In (f', g', n') Q' -> f <= f') ->
  exists gg,
    dict_get G goal = Some gg /\ gg <= g /\ f <= gg + h goal /\ f = g + h goal /\
    forall other, valid_path start goal walls other ->
      gg + 1 <= Z.of_nat (List.length other).
Proof.
  intros Hinv HQ Hmin.
  assert (Hpop : In (f, g, goal) Q).
  { apply (Permutation_in _ (Permutation_sym HQ)). left. reflexivity. }
  destruct (bf_heap _ _ _ _ _ _ _ _ Hinv f g goal Hpop) as (Hf & gg & Hgg & Hle).
  assert (Hfirst : forall f' g' n', In (f', g', n') Q -> f <= f').
  { intros f' g' n' Hin. apply (Permutation_in _ HQ) in Hin.
    destruct Hin as [E | Hin]; [inversion E; lia | eauto]. }
  exists gg. split; [exact Hgg|]. split; [exact Hle|]. split; [|split; [exact Hf|]].
  - destruct (bf_settled _ _ _ _ _ _ _ _ Hinv goal gg Hgg) as [Hlive | [He _]].
    + apply (Hfirst _ _ _ Hlive).
    + rewrite (bf_goal _ _ _ _ _ _ _ _ Hinv) in He. discriminate.
  - intros other ([l ->] & Hlast & Hch).
    destruct (best_walk Q G CF explored Hinv l start 0 Hch Hlast
                (proj1 (bf_start _ _ _ _ _ _ _ _ Hinv)))
      as [(gg' & Hgg' & Hb) | (f' & g' & n' & Hin & Hb)].
    + rewrite Hgg in Hgg'. inversion Hgg'; subst gg'. simpl List.length. lia.
    + pose proof (Hfirst _ _ _ Hin). simpl List.length. lia.
Qed.

End BestFirst.

Section BestPath.
Variable h : cell -> Z.
Variable start goal : cell.
Variable walls : list cell.

Lemma best_reconstruct_loop Q G CF explored :
  best_inv h start goal walls Q G CF explored ->
  forall fuel x gx path pre,
    path = pre ++ [x] -> dict_get G x = Some gx -> (Z.to_nat gx < fuel)%nat ->
    exists p q,
      reconstruct_loop fuel CF x path = Ok p /\ p = q ++ [start] /\
      (List.length p <= List.length path + Z.to_nat gx)%nat.
Proof.
  intros Hinv. induction fuel as [|fuel IH]; intros x gx path pre Hpath Hx Hfuel; [lia|].
  simpl. destruct (dict_get CF x) as [prev|] eqn:E.
  - destruct (bf_link _ _ _ _ _ _ _ _ Hinv x prev E) as (_ & gn & gp & Hgn & Hgp & Hlt).
    rewrite Hx in Hgn. inversion Hgn; subst gn.
    destruct (bf_dom _ _ _ _ _ _ _ _ Hinv prev gp Hgp) as [Hp0 _].
    destruct (IH prev gp (path ++ [prev]) path eq_refl Hgp ltac:(lia)) as (p & q & Hp & Hq & Hlen).
    exists p, q. split; [exact Hp|]. split; [exact Hq|].
    rewrite length_app in Hlen. simpl in Hlen. lia.
  - destruct (bf_dom _ _ _ _ _ _ _ _ Hinv x gx Hx) as [_ [-> | Hc]]; [|congruence].
    exists path, pre. split; [reflexivity|]. split; [exact Hpath | lia].
Qed.

Lemma best_reconstruct Q G CF explored (fuel : nat) (x : cell) (gx : Z) :
  best_inv h start goal walls Q G CF explored ->
  dict_get G x = Some gx -> (Z.to_nat gx < fuel)%nat ->
  exists path,
    reconstruct_path fuel CF x = Ok path /\
    valid_path start x walls path /\
    Z.of_nat (List.length path) <= gx + 1.
Proof.
  intros Hinv Hx Hfuel. unfold reconstruct_path.
  destruct (best_reconstruct_loop Q G CF explored Hinv fuel x gx [x] [] eq_refl Hx Hfuel)
    as (p & q & Hp & Hq & Hlen).
  rewrite Hp. simpl obind. exists (rev p). split; [reflexivity|].
  destruct (reconstruct_loop_spec CF fuel x [x] [] p eq_refl I Hp)
    as (Hch & (ext & Hext) & _).
  destruct (bf_dom _ _ _ _ _ _ _ _ Hinv x gx Hx) as [Hg0 _].
  split; [split; [|split]|].
  - exists (rev q). rewrite Hq, rev_app_distr. reflexivity.
  - rewrite Hext. simpl. rewrite last_last. reflexivity.
  - apply chain_rev in Hch.
    eapply chain_impl; [|exact Hch].
    intros a b Hab. cbv beta in Hab. apply (bf_link _ _ _ _ _ _ _ _ Hinv b a Hab).
  - rewrite length_rev. simpl in Hlen. lia.
Qed.

End BestPath.

Example ucs_small :
  exists evs, ucs ucs_list_heap 600 (1, 1) (3, 1) [(2, 1)] None = Yields evs /\
    last evs CostNoPath = CostFound [(1, 1); (1, 0); (2, 0); (3, 0); (3, 1)] 4.
Proof. vm_compute. eexists. split; reflexivity. Qed.

Example astar_small :
  exists evs, astar astar_list_heap 600 (1, 1) (3, 1) [(2, 1)] manhattan None = Yields evs /\
    last evs CostNoPath = CostFound [(1, 1); (1, 0); (2, 0); (3, 0); (3, 1)] 4.
Proof. vm_compute. eexists. split; reflexivity. Qed.

Lemma cost_result_cons start goal walls ev evs :
  is_cost_searching ev -> cost_result start goal walls evs ->
  cost_result start goal walls (ev :: evs).
Proof.
  intros Hev (pre & fin & -> & Hpre & Hfin).
  exists (ev :: pre), fin. split; [reflexivity|]. split; [constructor; assumption | exact Hfin].
Qed.

Lemma best_init (h : cell -> Z) (start goal : cell) (walls : list cell) :
  best_inv h start goal walls [(0 + h start, 0, start)] [(start, 0)] [] [] /\
  (1 + potential [(start, 0%Z)] <= 1 + 560 * 561)%nat.
Proof.
  assert (Hg : forall n gn, dict_get [(start, 0)] n = Some gn -> n = start /\ gn = 0).
  { intros n gn H. simpl in H. destruct (cell_eqb n start) eqn:E; [|discriminate H].
    apply cell_eqb_eq in E. inversion H. auto. }
  assert (Hs : dict_get [(start, 0)] start = Some 0).
  { simpl. rewrite cell_eqb_refl. reflexivity. }
  split.
  - split.
    + split; [exact Hs | reflexivity].
    + intros n p H. discriminate H.
    + intros n gn H. destruct (Hg n gn H) as [-> ->]. split; [lia | left; reflexivity].
    + intros n gn H. destruct (Hg n gn H) as [-> ->].
      pose proof (undiscovered_le [(start, 0)]). lia.
    + intros f g n [E | []]. inversion E; subst. split; [reflexivity|].
      exists 0. split; [exact Hs | lia].
    + intros x gx H. destruct (Hg x gx H) as [-> ->]. left. left. reflexivity.
    + reflexivity.
  - apply Nat.add_le_mono_l. apply potential_le.
    intros n gn H. destruct (Hg n gn H) as [-> ->]. lia.
Qed.

Section UcsCorrect.
Variable H : heapq ucs_item ucs_le.
Variable start goal : cell.
Variable walls : list cell.

Let h0 : cell -> Z := fun _ => 0.
Let views (hp : heap H) : list view := map ucs_view (heap_items H hp).

Lemma ucs_expand_inv (current : cell) (gc : Z) (explored : list cell) :
  forall nbrs seen hp CF G,
    relax_inv h0 start goal walls current gc seen (views hp) G CF explored ->
    (forall n, In n nbrs -> In n (neighbors current)) ->
    exists hp' CF' G' seen',
      ucs_expand H (fun _ _ => 1) current walls nbrs hp CF G = Yields (hp', CF', G') /\
      relax_inv h0 start goal walls current gc seen' (views hp') G' CF' explored /\
      (forall y, In y nbrs \/ In y seen -> In y seen') /\
      (List.length (views hp') + potential G' <= List.length (views hp) + potential G)%nat.
Proof.
  induction nbrs as [|n rest IH]; intros seen hp CF G Hinv Hn.
  - exists hp, CF, G, seen. split; [reflexivity|]. split; [exact Hinv|].
    split; [intros y [[] | Hy]; exact Hy | lia].
  - simpl. assert (Hrest : forall m, In m rest -> In m (neighbors current))
      by (intros m Hm; apply Hn; right; exact Hm).
    destruct (set_mem n walls) eqn:Ew.
    + destruct (IH (n :: seen) hp CF G (relax_wall _ _ _ _ _ _ _ _ _ _ _ _ Hinv Ew) Hrest)
        as (hp' & CF' & G' & seen' & He & Hinv' & Hseen & Hm).
      exists hp', CF', G', seen'. split; [exact He|]. split; [exact Hinv'|].
      split; [|exact Hm].
      intros y [[<- | Hy] | Hy]; apply Hseen; [right; left | left | right; right]; auto.
    + rewrite (proj1 (rx_current _ _ _ _ _ _ _ _ _ _ _ Hinv)).
      destruct (improves G n (gc + 1)) eqn:Ei.
      * assert (HQ : Permutation (views (heappush H hp (gc + 1, n)))
                       ((gc + 1 + h0 n, gc + 1, n) :: views hp)).
        { unfold views, h0. rewrite Z.add_0_r.
          change (gc + 1, gc + 1, n) with (ucs_view (gc + 1, n)).
          rewrite <- map_cons. apply Permutation_map. apply heappush_items. }
        destruct (relax_improve h0 start goal walls current gc seen (views hp) G CF explored
                    n _ Hinv (Hn n (or_introl eq_refl)) Ew Ei HQ) as [Hinv1 Hm1].
        destruct (IH (n :: seen) _ _ _ Hinv1 Hrest)
          as (hp' & CF' & G' & seen' & He & Hinv' & Hseen & Hm).
        exists hp', CF', G', seen'. split; [exact He|]. split; [exact Hinv'|].
        split; [|unfold view in *; lia].
        intros y [[<- | Hy] | Hy]; apply Hseen; [right; left | left | right; right]; auto.
      * destruct (IH (n :: seen) hp CF G (relax_keep _ _ _ _ _ _ _ _ _ _ _ _ Hinv Ei) Hrest)
          as (hp' & CF' & G' & seen' & He & Hinv' & Hseen & Hm).
        exists hp', CF', G', seen'. split; [exact He|]. split; [exact Hinv'|].
        split; [|exact Hm].
        intros y [[<- | Hy] | Hy]; apply Hseen; [right; left | left | right; right]; auto.
Qed.

Lemma ucs_le_fst (a b : ucs_item) : ucs_le a b -> fst a <= fst b.
Proof.
  unfold ucs_le, ucs_leb. rewrite orb_true_iff, andb_true_iff, Z.ltb_lt, Z.eqb_eq. lia.
Qed.

Lemma ucs_loop_result (fuel0 : nat) :
  (561 < fuel0)%nat ->
  forall fuel hp CF G explored,
    best_inv h0 start goal walls (views hp) G CF explored ->
    (List.length (views hp) + potential G < fuel)%nat ->
    exists evs,
      ucs_loop H fuel0 fuel (fun _ _ => 1) goal walls hp CF G explored = Yields evs /\
      cost_result start goal walls evs.
Proof.
  intros Hf0. induction fuel as [|fuel IH]; intros hp CF G explored Hinv Hm; [lia|].
  simpl. destruct (heappop H hp) as [[[c current] hp']|] eqn:Ep.
  - destruct (heappop_some _ _ H hp (c, current) hp' Ep) as [Hperm Hmin].
    assert (HQ : Permutation (views hp) ((c, c, current) :: views hp')).
    { unfold views. change (c, c, current) with (ucs_view (c, current)).
      rewrite <- map_cons. apply Permutation_map. exact Hperm. }
    destruct (cell_eqb current goal) eqn:Eg.
    + apply cell_eqb_eq in Eg. subst current.
      assert (Hadm : forall l x, chain (grid_step walls) (x :: l) ->
                last (x :: l) x = goal -> h0 x <= Z.of_nat (List.length l))
        by (intros; unfold h0; lia).
      destruct (best_goal h0 start goal walls Hadm ltac:(unfold h0; lia)
                  (views hp) G CF explored c c (views hp') Hinv HQ)
        as (gg & Hgg & Hle & Hf & _ & Hopt).
      { intros f' g' n' Hin. unfold views in Hin. apply in_map_iff in Hin.
        destruct Hin as ([c' m] & E & Hin). rewrite Forall_forall in Hmin.
        pose proof (ucs_le_fst _ _ (Hmin _ Hin)) as Hx. inversion E; subst.
        exact Hx. }
      unfold h0 in Hf. assert (c = gg) by lia. subst c.
      pose proof (bf_bound _ _ _ _ _ _ _ _ Hinv goal gg Hgg) as Hb.
      destruct (bf_dom _ _ _ _ _ _ _ _ Hinv goal gg Hgg) as [Hg0 _].
      destruct (best_reconstruct h0 start goal walls (views hp) G CF explored fuel0 goal gg
                  Hinv Hgg ltac:(lia)) as (path & Hp & Hv & Hlen).
      rewrite Hp. eexists. split; [reflexivity|].
      exists [CostSearching goal (map snd (heap_items H hp')) (goal :: explored) G],
        (CostFound path gg).
      split; [reflexivity|]. split; [repeat constructor|]. left.
      exists path, gg. split; [reflexivity|]. split; [exact Hv|].
      pose proof (Hopt path Hv) as Hself. split; [lia|].
      intros other Hother. pose proof (Hopt other Hother). lia.
    + apply cell_eqb_neq in Eg.
      destruct (best_pop h0 start goal walls (views hp) G CF explored c c current (views hp')
                  Hinv HQ Eg) as [gc Hrel].
      destruct (ucs_expand_inv current gc (current :: explored) (neighbors current) []
                  hp' CF G Hrel (fun n Hn => Hn))
        as (hp2 & CF2 & G2 & seen2 & He & Hrel2 & Hseen & Hm2).
      rewrite He. simpl abind.
      pose proof (best_close h0 start goal walls current gc seen2 _ _ _ _ Hrel2
                    (fun y Hy => Hseen y (or_introl Hy))) as Hinv2.
      destruct (IH hp2 CF2 G2 (current :: explored) Hinv2) as (evs & Hevs & Hres).
      { rewrite (Permutation_length HQ) in Hm. cbn [List.length] in Hm.
        unfold view in *. lia. }
      rewrite Hevs. simpl abind. eexists. split; [reflexivity|].
      apply cost_result_cons; [exact I | exact Hres].
  - apply (heappop_none _ _ H) in Ep.
    exists [CostNoPath]. split; [reflexivity|].
    exists [], CostNoPath. split; [reflexivity|]. split; [constructor|].
    right. split; [reflexivity|].
    apply (best_exhausted h0 start goal walls G CF explored).
    unfold views in Hinv. rewrite Ep in Hinv. exact Hinv.
Qed.

End UcsCorrect.

Section AstarCorrect.
Variable H : heapq astar_item astar_le.
Variable start goal : cell.
Variable walls : list cell.
Variable heuristic : cell -> cell -> Z.

Let hg : cell -> Z := fun n => heuristic n goal.

Lemma astar_expand_inv (current : cell) (gc : Z) (explored : list cell) :
  forall nbrs seen hp CF G,
    relax_inv hg start goal walls current gc seen (heap_items H hp) G CF explored ->
    (forall n, In n nbrs -> In n (neighbors current)) ->
    exists hp' CF' G' seen',
      astar_expand H heuristic (fun _ _ => 1) current goal walls nbrs hp CF G
        = Yields (hp', CF', G') /\
      relax_inv hg start goal walls current gc seen' (heap_items H hp') G' CF' explored /\
      (forall y, In y nbrs \/ In y seen -> In y seen') /\
      (List.length (heap_items H hp') + potential G'
       <= List.length (heap_items H hp) + potential G)%nat.
Proof.
  induction nbrs as [|n rest IH]; intros seen hp CF G Hinv Hn.
  - exists hp, CF, G, seen. split; [reflexivity|]. split; [exact Hinv|].
    split; [intros y [[] | Hy]; exact Hy | lia].
  - simpl. assert (Hrest : forall m, In m rest -> In m (neighbors current))
      by (intros m Hm; apply Hn; right; exact Hm).
    destruct (set_mem n walls) eqn:Ew.
    + destruct (IH (n :: seen) hp CF G (relax_wall _ _ _ _ _ _ _ _ _ _ _ _ Hinv Ew) Hrest)
        as (hp' & CF' & G' & seen' & He & Hinv' & Hseen & Hm).
      exists hp', CF', G', seen'. split; [exact He|]. split; [exact Hinv'|].
      split; [|exact Hm].
      intros y [[<- | Hy] | Hy]; apply Hseen; [right; left | left | right; right]; auto.
    + rewrite (proj1 (rx_current _ _ _ _ _ _ _ _ _ _ _ Hinv)).
      destruct (improves G n (gc + 1)) eqn:Ei.
      * assert (HQ : Permutation (heap_items H (heappush H hp (gc + 1 + heuristic n goal, gc + 1, n)))
                       ((gc + 1 + hg n, gc + 1, n) :: heap_items H hp))
          by apply heappush_items.
        destruct (relax_improve hg start goal walls current gc seen (heap_items H hp) G CF
                    explored n _ Hinv (Hn n (or_introl eq_refl)) Ew Ei HQ) as [Hinv1 Hm1].
        destruct (IH (n :: seen) _ _ _ Hinv1 Hrest)
          as (hp' & CF' & G' & seen' & He & Hinv' & Hseen & Hm).
        exists hp', CF', G', seen'. split; [exact He|]. split; [exact Hinv'|].
        split; [|unfold view, astar_item in *; lia].
        intros y [[<- | Hy] | Hy]; apply Hseen; [right; left | left | right; right]; auto.
      * destruct (IH (n :: seen) hp CF G (relax_keep _ _ _ _ _ _ _ _ _ _ _ _ Hinv Ei) Hrest)
          as (hp' & CF' & G' & seen' & He & Hinv' & Hseen & Hm).
        exists hp', CF', G', seen'. split; [exact He|]. split; [exact Hinv'|].
        split; [|exact Hm].
        intros y [[<- | Hy] | Hy]; apply Hseen; [right; left | left | right; right]; auto.
Qed.

Lemma astar_le_fst (f g f' g' : Z) (n n' : cell) : astar_le (f, g, n) (f', g', n') -> f <= f'.
Proof.
  unfold astar_le, astar_leb. rewrite orb_true_iff, andb_true_iff, Z.ltb_lt, Z.eqb_eq. lia.
Qed.

Hypothesis Hadm : forall l x,
  chain (grid_step walls) (x :: l) -> last (x :: l) x = goal ->
  heuristic x goal <= Z.of_nat (List.length l).
Hypothesis Hgoal : 0 <= heuristic goal goal.

Lemma astar_loop_result (fuel0 : nat) :
  (561 < fuel0)%nat ->
  forall fuel hp CF G explored,
    best_inv hg start goal walls (heap_items H hp) G CF explored ->
    (List.length (heap_items H hp) + potential G < fuel)%nat ->
    exists evs,
      astar_loop H fuel0 fuel heuristic (fun _ _ => 1) goal walls hp CF G explored
        = Yields evs /\
      cost_result start goal walls evs.
Proof.
  intros Hf0. induction fuel as [|fuel IH]; intros hp CF G explored Hinv Hm; [lia|].
  simpl. destruct (heappop H hp) as [[[[f g] current] hp']|] eqn:Ep.
  - destruct (heappop_some _ _ H hp (f, g, current) hp' Ep) as [HQ Hmin].
    destruct (cell_eqb current goal) eqn:Eg.
    + apply cell_eqb_eq in Eg. subst current.
      destruct (best_goal hg start goal walls Hadm Hgoal
                  (heap_items H hp) G CF explored f g (heap_items H hp') Hinv HQ)
        as (gg & Hgg & Hle & Hf & _ & Hopt).
      { intros f' g' n' Hin. rewrite Forall_forall in Hmin.
        apply (astar_le_fst f g f' g' goal n'). apply Hmin. exact Hin. }
      pose proof (bf_bound _ _ _ _ _ _ _ _ Hinv goal gg Hgg) as Hb.
      destruct (bf_dom _ _ _ _ _ _ _ _ Hinv goal gg Hgg) as [Hg0 _].
      destruct (best_reconstruct hg start goal walls (heap_items H hp) G CF explored fuel0
                  goal gg Hinv Hgg ltac:(lia)) as (path & Hp & Hv & Hlen).
      rewrite Hp, Hgg. eexists. split; [reflexivity|].
      exists [CostSearching goal (map snd (heap_items H hp')) (goal :: explored) G],
        (CostFound path gg).
      split; [reflexivity|]. split; [repeat constructor|]. left.
      exists path, gg. split; [reflexivity|]. split; [exact Hv|].
      pose proof (Hopt path Hv) as Hself. split; [lia|].
      intros other Hother. pose proof (Hopt other Hother). lia.
    + apply cell_eqb_neq in Eg.
      destruct (best_pop hg start goal walls (heap_items H hp) G CF explored f g current
                  (heap_items H hp') Hinv HQ Eg) as [gc Hrel].
      destruct (astar_expand_inv current gc (current :: explored) (neighbors current) []
                  hp' CF G Hrel (fun n Hn => Hn))
        as (hp2 & CF2 & G2 & seen2 & He & Hrel2 & Hseen & Hm2).
      rewrite He. simpl abind.
      pose proof (best_close hg start goal walls current gc seen2 _ _ _ _ Hrel2
                    (fun y Hy => Hseen y (or_introl Hy))) as Hinv2.
      destruct (IH hp2 CF2 G2 (current :: explored) Hinv2) as (evs & Hevs & Hres).
      { rewrite (Permutation_length HQ) in Hm. cbn [List.length] in Hm.
        unfold view, astar_item in *. lia. }
      rewrite Hevs. simpl abind. eexists. split; [reflexivity|].
      apply cost_result_cons; [exact I | exact Hres].
  - apply (heappop_none _ _ H) in Ep.
    exists [CostNoPath]. split; [reflexivity|].
    exists [], CostNoPath. split; [reflexivity|]. split; [constructor|].
    right. split; [reflexivity|].
    apply (best_exhausted hg start goal walls G CF explored).
    rewrite Ep in Hinv. exact Hinv.
Qed.

End AstarCorrect.

Lemma best_inv_perm h start goal walls Q Q' G CF explored :
  Permutation Q Q' ->
  best_inv h start goal walls Q G CF explored ->
  best_inv h start goal walls Q' G CF explored.
Proof.
  intros HQ Hinv. split; try apply Hinv.
  - intros f g n Hin. apply (bf_heap _ _ _ _ _ _ _ _ Hinv).
    apply (Permutation_in _ (Permutation_sym HQ)). exact Hin.
  - intros x gx Hx.
    destruct (bf_settled _ _ _ _ _ _ _ _ Hinv x gx Hx) as [Hlive | Hdone]; [|auto].
    left. apply (Permutation_in _ HQ). exact Hlive.
Qed.

Lemma manhattan_admissible (walls : list cell) (goal : cell) :
  forall l x,
    chain (grid_step walls) (x :: l) -> last (x :: l) x = goal ->
    manhattan x goal <= Z.of_nat (List.length l).
Proof.
  induction l as [|y l IH]; intros x Hch Hlast.
  - simpl in Hlast. subst. unfold manhattan. simpl. lia.
  - destruct Hch as [[Hxy _] Hch].
    assert (Hl : last (y :: l) y = goal).
    { rewrite <- Hlast. change (last (x :: y :: l) x) with (last (y :: l) x).
      apply last_default. }
    specialize (IH y Hch Hl).
    apply neighbors_In in Hxy. destruct Hxy as [_ Hxy].
    unfold manhattan in *. simpl List.length. lia.
Qed.

(** X27.  [ucs] with the default cost of 1 a move is a complete, sound and
    optimal search on the grid, for any implementation of the heap that
    keeps the contract of [heapq].  With fuel for 560 * 561 + 2 iterations
    the generator ends, raising nothing; it yields ['searching'] states and
    then either ['found'] with a path of legal moves from [start] to [goal]
    that no such path undercuts, and with the number of its moves as
    [cost]; or ['no_path'], and this only when no such path exists. *)
Theorem ucs_finds_cheapest_path (H : heapq ucs_item ucs_le) (fuel : nat)
  (start goal : cell) (walls : list cell) :
  (560 * 561 + 1 < fuel)%nat ->
  exists evs,
    ucs H fuel start goal walls None = Yields evs /\
    exists pre fin,
      evs = pre ++ [fin] /\ Forall is_cost_searching pre /\
      ((exists path cost,
          fin = CostFound path cost /\
          valid_path start goal walls path /\
          cost = Z.of_nat (List.length path) - 1 /\
          forall other, valid_path start goal walls other ->
            (List.length path <= List.length other)%nat) \/
       (fin = CostNoPath /\ ~ reachable start walls goal)).
Proof.
  intros Hfuel. unfold ucs, default_cost.
  destruct (best_init (fun _ => 0) start goal walls) as [Hinv Hm].
  assert (HQ : Permutation [(0 + 0, 0, start)]
                 (map ucs_view (heap_items H (heappush H (heap_empty H) (0, start))))).
  { symmetry. change [(0 + 0, 0, start)] with (map ucs_view [(0, start)]).
    apply Permutation_map.
    etransitivity; [apply heappush_items|]. rewrite heap_empty_items. reflexivity. }
  pose proof (Permutation_length HQ) as Hlen. cbn [List.length] in Hlen.
  apply (ucs_loop_result H start goal walls fuel ltac:(lia) fuel _ _ _ _
           (best_inv_perm _ _ _ _ _ _ _ _ _ HQ Hinv)).
  unfold view, ucs_item in *. lia.
Qed.

Lemma ucs_finds_cheapest_path_witness :
  exists evs,
    ucs ucs_list_heap (560 * 561 + 2) (1, 1) (3, 1) [(2, 1)] None = Yields evs /\
    exists pre fin,
      evs = pre ++ [fin] /\ Forall is_cost_searching pre /\
      ((exists path cost,
          fin = CostFound path cost /\
          valid_path (1, 1) (3, 1) [(2, 1)] path /\
          cost = Z.of_nat (List.length path) - 1 /\
          forall other, valid_path (1, 1) (3, 1) [(2, 1)] other ->
            (List.length path <= List.length other)%nat) \/
       (fin = CostNoPath /\ ~ reachable (1, 1) [(2, 1)] (3, 1))).
Proof.
  apply (ucs_finds_cheapest_path ucs_list_heap (560 * 561 + 2) (1, 1) (3, 1) [(2, 1)]).
  lia.
Defined.

(** X28.  [astar] with the default cost of 1 a move finds a shortest path
    for every heuristic that never overestimates: if [heuristic(x, goal)] is
    at most the number of moves of any legal path from [x] to [goal], and
    not negative at the goal itself, as [manhattan] is, then the generator
    ends within 560 * 561 + 2 iterations, raising nothing, and yields
    ['found'] with a path of legal moves that no such path undercuts and the
    number of its moves as [cost], or ['no_path'] when there is no such
    path. *)
Theorem astar_finds_shortest_path (H : heapq astar_item astar_le) (fuel : nat)
  (start goal : cell) (walls : list cell) (heuristic : cell -> cell -> Z) :
  (560 * 561 + 1 < fuel)%nat ->
  (forall x path, valid_path x goal walls path ->
     heuristic x goal <= Z.of_nat (List.length path) - 1) ->
  0 <= heuristic goal goal ->
  exists evs,
    astar H fuel start goal walls heuristic None = Yields evs /\
    exists pre fin,
      evs = pre ++ [fin] /\ Forall is_cost_searching pre /\
      ((exists path cost,
          fin = CostFound path cost /\
          valid_path start goal walls path /\
          cost = Z.of_nat (List.length path) - 1 /\
          forall other, valid_path start goal walls other ->
            (List.length path <= List.length other)%nat) \/
       (fin = CostNoPath /\ ~ reachable start walls goal)).
Proof.
  intros Hfuel Hadm Hgoal. unfold astar, default_cost.
  destruct (best_init (fun n => heuristic n goal) start goal walls) as [Hinv Hm].
  assert (HQ : Permutation [(0 + heuristic start goal, 0, start)]
                 (heap_items H (heappush H (heap_empty H)
                                  (0 + heuristic start goal, 0, start)))).
  { symmetry. etransitivity; [apply heappush_items|].
    rewrite heap_empty_items. reflexivity. }
  pose proof (Permutation_length HQ) as Hlen. cbn [List.length] in Hlen.
  apply (astar_loop_result H start goal walls heuristic) with (fuel0 := fuel).
  - intros l x Hch Hlast.
    assert (Hv : valid_path x goal walls (x :: l)).
    { split; [exists l; reflexivity|]. split; assumption. }
    pose proof (Hadm x (x :: l) Hv) as Hb. simpl List.length in Hb. lia.
  - exact Hgoal.
  - lia.
  - apply (best_inv_perm _ _ _ _ _ _ _ _ _ HQ Hinv).
  - unfold view, astar_item in *. lia.
Qed.

Lemma astar_finds_shortest_path_witness :
  exists evs,
    astar astar_list_heap (560 * 561 + 2) (1, 1) (3, 1) [(2, 1)] manhattan None
      = Yields evs /\
    exists pre fin,
      evs = pre ++ [fin] /\ Forall is_cost_searching pre /\
      ((exists path cost,
          fin = CostFound path cost /\
          valid_path (1, 1) (3, 1) [(2, 1)] path /\
          cost = Z.of_nat (List.length path) - 1 /\
          forall other, valid_path (1, 1) (3, 1) [(2, 1)] other ->
            (List.length path <= List.length other)%nat) \/
       (fin = CostNoPath /\ ~ reachable (1, 1) [(2, 1)] (3, 1))).
Proof.
  apply (astar_finds_shortest_path astar_list_heap (560 * 561 + 2) (1, 1) (3, 1) [(2, 1)]
           manhattan).
  - lia.
  - intros x path ([l ->] & Hlast & Hch).
    pose proof (manhattan_admissible [(2, 1)] (3, 1) l x Hch Hlast) as Hb.
    simpl List.length. lia.
  - unfold manhattan. simpl. lia.
Defined.

(** X29.  The four searches agree.  For one start, goal and set of walls,
    either all of [bfs], [dfs], [ucs] and [astar] (with [manhattan] and the
    default cost) end with ['found'], the paths of [bfs], [ucs] and
    [astar] having the same number of cells, the path of [dfs] at least as
    many, and [ucs] and [astar] reporting the same [cost], one less than
    that number; or no path exists and all four end with ['no_path']. *)
Theorem grid_searches_agree (Hu : heapq ucs_item ucs_le) (Ha : heapq astar_item astar_le)
  (fuel : nat) (start goal : cell) (walls : list cell) :
  (560 * 561 + 1 < fuel)%nat ->
  exists evs_b evs_d evs_u evs_a,
    bfs fuel start goal walls = Ok evs_b /\
    dfs fuel start goal walls = Ok evs_d /\
    ucs Hu fuel start goal walls None = Yields evs_u /\
    astar Ha fuel start goal walls manhattan None = Yields evs_a /\
    ((exists pb pd pu pa cost,
        last evs_b NoPath = Found pb /\
        last evs_d NoPath = Found pd /\
        last evs_u CostNoPath = CostFound pu cost /\
        last evs_a CostNoPath = CostFound pa cost /\
        List.length pb = List.length pu /\
        List.length pb = List.length pa /\
        (List.length pb <= List.length pd)%nat /\
        cost = Z.of_nat (List.length pb) - 1) \/
     (~ reachable start walls goal /\
      last evs_b NoPath = NoPath /\
      last evs_d NoPath = NoPath /\
      last evs_u CostNoPath = CostNoPath /\
      last evs_a CostNoPath = CostNoPath)).
Proof.
  intros Hfuel.
  destruct (search_init start goal walls) as (Hinv & Htodo & Hlen).
  destruct (bfs_loop_result start goal walls fuel ltac:(lia) fuel [start] [] [start] Hinv
              ltac:(lia) Hlen) as (evs_b & Hb & (preb & finb & -> & _ & Hfb)).
  destruct (dfs_loop_result start goal walls fuel ltac:(lia) fuel [start] [] [start] Hinv
              ltac:(lia) Hlen) as (evs_d & Hd & (pred & find & -> & _ & Hfd)).
  destruct (best_init (fun _ => 0) start goal walls) as [Hinvu Hmu].
  assert (HQu : Permutation [(0 + 0, 0, start)]
                  (map ucs_view (heap_items Hu (heappush Hu (heap_empty Hu) (0, start))))).
  { symmetry. change [(0 + 0, 0, start)] with (map ucs_view [(0, start)]).
    apply Permutation_map.
    etransitivity; [apply heappush_items|]. rewrite heap_empty_items. reflexivity. }
  pose proof (Permutation_length HQu) as Hlenu. cbn [List.length] in Hlenu.
  destruct (ucs_loop_result Hu start goal walls fuel ltac:(lia) fuel _ _ _ _
              (best_inv_perm _ _ _ _ _ _ _ _ _ HQu Hinvu))
    as (evs_u & Hu' & (preu & finu & -> & _ & Hfu)).
  { unfold view, ucs_item in *. lia. }
  destruct (best_init (fun n => manhattan n goal) start goal walls) as [Hinva Hma].
  assert (HQa : Permutation [(0 + manhattan start goal, 0, start)]
                  (heap_items Ha (heappush Ha (heap_empty Ha)
                                    (0 + manhattan start goal, 0, start)))).
  { symmetry. etransitivity; [apply heappush_items|].
    rewrite heap_empty_items. reflexivity. }
  pose proof (Permutation_length HQa) as Hlena. cbn [List.length] in Hlena.
  destruct (astar_loop_result Ha start goal walls manhattan
              (manhattan_admissible walls goal)
              ltac:(unfold manhattan; lia) fuel ltac:(lia) fuel _ _ _ _
              (best_inv_perm _ _ _ _ _ _ _ _ _ HQa Hinva))
    as (evs_a & Ha' & (prea & fina & -> & _ & Hfa)).
  { unfold view, astar_item in *. lia. }
  exists (preb ++ [finb]), (pred ++ [find]), (preu ++ [finu]), (prea ++ [fina]).
  split; [exact Hb|]. split; [exact Hd|]. split; [exact Hu'|]. split; [exact Ha'|].
  rewrite !last_last.
  destruct Hfb as [(pb & -> & Hvb) | [-> Hnb]].
  - left.
    assert (Hr : reachable start walls goal) by (eapply valid_path_reachable; eauto).
    destruct Hfd as [(pd & -> & Hvd) | [_ Hnd]]; [|contradiction].
    destruct Hfu as [(pu & cu & -> & Hvu & Hcu & Hminu) | [_ Hnu]]; [|contradiction].
    destruct Hfa as [(pa & ca & -> & Hva & Hca & Hmina) | [_ Hna]]; [|contradiction].
    assert (Hminb : forall other, valid_path start goal walls other ->
              (List.length pb <= List.length other)%nat).
    { intros other Hother.
      apply (bfs_loop_shortest start goal walls fuel fuel [start] [] [start]
               (preb ++ [Found pb]) pb other Hinv (bfs_init start walls) Hb);
        [|exact Hother].
      apply in_or_app. right. left. reflexivity. }
    pose proof (Hminb pu Hvu). pose proof (Hminu pb Hvb).
    pose proof (Hminb pa Hva). pose proof (Hmina pb Hvb).
    pose proof (Hminb pd Hvd).
    exists pb, pd, pu, pa, cu.
    split; [reflexivity|]. split; [reflexivity|]. split; [reflexivity|].
    split; [f_equal; lia|]. repeat split; lia.
  - right. split; [exact Hnb|]. split; [reflexivity|].
    destruct Hfd as [(pd & -> & Hvd) | [-> _]];
      [exfalso; apply Hnb; eapply valid_path_reachable; eauto|].
    destruct Hfu as [(pu & cu & -> & Hvu & _) | [-> _]];
      [exfalso; apply Hnb; eapply valid_path_reachable; eauto|].
    destruct Hfa as [(pa & ca & -> & Hva & _) | [-> _]];
      [exfalso; apply Hnb; eapply valid_path_reachable; eauto|].
    auto.
Qed.

Lemma grid_searches_agree_witness :
  exists evs_b evs_d evs_u evs_a,
    bfs (560 * 561 + 2) (1, 1) (3, 1) [(2, 1)] = Ok evs_b /\
    dfs (560 * 561 + 2) (1, 1) (3, 1) [(2, 1)] = Ok evs_d /\
    ucs ucs_list_heap (560 * 561 + 2) (1, 1) (3, 1) [(2, 1)] None = Yields evs_u /\
    astar astar_list_heap (560 * 561 + 2) (1, 1) (3, 1) [(2, 1)] manhattan None
      = Yields evs_a /\
    ((exists pb pd pu pa cost,
        last evs_b NoPath = Found pb /\
        last evs_d NoPath = Found pd /\
        last evs_u CostNoPath = CostFound pu cost /\
        last evs_a CostNoPath = CostFound pa cost /\
        List.length pb = List.length pu /\
        List.length pb = List.length pa /\
        (List.length pb <= List.length pd)%nat /\
        cost = Z.of_nat (List.length pb) - 1) \/
     (~ reachable (1, 1) [(2, 1)] (3, 1) /\
      last evs_b NoPath = NoPath /\
      last evs_d NoPath = NoPath /\
      last evs_u CostNoPath = CostNoPath /\
      last evs_a CostNoPath = CostNoPath)).
Proof.
  apply (grid_searches_agree ucs_list_heap astar_list_heap (560 * 561 + 2)
           (1, 1) (3, 1) [(2, 1)]).
  lia.
Defined.

End Grid.

(* ------------------------------------------------------------------ *)
(** ** The traversals of [traverse.py] *)

Section Traversal.
Import Traverse.

Example script_output :
  script 8 = (Returned, ["DFS:"; "A"; "B"; "D"; "E"; "F"; "C";
                         String.append newline "BFS:"; "A"; "B"; "C"; "D"; "E"; "F"]).
Proof. reflexivity. Qed.

Lemma mem_In (x : string) (s : list string) : mem x s = true <-> In x s.
Proof.
  unfold mem. rewrite existsb_exists. split.
  - intros (y & Hy & E). apply String.eqb_eq in E. subst. exact Hy.
  - intros H. exists x. split; [exact H | apply String.eqb_refl].
Qed.

Lemma mem_false (x : string) (s : list string) : mem x s = false <-> ~ In x s.
Proof.
  rewrite <- mem_In. destruct (mem x s); split; congruence.
Qed.

Lemma reaches_trans graph a b c :
  reaches graph a b -> reaches graph b c -> reaches graph a c.
Proof.
  intros Hab Hbc. induction Hbc as [|x y Hx IH Hxy]; [exact Hab|].
  eapply reaches_step; eauto.
Qed.

Lemma lookup_In graph node nbrs :
  lookup graph node = Some nbrs -> In (node, nbrs) graph.
Proof.
  induction graph as [|[k v] rest IH]; simpl; [discriminate|].
  destruct (String.eqb node k) eqn:E.
  - apply String.eqb_eq in E. subst. intros H. inversion H. left. reflexivity.
  - intros H. right. apply IH. exact H.
Qed.

Lemma filter_length_mono {A : Type} (f g : A -> bool) (l : list A) :
  (forall x, In x l -> f x = true -> g x = true) ->
  (List.length (filter f l) <= List.length (filter g l))%nat.
Proof.
  induction l as [|a l IH]; intros H; simpl; [lia|].
  assert (IH' := IH (fun x Hx => H x (or_intror Hx))).
  pose proof (H a (or_introl eq_refl)) as Ha.
  destruct (f a); [rewrite Ha by reflexivity|destruct (g a)]; simpl; lia.
Qed.

Lemma filter_length_lt {A : Type} (f g : A -> bool) (l : list A) (a : A) :
  (forall x, In x l -> f x = true -> g x = true) ->
  In a l -> f a = false -> g a = true ->
  (List.length (filter f l) < List.length (filter g l))%nat.
Proof.
  induction l as [|b l IH]; intros H Ha Hf Hg; [destruct Ha|].
  simpl. destruct Ha as [-> | Ha].
  - rewrite Hf, Hg. simpl.
    pose proof (filter_length_mono f g l (fun x Hx => H x (or_intror Hx))). lia.
  - assert (IH' := IH (fun x Hx => H x (or_intror Hx)) Ha Hf Hg).
    pose proof (H b (or_introl eq_refl)) as Hb.
    destruct (f b); [rewrite Hb by reflexivity|destruct (g b)]; simpl; lia.
Qed.

Lemma pending_mono graph (v v' : list string) :
  (forall x, In x v -> In x v') -> (pending graph v' <= pending graph v)%nat.
Proof.
  intros H. unfold pending. apply filter_length_mono.
  intros e _ He. apply negb_true_iff in He. apply negb_true_iff.
  apply mem_false. apply mem_false in He. auto.
Qed.

Lemma pending_key graph node nbrs (v : list string) :
  lookup graph node = Some nbrs -> ~ In node v ->
  (pending graph (node :: v) < pending graph v)%nat.
Proof.
  intros Hl Hn. unfold pending.
  apply filter_length_lt with (a := (node, nbrs)).
  - intros e _ He. apply negb_true_iff in He. apply negb_true_iff.
    apply mem_false. apply mem_false in He. intros Hin. apply He. right. exact Hin.
  - apply lookup_In. exact Hl.
  - apply negb_false_iff. apply mem_In. left. reflexivity.
  - apply negb_true_iff. apply mem_false. exact Hn.
Qed.

Section Dfs.
Variable graph : adjacency.

Lemma dfs_for_post (limit : nat)
  (call : string -> list string -> list string -> run) :
  (forall n visited out, ~ In n visited ->
     exists added, dfs_post graph limit [n] visited out (call n visited out) added) ->
  forall nbrs visited out,
    exists added,
      dfs_post graph limit nbrs visited out (dfs_for call nbrs visited out) added.
Proof.
  intros Hcall. induction nbrs as [|n rest IH]; intros visited out.
  - exists []. simpl. rewrite app_nil_r. repeat split; try constructor; try (intros ? []).
  - simpl. destruct (mem n visited) eqn:Em.
    + destruct (IH visited out) as [added Hp]. exists added.
      unfold dfs_post in *. destruct (dfs_for call rest visited out) as [[st v'] o'].
      destruct Hp as (Ho & Hv & Hnd & Hdis & Hreach & Hst).
      repeat (split; [assumption|]). split.
      * intros x Hx. destruct (Hreach x Hx) as (m & Hm & Hr). exists m. split; [right|]; assumption.
      * destruct st; [|exact Hst | exact Hst].
        destruct Hst as [Hroots Hcl]. split; [|exact Hcl].
        intros m [<- | Hm]; [|auto].
        subst v'. apply in_or_app. right. apply mem_In. exact Em.
    + apply mem_false in Em. destruct (Hcall n visited out Em) as [added1 Hp1].
      unfold dfs_post in Hp1. destruct (call n visited out) as [[st1 v1] o1].
      destruct Hp1 as (Ho1 & Hv1 & Hnd1 & Hdis1 & Hreach1 & Hst1).
      assert (Hreach1' : forall x, In x added1 ->
                exists m, In m (n :: rest) /\ reaches graph m x).
      { intros x Hx. destruct (Hreach1 x Hx) as (m & [<- | []] & Hr).
        exists n. split; [left; reflexivity | exact Hr]. }
      destruct st1.
      * destruct (IH v1 o1) as [added2 Hp2]. exists (added1 ++ added2).
        unfold dfs_post in *. destruct (dfs_for call rest v1 o1) as [[st v'] o'].
        destruct Hp2 as (Ho2 & Hv2 & Hnd2 & Hdis2 & Hreach2 & Hst2).
        destruct Hst1 as [Hroots1 Hcl1].
        assert (Hsub : forall x, In x v1 -> In x v').
        { intros x Hx. subst v'. apply in_or_app. right. exact Hx. }
        split; [subst; rewrite app_assoc; reflexivity|].
        split; [subst; rewrite rev_app_distr, app_assoc; reflexivity|].
        split.
        { apply NoDup_app; [assumption | assumption |].
          intros x Hx1 Hx2. apply (Hdis2 x Hx2). subst v1.
          apply in_or_app. left. apply in_rev in Hx1. exact Hx1. }
        split.
        { intros x Hx Hv. apply in_app_or in Hx. destruct Hx as [Hx | Hx].
          - apply (Hdis1 x Hx Hv).
          - apply (Hdis2 x Hx). subst v1. apply in_or_app. right. exact Hv. }
        split.
        { intros x Hx. apply in_app_or in Hx. destruct Hx as [Hx | Hx]; [auto|].
          destruct (Hreach2 x Hx) as (m & Hm & Hr). exists m. split; [right|]; assumption. }
        destruct st.
        -- destruct Hst2 as [Hroots2 Hcl2]. split.
           ++ intros m [<- | Hm]; [|auto]. apply Hsub. apply Hroots1. left. reflexivity.
           ++ intros x Hx. apply in_app_or in Hx. destruct Hx as [Hx | Hx]; [|auto].
              destruct (Hcl1 x Hx) as (nb & Hl & Hall). exists nb. split; [exact Hl|].
              intros y Hy. apply Hsub. auto.
        -- destruct Hst2 as [Hl (pre & ->)]. split; [exact Hl|].
           exists (added1 ++ pre). rewrite app_assoc. reflexivity.
        -- etransitivity; [exact Hst2|]. apply pending_mono.
           intros x Hx. subst v1. apply in_or_app. right. exact Hx.
      * exists added1. unfold dfs_post. repeat (split; [assumption|]). exact Hst1.
      * exists added1. unfold dfs_post. repeat (split; [assumption|]). exact Hst1.
Qed.

Lemma dfs_rec_post :
  forall fuel node visited out,
    ~ In node visited ->
    exists added,
      dfs_post graph fuel [node] visited out (dfs fuel graph node (Some visited) out) added.
Proof.
  induction fuel as [|fuel IH]; intros node visited out Hn.
  - exists []. simpl. rewrite app_nil_r.
    repeat split; try constructor; try (intros ? []). lia.
  - simpl. destruct (lookup graph node) as [nbrs|] eqn:El.
    + destruct (dfs_for_post fuel (fun n v o => dfs fuel graph n (Some v) o)
                  (fun n v o H => IH n v o H) nbrs (node :: visited) (out ++ [node]))
        as [added Hp].
      exists (node :: added). unfold dfs_post in *.
      destruct (dfs_for _ nbrs (node :: visited) (out ++ [node])) as [[st v'] o'].
      destruct Hp as (Ho & Hv & Hnd & Hdis & Hreach & Hst).
      split; [subst; rewrite <- app_assoc; reflexivity|].
      split; [subst; simpl; rewrite <- app_assoc; reflexivity|].
      split.
      { constructor; [|exact Hnd]. intros Hin. apply (Hdis node Hin). left. reflexivity. }
      split.
      { intros x [<- | Hx]; [exact Hn|]. intros Hv'. apply (Hdis x Hx). right. exact Hv'. }
      split.
      { intros x [<- | Hx].
        - exists node. split; [left; reflexivity | constructor].
        - destruct (Hreach x Hx) as (m & Hm & Hr). exists node. split; [left; reflexivity|].
          eapply reaches_trans; [|exact Hr].
          eapply reaches_step; [constructor|]. exists nbrs. split; assumption. }
      destruct st.
      * destruct Hst as [Hroots Hcl]. split.
        -- intros m [<- | []]. subst v'. apply in_or_app. right. left. reflexivity.
        -- intros x [<- | Hx]; [|auto]. exists nbrs. split; [exact El | exact Hroots].
      * destruct Hst as [Hl (pre & ->)]. split; [exact Hl|]. exists (node :: pre). reflexivity.
      * pose proof (pending_key graph node nbrs visited El Hn). lia.
    + exists [node]. unfold dfs_post. simpl.
      split; [reflexivity|]. split; [reflexivity|].
      split; [repeat constructor; intros []|].
      split; [intros x [<- | []]; exact Hn|].
      split.
      { intros x [<- | []]. exists node. split; [left; reflexivity | constructor]. }
      split; [exact El|]. exists []. reflexivity.
Qed.

Lemma dfs_None (fuel : nat) (node : string) (out : list string) :
  dfs fuel graph node None out = dfs fuel graph node (Some []) out.
Proof. destruct fuel; reflexivity. Qed.

Lemma pending_le (visited : list string) : (pending graph visited <= List.length graph)%nat.
Proof. unfold pending. apply filter_length_le. Qed.

End Dfs.

Lemma closed_reaches graph (node : string) (s : list string) :
  In node s ->
  (forall x, In x s -> forall y, edge graph x y -> In y s) ->
  forall x, reaches graph node x -> In x s.
Proof.
  intros Hn Hcl x Hx. induction Hx as [|x y Hx IH Hxy]; [exact Hn|].
  apply (Hcl x IH y Hxy).
Qed.

(** The first call [dfs(graph, node)], on a fresh [visited] set. *)
Lemma dfs_top (fuel : nat) (graph : adjacency) (node : string)
  (st : status) (visited out : list string) :
  dfs fuel graph node None [] = (st, visited, out) ->
  NoDup out /\
  (forall x, In x visited <-> In x out) /\
  (forall x, In x out -> reaches graph node x) /\
  match st with
  | Returned =>
      (exists rest, out = node :: rest) /\
      (forall x, reaches graph node x -> In x out) /\
      (forall x, In x out -> lookup graph x <> None)
  | KeyError key => lookup graph key = None /\ exists pre, out = pre ++ [key]
  | NoFuel => (fuel <= List.length graph)%nat
  end.
Proof.
  intros H. rewrite dfs_None in H.
  destruct (dfs_rec_post graph fuel node [] [] (fun F => F)) as [added Hp].
  unfold dfs_post in Hp. rewrite H in Hp.
  destruct Hp as (Ho & Hv & Hnd & _ & Hreach & Hst).
  simpl in Ho. subst out. rewrite app_nil_r in Hv. subst visited.
  split; [exact Hnd|]. split; [intros x; symmetry; apply in_rev|]. split.
  { intros x Hx. destruct (Hreach x Hx) as (n & [<- | []] & Hr). exact Hr. }
  destruct st as [|key|].
  - destruct Hst as [Hroots Hcl].
    assert (Hin : In node added).
    { apply in_rev. apply Hroots. left. reflexivity. }
    split; [|split].
    + destruct fuel as [|fuel]; [discriminate H|]. simpl in H.
      destruct (lookup graph node) as [nbrs|]; [|discriminate H].
      destruct (dfs_for_post graph fuel (fun n v o => dfs fuel graph n (Some v) o)
                  (fun n v o Hn => dfs_rec_post graph fuel n v o Hn) nbrs [node] [node])
        as [added' Hp'].
      unfold dfs_post in Hp'. rewrite H in Hp'. destruct Hp' as (Ho' & _).
      exists added'. exact Ho'.
    + apply closed_reaches; [exact Hin|].
      intros a Ha b (nbrs & Hl & Hb).
      destruct (Hcl a Ha) as (nbrs' & Hl' & Hall).
      rewrite Hl in Hl'. inversion Hl'; subst nbrs'.
      apply in_rev. apply Hall. exact Hb.
    + intros x Hx. destruct (Hcl x Hx) as (nbrs & Hl & _). congruence.
  - exact Hst.
  - pose proof (pending_le graph []). lia.
Qed.

(** X19.  When [dfs(graph, node)] returns, it has printed [node] first and
    then, each exactly once, the nodes that edges of [graph] reach from
    [node], and no other; the [visited] set holds the same nodes. *)
Theorem dfs_prints_reachable (fuel : nat) (graph : adjacency) (node : string)
  (visited out : list string) :
  dfs fuel graph node None [] = (Returned, visited, out) ->
  (exists rest, out = node :: rest) /\
  NoDup out /\
  (forall x, In x out <-> reaches graph node x) /\
  (forall x, In x visited <-> In x out).
Proof.
  intros H.
  destruct (dfs_top fuel graph node Returned visited out H)
    as (Hnd & Hv & Hsound & Hhd & Hcomplete & _).
  split; [exact Hhd|]. split; [exact Hnd|]. split; [|exact Hv].
  intros x. split; [apply Hsound | apply Hcomplete].
Qed.

Lemma dfs_prints_reachable_witness :
  (exists rest, ["A"; "B"; "D"; "E"; "F"; "C"] = "A" :: rest) /\
  NoDup ["A"; "B"; "D"; "E"; "F"; "C"] /\
  (forall x, In x ["A"; "B"; "D"; "E"; "F"; "C"] <-> reaches graph "A" x) /\
  (forall x, In x ["C"; "F"; "E"; "D"; "B"; "A"] <-> In x ["A"; "B"; "D"; "E"; "F"; "C"]).
Proof.
  apply (dfs_prints_reachable 4 graph "A"). reflexivity.
Defined.

(** X20.  When [dfs(graph, node)] raises [KeyError], the key is a node
    reachable from [node] that has no entry in [graph], and it is the last
    line printed: a node is printed before its entry is looked up.  What
    was printed until then is without repetition and reachable from
    [node]. *)
Theorem dfs_key_error (fuel : nat) (graph : adjacency) (node key : string)
  (visited out : list string) :
  dfs fuel graph node None [] = (KeyError key, visited, out) ->
  lookup graph key = None /\
  reaches graph node key /\
  (exists pre, out = pre ++ [key]) /\
  NoDup out /\
  (forall x, In x out -> reaches graph node x).
Proof.
  intros H.
  destruct (dfs_top fuel graph node (KeyError key) visited out H)
    as (Hnd & _ & Hsound & Hl & (pre & Hpre)).
  split; [exact Hl|]. split.
  - apply Hsound. rewrite Hpre. apply in_or_app. right. left. reflexivity.
  - split; [exists pre; exact Hpre|]. split; assumption.
Qed.

Lemma dfs_key_error_witness :
  lookup [("A", ["B"; "C"]); ("B", [])] "C" = None /\
  reaches [("A", ["B"; "C"]); ("B", [])] "A" "C" /\
  (exists pre, ["A"; "B"; "C"] = pre ++ ["C"]) /\
  NoDup ["A"; "B"; "C"] /\
  (forall x, In x ["A"; "B"; "C"] -> reaches [("A", ["B"; "C"]); ("B", [])] "A" x).
Proof.
  apply (dfs_key_error 5 [("A", ["B"; "C"]); ("B", [])] "A" "C" ["C"; "B"; "A"]).
  reflexivity.
Defined.

(** X21.  The recursion of [dfs] is never deeper than the number of entries
    of [graph] plus one.  With that many nested calls allowed, [dfs] returns
    when every node reachable from [node] has an entry, and raises
    [KeyError] for a reachable node without entry otherwise. *)
Theorem dfs_depth_bound (fuel : nat) (graph : adjacency) (node : string) :
  (List.length graph < fuel)%nat ->
  exists st visited out,
    dfs fuel graph node None [] = (st, visited, out) /\
    ((st = Returned /\ forall x, reaches graph node x -> lookup graph x <> None) \/
     (exists key, st = KeyError key /\ reaches graph node key /\ lookup graph key = None)).
Proof.
  intros Hfuel.
  destruct (dfs fuel graph node None []) as [[st visited] out] eqn:H.
  exists st, visited, out. split; [reflexivity|].
  destruct (dfs_top fuel graph node st visited out H) as (_ & _ & Hsound & Hst).
  destruct st as [|key|].
  - left. split; [reflexivity|].
    destruct Hst as (_ & Hcomplete & Hkeys). intros x Hx. apply Hkeys. apply Hcomplete. exact Hx.
  - right. exists key. split; [reflexivity|].
    destruct Hst as (Hl & pre & Hpre). split; [|exact Hl].
    apply Hsound. rewrite Hpre. apply in_or_app. right. left. reflexivity.
  - lia.
Qed.

Lemma dfs_depth_bound_witness :
  exists st visited out,
    dfs 7 graph "A" None [] = (st, visited, out) /\
    ((st = Returned /\ forall x, reaches graph "A" x -> lookup graph x <> None) \/
     (exists key, st = KeyError key /\ reaches graph "A" key /\ lookup graph key = None)).
Proof. apply (dfs_depth_bound 7 graph "A"). simpl. lia. Defined.

Lemma degree_sum_mono (f g : string -> bool) (graph : adjacency) :
  (forall k, f k = true -> g k = true) ->
  (degree_sum f graph <= degree_sum g graph)%nat.
Proof.
  intros H. induction graph as [|[k nbrs] rest IH]; simpl; [lia|].
  pose proof (H k) as Hk.
  destruct (f k); [rewrite Hk by reflexivity; lia | destruct (g k); lia].
Qed.

Lemma degree_sum_key (f g : string -> bool) (graph : adjacency) node nbrs :
  (forall k, f k = true -> g k = true) ->
  lookup graph node = Some nbrs -> f node = false -> g node = true ->
  (degree_sum f graph + List.length nbrs <= degree_sum g graph)%nat.
Proof.
  intros H Hl Hf Hg. induction graph as [|[k v] rest IH]; simpl in *; [discriminate|].
  destruct (String.eqb node k) eqn:E.
  - apply String.eqb_eq in E. subst k. inversion Hl; subst v.
    rewrite Hf, Hg. pose proof (degree_sum_mono f g rest H). lia.
  - specialize (IH Hl). pose proof (H k) as Hk.
    destruct (f k); [rewrite Hk by reflexivity; lia | destruct (g k); lia].
Qed.

Section Bfs.
Variable graph : adjacency.
Variable start : string.

Lemma bfs_loop_post :
  forall fuel queue visited printed out0,
    bfs_state graph start queue visited printed ->
    bfs_post graph start fuel queue visited out0 printed
      (bfs_loop fuel graph queue visited (out0 ++ printed)).
Proof.
  induction fuel as [|fuel IH]; intros queue visited printed out0 Hs.
  - simpl. exists printed. split; [exists []; symmetry; apply app_nil_r|].
    split; [reflexivity|].
    split; [apply (bs_visited _ _ _ _ _ Hs)|]. split; [apply (bs_nodup _ _ _ _ _ Hs)|].
    split; [apply (bs_printed _ _ _ _ _ Hs) | lia].
  - simpl. destruct queue as [|node queue].
    + exists printed. split; [exists []; symmetry; apply app_nil_r|].
      split; [reflexivity|].
      split; [apply (bs_visited _ _ _ _ _ Hs)|]. split; [apply (bs_nodup _ _ _ _ _ Hs)|].
      split; [apply (bs_printed _ _ _ _ _ Hs)|]. split.
      * destruct (bs_start _ _ _ _ _ Hs) as [H | []]. exact H.
      * intros x Hx. destruct (bs_closed _ _ _ _ _ Hs x Hx) as (nbrs & Hl & Hall).
        exists nbrs. split; [exact Hl|]. intros y Hy. destruct (Hall y Hy) as [H | []]. exact H.
    + destruct (mem node visited) eqn:Em.
      * assert (Hnp : In node printed).
        { apply mem_In in Em. rewrite (bs_visited _ _ _ _ _ Hs) in Em. apply in_rev. exact Em. }
        assert (Hs' : bfs_state graph start queue visited printed).
        { split.
          - apply (bs_visited _ _ _ _ _ Hs).
          - apply (bs_nodup _ _ _ _ _ Hs).
          - destruct (bs_start _ _ _ _ _ Hs) as [H | [<- | H]]; auto.
          - apply (bs_printed _ _ _ _ _ Hs).
          - intros x Hx. apply (bs_queue _ _ _ _ _ Hs). right. exact Hx.
          - intros x Hx. destruct (bs_closed _ _ _ _ _ Hs x Hx) as (nbrs & Hl & Hall).
            exists nbrs. split; [exact Hl|]. intros y Hy.
            destruct (Hall y Hy) as [H | [<- | H]]; auto. }
        specialize (IH queue visited printed out0 Hs').
        unfold bfs_post in *.
        destruct (bfs_loop fuel graph queue visited (out0 ++ printed)) as [[st v'] o'].
        destruct IH as (p & H0 & H1 & H2 & H3 & H4 & H5). exists p.
        repeat (split; [assumption|]).
        destruct st; [exact H5 | exact H5|]. unfold backlog in *. simpl. lia.
      * apply mem_false in Em.
        assert (Hnp : ~ In node printed).
        { intros Hin. apply Em. rewrite (bs_visited _ _ _ _ _ Hs). apply in_rev in Hin. exact Hin. }
        assert (Hnr : reaches graph start node).
        { apply (bs_queue _ _ _ _ _ Hs). left. reflexivity. }
        assert (Hnd' : NoDup (printed ++ [node])).
        { apply NoDup_app; [apply (bs_nodup _ _ _ _ _ Hs) | repeat constructor; intros [] |].
          intros x Hx [<- | []]. contradiction. }
        assert (Hr' : forall x, In x (printed ++ [node]) -> reaches graph start x).
        { intros x Hx. apply in_app_or in Hx. destruct Hx as [Hx | [<- | []]]; [|exact Hnr].
          apply (bs_printed _ _ _ _ _ Hs x Hx). }
        assert (Hv' : node :: visited = rev (printed ++ [node])).
        { rewrite rev_app_distr. simpl. rewrite (bs_visited _ _ _ _ _ Hs). reflexivity. }
        destruct (lookup graph node) as [nbrs|] eqn:El.
        -- set (queue' := queue ++ filter (fun neighbor => negb (mem neighbor (node :: visited))) nbrs).
           assert (Hs' : bfs_state graph start queue' (node :: visited) (printed ++ [node])).
           { split.
             - exact Hv'.
             - exact Hnd'.
             - destruct (bs_start _ _ _ _ _ Hs) as [H | [<- | H]].
               + left. apply in_or_app. left. exact H.
               + left. apply in_or_app. right. left. reflexivity.
               + right. apply in_or_app. left. exact H.
             - exact Hr'.
             - intros x Hx. apply in_app_or in Hx. destruct Hx as [Hx | Hx].
               + apply (bs_queue _ _ _ _ _ Hs). right. exact Hx.
               + apply filter_In in Hx. destruct Hx as [Hx _].
                 eapply reaches_step; [exact Hnr|]. exists nbrs. split; assumption.
             - assert (Hq : forall y, In y nbrs ->
                        In y (printed ++ [node]) \/ In y queue').
               { intros y Hy. destruct (mem y (node :: visited)) eqn:Ey.
                 - left. apply mem_In in Ey. rewrite Hv' in Ey. apply in_rev. exact Ey.
                 - right. apply in_or_app. right. apply filter_In. split; [exact Hy|].
                   rewrite Ey. reflexivity. }
               intros x Hx. apply in_app_or in Hx. destruct Hx as [Hx | [<- | []]].
               + destruct (bs_closed _ _ _ _ _ Hs x Hx) as (nb & Hl & Hall).
                 exists nb. split; [exact Hl|]. intros y Hy.
                 destruct (Hall y Hy) as [H | [<- | H]].
                 * left. apply in_or_app. left. exact H.
                 * left. apply in_or_app. right. left. reflexivity.
                 * right. apply in_or_app. left. exact H.
               + exists nbrs. split; [exact El | exact Hq]. }
           specialize (IH queue' (node :: visited) (printed ++ [node]) out0 Hs').
           rewrite app_assoc in IH.
           change (bfs_post graph start (S fuel) (node :: queue) visited out0 printed
                     (bfs_loop fuel graph queue' (node :: visited)
                        ((out0 ++ printed) ++ [node]))).
           unfold bfs_post in *.
           destruct (bfs_loop fuel graph queue' (node :: visited) ((out0 ++ printed) ++ [node]))
             as [[st v'] o'].
           destruct IH as (p & (more & H0) & H1 & H2 & H3 & H4 & H5). exists p.
           split; [exists ([node] ++ more); rewrite H0, app_assoc; reflexivity|].
           repeat (split; [assumption|]).
           destruct st; [exact H5 | exact H5|].
           unfold backlog in *. unfold queue' in H5. rewrite length_app in H5.
           pose proof (filter_length_le (fun neighbor => negb (mem neighbor (node :: visited))) nbrs).
           pose proof (degree_sum_key (fun k => negb (mem k (node :: visited)))
                         (fun k => negb (mem k visited)) graph node nbrs) as Hd.
           assert (Hd' : (degree_sum (fun k => negb (mem k (node :: visited))) graph
                          + List.length nbrs
                          <= degree_sum (fun k => negb (mem k visited)) graph)%nat).
           { apply Hd.
             - intros k Hk. apply negb_true_iff in Hk. apply negb_true_iff.
               apply mem_false. apply mem_false in Hk. intros Hin. apply Hk. right. exact Hin.
             - exact El.
             - apply negb_false_iff. apply mem_In. left. reflexivity.
             - apply negb_true_iff. apply mem_false. exact Em. }
           simpl. lia.
        -- exists (printed ++ [node]). split; [exists [node]; reflexivity|].
           split; [rewrite app_assoc; reflexivity|].
           split; [exact Hv'|]. split; [exact Hnd'|]. split; [exact Hr'|].
           split; [exact El|]. exists printed. reflexivity.
Qed.

End Bfs.

(** The call [bfs(graph, start)]. *)
Lemma bfs_top (fuel : nat) (graph : adjacency) (start : string)
  (st : status) (visited out : list string) :
  bfs fuel graph start [] = (st, visited, out) ->
  NoDup out /\
  (forall x, In x visited <-> In x out) /\
  (forall x, In x out -> reaches graph start x) /\
  match st with
  | Returned =>
      (exists rest, out = start :: rest) /\
      (forall x, reaches graph start x -> In x out) /\
      (forall x, In x out -> lookup graph x <> None)
  | KeyError key => lookup graph key = None /\ exists pre, out = pre ++ [key]
  | NoFuel => (fuel <= 1 + degree_sum (fun _ => true) graph)%nat
  end.
Proof.
  intros H. unfold bfs in H.
  assert (Hs : bfs_state graph start [start] [] []).
  { split.
    - reflexivity.
    - constructor.
    - right. left. reflexivity.
    - intros x [].
    - intros x [<- | []]. constructor.
    - intros x []. }
  pose proof (bfs_loop_post graph start fuel [start] [] [] [] Hs) as Hp.
  unfold bfs_post in Hp. simpl app in Hp. rewrite H in Hp.
  destruct Hp as (printed & _ & Ho & Hv & Hnd & Hsound & Hst).
  simpl in Ho. subst out visited.
  split; [exact Hnd|]. split; [intros x; symmetry; apply in_rev|]. split; [exact Hsound|].
  destruct st as [|key|].
  - destruct Hst as [Hin Hcl]. split; [|split].
    + destruct fuel as [|fuel]; [discriminate H|]. simpl in H.
      destruct (lookup graph start) as [nbrs|] eqn:El; [|discriminate H].
      assert (Hs1 : bfs_state graph start
                      (filter (fun neighbor => negb (mem neighbor [start])) nbrs)
                      [start] [start]).
      { split.
        - reflexivity.
        - repeat constructor. intros [].
        - left. left. reflexivity.
        - intros x [<- | []]. constructor.
        - intros x Hx. apply filter_In in Hx. destruct Hx as [Hx _].
          eapply reaches_step; [constructor|]. exists nbrs. split; assumption.
        - intros x [<- | []]. exists nbrs. split; [exact El|].
          intros y Hy. destruct (mem y [start]) eqn:Ey.
          + left. apply mem_In. exact Ey.
          + right. apply filter_In. split; [exact Hy|]. rewrite Ey. reflexivity. }
      pose proof (bfs_loop_post graph start fuel _ [start] [start] [] Hs1) as Hp1.
      unfold bfs_post in Hp1. simpl app in Hp1.
      change (bfs_loop fuel graph
                (filter (fun neighbor => negb (mem neighbor [start])) nbrs)
                [start] [start] = (Returned, rev printed, printed)) in H.
      rewrite H in Hp1.
      destruct Hp1 as (printed1 & (more & Hmore) & Ho1 & _).
      simpl in Ho1. exists more. rewrite Ho1. exact Hmore.
    + apply closed_reaches; [exact Hin|].
      intros a Ha b (nbrs & Hl & Hb).
      destruct (Hcl a Ha) as (nbrs' & Hl' & Hall).
      rewrite Hl in Hl'. inversion Hl'; subst nbrs'. apply Hall. exact Hb.
    + intros x Hx. destruct (Hcl x Hx) as (nbrs & Hl & _). congruence.
  - exact Hst.
  - unfold backlog in Hst. simpl in Hst.
    pose proof (degree_sum_mono (fun k => negb (mem k [])) (fun _ => true) graph
                  (fun _ _ => eq_refl)). lia.
Qed.

(** X22.  When [bfs(graph, start)] returns, it has printed [start] first and
    then, each exactly once, the nodes that edges of [graph] reach from
    [start], and no other; the [visited] set holds the same nodes. *)
Theorem bfs_prints_reachable (fuel : nat) (graph : adjacency) (start : string)
  (visited out : list string) :
  bfs fuel graph start [] = (Returned, visited, out) ->
  (exists rest, out = start :: rest) /\
  NoDup out /\
  (forall x, In x out <-> reaches graph start x) /\
  (forall x, In x visited <-> In x out).
Proof.
  intros H.
  destruct (bfs_top fuel graph start Returned visited out H)
    as (Hnd & Hv & Hsound & Hhd & Hcomplete & _).
  split; [exact Hhd|]. split; [exact Hnd|]. split; [|exact Hv].
  intros x. split; [apply Hsound | apply Hcomplete].
Qed.

Lemma bfs_prints_reachable_witness :
  (exists rest, ["A"; "B"; "C"; "D"; "E"; "F"] = "A" :: rest) /\
  NoDup ["A"; "B"; "C"; "D"; "E"; "F"] /\
  (forall x, In x ["A"; "B"; "C"; "D"; "E"; "F"] <-> reaches graph "A" x) /\
  (forall x, In x ["F"; "E"; "D"; "C"; "B"; "A"] <-> In x ["A"; "B"; "C"; "D"; "E"; "F"]).
Proof.
  apply (bfs_prints_reachable 8 graph "A"). reflexivity.
Defined.

(** X23.  When [bfs(graph, start)] raises [KeyError], the key is a node
    reachable from [start] that has no entry in [graph], and it is the last
    line printed; what was printed until then is without repetition and
    reachable from [start]. *)
Theorem bfs_key_error (fuel : nat) (graph : adjacency) (start key : string)
  (visited out : list string) :
  bfs fuel graph start [] = (KeyError key, visited, out) ->
  lookup graph key = None /\
  reaches graph start key /\
  (exists pre, out = pre ++ [key]) /\
  NoDup out /\
  (forall x, In x out -> reaches graph start x).
Proof.
  intros H.
  destruct (bfs_top fuel graph start (KeyError key) visited out H)
    as (Hnd & _ & Hsound & Hl & (pre & Hpre)).
  split; [exact Hl|]. split.
  - apply Hsound. rewrite Hpre. apply in_or_app. right. left. reflexivity.
  - split; [exists pre; exact Hpre|]. split; assumption.
Qed.

Lemma bfs_key_error_witness :
  lookup [("A", ["B"; "C"]); ("C", ["D"])] "B" = None /\
  reaches [("A", ["B"; "C"]); ("C", ["D"])] "A" "B" /\
  (exists pre, ["A"; "B"] = pre ++ ["B"]) /\
  NoDup ["A"; "B"] /\
  (forall x, In x ["A"; "B"] -> reaches [("A", ["B"; "C"]); ("C", ["D"])] "A" x).
Proof.
  apply (bfs_key_error 5 [("A", ["B"; "C"]); ("C", ["D"])] "A" "B" ["B"; "A"]).
  reflexivity.
Defined.

(** X24.  The loop of [bfs] runs at most once per neighbour listed in
    [graph], plus once for [start] and once to see the empty queue.  With
    that many iterations allowed, [bfs] returns when every node reachable
    from [start] has an entry, and raises [KeyError] for a reachable node
    without entry otherwise. *)
Theorem bfs_iteration_bound (fuel : nat) (graph : adjacency) (start : string) :
  (1 + edge_count graph < fuel)%nat ->
  exists st visited out,
    bfs fuel graph start [] = (st, visited, out) /\
    ((st = Returned /\ forall x, reaches graph start x -> lookup graph x <> None) \/
     (exists key, st = KeyError key /\ reaches graph start key /\ lookup graph key = None)).
Proof.
  intros Hfuel.
  destruct (bfs fuel graph start []) as [[st visited] out] eqn:H.
  exists st, visited, out. split; [reflexivity|].
  destruct (bfs_top fuel graph start st visited out H) as (_ & _ & Hsound & Hst).
  destruct st as [|key|].
  - left. split; [reflexivity|].
    destruct Hst as (_ & Hcomplete & Hkeys). intros x Hx. apply Hkeys. apply Hcomplete. exact Hx.
  - right. exists key. split; [reflexivity|].
    destruct Hst as (Hl & pre & Hpre). split; [|exact Hl].
    apply Hsound. rewrite Hpre. apply in_or_app. right. left. reflexivity.
  - unfold edge_count in Hfuel. lia.
Qed.

Lemma bfs_iteration_bound_witness :
  exists st visited out,
    bfs 8 graph "A" [] = (st, visited, out) /\
    ((st = Returned /\ forall x, reaches graph "A" x -> lookup graph x <> None) \/
     (exists key, st = KeyError key /\ reaches graph "A" key /\ lookup graph key = None)).
Proof. apply (bfs_iteration_bound 8 graph "A"). vm_compute. lia. Defined.

(** X25.  On one graph and from one node, [dfs] and [bfs], when both return,
    print the same nodes, in a different order. *)
Theorem traversals_print_same_nodes (fuel fuel' : nat) (graph : adjacency) (start : string)
  (visited out visited' out' : list string) :
  dfs fuel graph start None [] = (Returned, visited, out) ->
  bfs fuel' graph start [] = (Returned, visited', out') ->
  Permutation out out'.
Proof.
  intros Hd Hb.
  destruct (dfs_top fuel graph start Returned visited out Hd)
    as (Hnd & _ & Hsound & _ & Hcomplete & _).
  destruct (bfs_top fuel' graph start Returned visited' out' Hb)
    as (Hnd' & _ & Hsound' & _ & Hcomplete' & _).
  apply NoDup_Permutation; [exact Hnd | exact Hnd'|].
  intros x. split; intros Hx; auto.
Qed.

Lemma traversals_print_same_nodes_witness :
  Permutation ["A"; "B"; "D"; "E"; "F"; "C"] ["A"; "B"; "C"; "D"; "E"; "F"].
Proof.
  apply (traversals_print_same_nodes 4 8 graph "A"
           ["C"; "F"; "E"; "D"; "B"; "A"] _ ["F"; "E"; "D"; "C"; "B"; "A"] _);
    reflexivity.
Defined.

Lemma StronglySorted_app {A : Type} (R : A -> A -> Prop) (l1 l2 : list A) :
  StronglySorted R l1 -> StronglySorted R l2 ->
  (forall a b, In a l1 -> In b l2 -> R a b) ->
  StronglySorted R (l1 ++ l2).
Proof.
  intros H1 H2 H. induction H1 as [|a l Hl IH Ha]; simpl; [exact H2|].
  constructor.
  - apply IH. intros x y Hx Hy. apply H; [right|]; assumption.
  - apply Forall_app. split; [exact Ha|].
    apply Forall_forall. intros y Hy. apply H; [left; reflexivity | exact Hy].
Qed.

Lemma StronglySorted_const {A B : Type} (R : B -> B -> Prop) (f : A -> B) (l : list A) :
  (forall a b, In a l -> In b l -> R (f a) (f b)) -> StronglySorted R (map f l).
Proof.
  induction l as [|a l IH]; intros H; simpl; constructor.
  - apply IH. intros x y Hx Hy. apply H; right; assumption.
  - apply Forall_forall. intros y Hy. apply in_map_iff in Hy. destruct Hy as (z & <- & Hz).
    apply H; [left; reflexivity | right; exact Hz].
Qed.

Lemma in_map_fst {A B : Type} (x : A) (l : list (A * B)) :
  In x (map fst l) <-> exists d, In (x, d) l.
Proof.
  rewrite in_map_iff. split.
  - intros ([a d] & <- & H). exists d. exact H.
  - intros (d & H). exists (x, d). split; [reflexivity | exact H].
Qed.

Section Levels.
Variable graph : adjacency.
Variable start : string.

Lemma levels_cover tq tp :
  bfs_levels graph start tq tp ->
  forall y n, walk graph start y n ->
    (exists d, In (y, d) tp /\ (d <= n)%nat) \/ (exists e, In e tq /\ (snd e <= n)%nat).
Proof.
  intros Hl y n Hw. induction Hw as [|x y n Hw IH Hxy].
  - destruct (bl_start _ _ _ _ Hl) as [H | H].
    + left. exists O. split; [exact H | lia].
    + right. exists (start, O). split; [exact H | simpl; lia].
  - destruct IH as [(d & Hd & Hle) | (e & He & Hle)].
    + destruct (bl_closed _ _ _ _ Hl x d Hd y Hxy) as (d' & Hd' & [H | H]).
      * left. exists d'. split; [exact H | lia].
      * right. exists (y, d'). split; [exact H | simpl; lia].
    + right. exists e. split; [exact He | lia].
Qed.

Lemma bfs_loop_levels :
  forall fuel tq tp out0 st visited' out',
    bfs_levels graph start tq tp ->
    bfs_loop fuel graph (map fst tq) (rev (map fst tp)) (out0 ++ map fst tp)
      = (st, visited', out') ->
    exists tp',
      out' = out0 ++ map fst tp' /\
      StronglySorted by_level tp' /\
      forall x d, In (x, d) tp' ->
        walk graph start x d /\ forall n, walk graph start x n -> (d <= n)%nat.
Proof.
  induction fuel as [|fuel IH]; intros tq tp out0 st visited' out' Hl H.
  - simpl in H. inversion H; subst. exists tp. split; [reflexivity|].
    split; [apply (bl_printed_sorted _ _ _ _ Hl)|].
    intros x d Hx. split; [apply (bl_walk_printed _ _ _ _ Hl x d Hx)|].
    apply (bl_least _ _ _ _ Hl x d Hx).
  - destruct tq as [|[node d] tq].
    + simpl in H. inversion H; subst. exists tp. split; [reflexivity|].
      split; [apply (bl_printed_sorted _ _ _ _ Hl)|].
      intros x dx Hx. split; [apply (bl_walk_printed _ _ _ _ Hl x dx Hx)|].
      apply (bl_least _ _ _ _ Hl x dx Hx).
    + cbn [map fst bfs_loop] in H.
      pose proof (bl_queue_sorted _ _ _ _ Hl) as Hsq.
      apply StronglySorted_inv in Hsq. destruct Hsq as [Hsq Hhd].
      rewrite Forall_forall in Hhd.
      assert (Hlow : forall a, In a tp -> (snd a <= d)%nat).
      { intros a Ha. apply (bl_printed_low _ _ _ _ Hl a (node, d) Ha). left. reflexivity. }
      destruct (mem node (rev (map fst tp))) eqn:Em.
      * apply mem_In in Em. apply in_rev in Em. apply in_map_fst in Em.
        destruct Em as (d0 & Hd0).
        pose proof (Hlow _ Hd0) as Hd0le. simpl in Hd0le.
        apply (IH tq tp out0 st visited' out'); [|exact H].
        split.
        -- exact Hsq.
        -- intros a b Ha Hb. apply (bl_window _ _ _ _ Hl); right; assumption.
        -- apply (bl_printed_sorted _ _ _ _ Hl).
        -- intros a b Ha Hb. apply (bl_printed_low _ _ _ _ Hl a b Ha). right. exact Hb.
        -- intros x dx Hx. apply (bl_walk_queue _ _ _ _ Hl). right. exact Hx.
        -- apply (bl_walk_printed _ _ _ _ Hl).
        -- apply (bl_least _ _ _ _ Hl).
        -- intros x dx Hx z Hxz.
           destruct (bl_closed _ _ _ _ Hl x dx Hx z Hxz) as (d' & Hd' & [Hin | [Hin | Hin]]).
           ++ exists d'. split; [exact Hd' | left; exact Hin].
           ++ inversion Hin; subst. exists d0. split; [lia | left; exact Hd0].
           ++ exists d'. split; [exact Hd' | right; exact Hin].
        -- destruct (bl_start _ _ _ _ Hl) as [Hin | [Hin | Hin]].
           ++ left. exact Hin.
           ++ inversion Hin; subst. left.
              assert (d0 = O) by lia. subst d0. exact Hd0.
           ++ right. exact Hin.
      * apply mem_false in Em.
        assert (Hnp : forall d', ~ In (node, d') tp).
        { intros d' Hin. apply Em. apply -> in_rev. apply in_map_fst. exists d'. exact Hin. }
        assert (Hleast : forall n, walk graph start node n -> (d <= n)%nat).
        { intros n Hw. destruct (levels_cover _ _ Hl node n Hw) as [(d' & Hd' & _) | (e & He & Hle)].
          - exfalso. apply (Hnp d' Hd').
          - destruct He as [<- | He]; [exact Hle|].
            pose proof (Hhd e He) as Hde. unfold by_level in Hde. simpl in Hde. lia. }
        assert (Hwalk : walk graph start node d).
        { apply (bl_walk_queue _ _ _ _ Hl). left. reflexivity. }
        assert (Hsp : StronglySorted by_level (tp ++ [(node, d)])).
        { apply StronglySorted_app.
          - apply (bl_printed_sorted _ _ _ _ Hl).
          - repeat constructor.
          - intros a b Ha [<- | []]. apply (Hlow a Ha). }
        assert (Hwp : forall x dx, In (x, dx) (tp ++ [(node, d)]) ->
                  walk graph start x dx /\ forall n, walk graph start x n -> (dx <= n)%nat).
        { intros x dx Hx. apply in_app_or in Hx. destruct Hx as [Hx | [Hx | []]].
          - split; [apply (bl_walk_printed _ _ _ _ Hl x dx Hx)|].
            apply (bl_least _ _ _ _ Hl x dx Hx).
          - inversion Hx; subst. split; assumption. }
        assert (Hout : (out0 ++ map fst tp) ++ [node] = out0 ++ map fst (tp ++ [(node, d)])).
        { rewrite map_app, app_assoc. reflexivity. }
        assert (Hvis : node :: rev (map fst tp) = rev (map fst (tp ++ [(node, d)]))).
        { rewrite map_app, rev_app_distr. reflexivity. }
        destruct (lookup graph node) as [nbrs|] eqn:El.
        -- set (new := filter (fun neighbor => negb (mem neighbor (node :: rev (map fst tp)))) nbrs)
             in *.
           assert (Hq : map fst tq ++ new = map fst (tq ++ map (fun z => (z, S d)) new)).
           { rewrite map_app, map_map. simpl. rewrite map_id. reflexivity. }
           rewrite Hout, Hvis, Hq in H.
           refine (IH _ _ out0 st visited' out' _ H).
           assert (Htq : forall a, In a (tq ++ map (fun z => (z, S d)) new) ->
                     (d <= snd a <= d + 1)%nat).
           { intros a Ha. apply in_app_or in Ha. destruct Ha as [Ha | Ha].
             - pose proof (Hhd a Ha) as H1. unfold by_level in H1. simpl in H1.
               pose proof (bl_window _ _ _ _ Hl (node, d) a (or_introl eq_refl) (or_intror Ha)) as H2.
               simpl in H2. lia.
             - apply in_map_iff in Ha. destruct Ha as (z & <- & _). simpl. lia. }
           assert (Htp : forall a, In a (tp ++ [(node, d)]) -> (snd a <= d)%nat).
           { intros a Ha. apply in_app_or in Ha. destruct Ha as [Ha | [<- | []]].
             - apply (Hlow a Ha).
             - simpl. lia. }
           split.
           ++ apply StronglySorted_app.
              ** exact Hsq.
              ** apply StronglySorted_const. intros a b _ _. unfold by_level. simpl. lia.
              ** intros a b Ha Hb. apply in_map_iff in Hb. destruct Hb as (z & <- & _).
                 unfold by_level. simpl.
                 pose proof (Htq a (in_or_app _ _ _ (or_introl Ha))). lia.
           ++ intros a b Ha Hb. pose proof (Htq a Ha). pose proof (Htq b Hb). lia.
           ++ exact Hsp.
           ++ intros a b Ha Hb. pose proof (Htp a Ha). pose proof (Htq b Hb). lia.
           ++ intros x dx Hx. apply in_app_or in Hx. destruct Hx as [Hx | Hx].
              ** apply (bl_walk_queue _ _ _ _ Hl). right. exact Hx.
              ** apply in_map_iff in Hx. destruct Hx as (z & E & Hz). inversion E; subst.
                 apply filter_In in Hz. destruct Hz as [Hz _].
                 eapply walk_step; [exact Hwalk|]. exists nbrs. split; assumption.
           ++ intros x dx Hx. apply (Hwp x dx Hx).
           ++ intros x dx Hx. apply (Hwp x dx Hx).
           ++ intros x dx Hx z Hxz. apply in_app_or in Hx. destruct Hx as [Hx | [Hx | []]].
              ** destruct (bl_closed _ _ _ _ Hl x dx Hx z Hxz) as (d' & Hd' & [Hin | [Hin | Hin]]).
                 --- exists d'. split; [exact Hd'|]. left. apply in_or_app. left. exact Hin.
                 --- inversion Hin; subst. exists d'. split; [exact Hd'|].
                     left. apply in_or_app. right. left. reflexivity.
                 --- exists d'. split; [exact Hd'|]. right. apply in_or_app. left. exact Hin.
              ** inversion Hx; subst x dx. destruct Hxz as (nbrs' & El' & Hz).
                 rewrite El in El'. inversion El'; subst nbrs'.
                 destruct (mem z (node :: rev (map fst tp))) eqn:Ez.
                 --- apply mem_In in Ez. destruct Ez as [<- | Ez].
                     +++ exists d. split; [lia|]. left. apply in_or_app. right. left. reflexivity.
                     +++ apply in_rev in Ez. apply in_map_fst in Ez. destruct Ez as (dz & Hdz).
                         exists dz. pose proof (Hlow _ Hdz) as Hle. simpl in Hle.
                         split; [lia|]. left. apply in_or_app. left. exact Hdz.
                 --- exists (S d). split; [lia|]. right. apply in_or_app. right.
                     apply in_map_iff. exists z. split; [reflexivity|].
                     apply filter_In. split; [exact Hz|]. rewrite Ez. reflexivity.
           ++ destruct (bl_start _ _ _ _ Hl) as [Hin | [Hin | Hin]].
              ** left. apply in_or_app. left. exact Hin.
              ** inversion Hin; subst. left. apply in_or_app. right. left. reflexivity.
              ** right. apply in_or_app. left. exact Hin.
        -- inversion H; subst. exists (tp ++ [(node, d)]).
           split; [exact Hout|]. split; [exact Hsp | exact Hwp].
Qed.

End Levels.

(** X26.  [bfs] prints the nodes in the order of their distance from
    [start]: if [x] is printed before [y] (whether [bfs] then returns,
    raises or is cut), every walk from [start] to [y] is at least as long as
    some walk from [start] to [x]. *)
Theorem bfs_level_order (fuel : nat) (graph : adjacency) (start : string)
  (st : status) (visited out : list string)
  (pre mid post : list string) (x y : string) (n : nat) :
  bfs fuel graph start [] = (st, visited, out) ->
  out = pre ++ x :: mid ++ y :: post ->
  walk graph start y n ->
  exists m, (m <= n)%nat /\ walk graph start x m.
Proof.
  intros H Hout Hw. unfold bfs in H.
  assert (Hl : bfs_levels graph start [(start, O)] []).
  { split.
    - repeat constructor.
    - intros a b [<- | []] [<- | []]. simpl. lia.
    - constructor.
    - intros a b [].
    - intros z d [E | []]. inversion E; subst. constructor.
    - intros z d [].
    - intros z d [].
    - intros z d [].
    - right. left. reflexivity. }
  destruct (bfs_loop_levels graph start fuel [(start, O)] [] [] st visited out Hl H)
    as (tp & Ho & Hs & Htags).
  simpl in Ho. rewrite Hout in Ho. symmetry in Ho.
  apply map_eq_app in Ho. destruct Ho as (tpre & t1 & -> & _ & Ho).
  apply map_eq_cons in Ho. destruct Ho as ([x' dx] & t2 & -> & Ex & Ho).
  simpl in Ex. subst x'.
  apply map_eq_app in Ho. destruct Ho as (tmid & t3 & -> & _ & Ho).
  apply map_eq_cons in Ho. destruct Ho as ([y' dy] & tpost & -> & Ey & _).
  simpl in Ey. subst y'.
  assert (Hx : In (x, dx) (tpre ++ (x, dx) :: tmid ++ (y, dy) :: tpost)).
  { apply in_or_app. right. left. reflexivity. }
  assert (Hy : In (y, dy) (tpre ++ (x, dx) :: tmid ++ (y, dy) :: tpost)).
  { apply in_or_app. right. right. apply in_or_app. right. left. reflexivity. }
  destruct (Htags x dx Hx) as [Hwx _].
  destruct (Htags y dy Hy) as [_ Hmin].
  exists dx. split; [|exact Hwx].
  assert (Hle : (dx <= dy)%nat).
  { clear - Hs. induction tpre as [|a tpre IH].
    - simpl in Hs. apply StronglySorted_inv in Hs. destruct Hs as [_ Hf].
      rewrite Forall_forall in Hf.
      apply (Hf (y, dy)). apply in_or_app. right. left. reflexivity.
    - simpl in Hs. apply StronglySorted_inv in Hs. destruct Hs as [Hs _]. apply IH. exact Hs. }
  pose proof (Hmin n Hw). lia.
Qed.

Lemma bfs_level_order_witness :
  exists m, (m <= 2)%nat /\ walk graph "A" "C" m.
Proof.
  apply (bfs_level_order 8 graph "A" Returned
           ["F"; "E"; "D"; "C"; "B"; "A"] ["A"; "B"; "C"; "D"; "E"; "F"]
           ["A"; "B"] [] ["E"; "F"] "C" "D" 2).
  - reflexivity.
  - reflexivity.
  - eapply walk_step; [eapply walk_step; [apply walk_here|]|].
    + exists ["B"; "C"]. split; [reflexivity | left; reflexivity].
    + exists ["D"; "E"]. split; [reflexivity | left; reflexivity].
Defined.

End Traversal.
